(** * standup-parser: scanner and statement parser

    A shallow embedding of the Go package [parser] (token.go, the scanner,
    parser.go) and the properties of its specification.

    Strings are sequences of runes: the scanner reads its input one rune at a
    time through [bufio.Reader.ReadRune] and builds every literal with
    [bytes.Buffer.WriteRune], so a Go string is modelled by the list of its
    code points.  Loops carry a fuel argument and return [None] when it runs
    out; the callers pass a bound computed from the reader's pending input and
    the theorems show that the bound is always enough. *)

From Stdlib Require Import Ascii String.
From Stdlib Require Import ZArith List Bool Lia.
Import ListNotations.
Open Scope Z_scope.

(** ** Runes and strings *)

Definition rune := Z.
Definition gostring := list rune.

Definition chr (c : ascii) : rune := Z.of_N (N_of_ascii c).

Fixpoint str (s : string) : gostring :=
  match s with
  | EmptyString => []
  | String c s' => chr c :: str s'
  end.

Fixpoint gostring_eqb (a b : gostring) : bool :=
  match a, b with
  | [], [] => true
  | x :: a', y :: b' => (x =? y) && gostring_eqb a' b'
  | _, _ => false
  end.

(** ** The result of running a loop with fuel *)

Definition bind {A B : Type} (m : option A) (k : A -> option B) : option B :=
  match m with
  | Some a => k a
  | None => None
  end.

Notation "x <- m ;; k" := (bind m (fun x => k))
  (at level 61, m at next level, right associativity).
Notation "' p <- m ;; k" := (bind m (fun x => match x with p => k end))
  (at level 61, p pattern, m at next level, right associativity).

(** ** Library functions used by the package *)

(** [unicode.IsSpace]: the Latin-1 cases, then the White_Space table. *)
Definition unicode_IsSpace (r : rune) : bool :=
  if (0 <=? r) && (r <=? 255) then
    (r =? 9) || (r =? 10) || (r =? 11) || (r =? 12) || (r =? 13) ||
    (r =? 32) || (r =? 133) || (r =? 160)
  else
    (r =? 5760) || ((8192 <=? r) && (r <=? 8202)) || (r =? 8232) ||
    (r =? 8233) || (r =? 8239) || (r =? 8287) || (r =? 12288).

(** [unicode.ToUpper], as far as the keyword comparison of [scanIdent] can
    observe it: the lower-case ASCII letters, and the two other runes whose
    upper case is an ASCII letter (U+0131 dotless i and U+017F long s).  The
    upper case of any other rune is neither an ASCII letter nor a space nor a
    decoration character, exactly like the rune itself, so it is left as it
    is. *)
Definition unicode_ToUpper (r : rune) : rune :=
  if (chr "a" <=? r) && (r <=? chr "z") then r - 32
  else if r =? 305 then chr "I"
  else if r =? 383 then chr "S"
  else r.

Definition strings_ToUpper (s : gostring) : gostring := map unicode_ToUpper s.

Fixpoint strings_TrimLeftFunc (f : rune -> bool) (s : gostring) : gostring :=
  match s with
  | [] => []
  | c :: t => if f c then strings_TrimLeftFunc f t else s
  end.

Definition strings_TrimRightFunc (f : rune -> bool) (s : gostring) : gostring :=
  rev (strings_TrimLeftFunc f (rev s)).

Definition strings_TrimFunc (f : rune -> bool) (s : gostring) : gostring :=
  strings_TrimRightFunc f (strings_TrimLeftFunc f s).

Definition strings_TrimSpace (s : gostring) : gostring :=
  strings_TrimFunc unicode_IsSpace s.

Definition strings_Trim (s cutset : gostring) : gostring :=
  strings_TrimFunc (fun c => existsb (Z.eqb c) cutset) s.

Fixpoint strings_Join (elems : list gostring) (sep : gostring) : gostring :=
  match elems with
  | [] => []
  | x :: rest =>
      match rest with
      | [] => x
      | _ :: _ => x ++ sep ++ strings_Join rest sep
      end
  end.

(** [strings.Split] with a separator of one rune. *)
Fixpoint strings_Split (s : gostring) (sep : rune) : list gostring :=
  match s with
  | [] => [[]]
  | c :: t =>
      if c =? sep then [] :: strings_Split t sep
      else match strings_Split t sep with
           | l :: ls => (c :: l) :: ls
           | [] => [[c]]
           end
  end.

(** [bufio.Reader] over the runes of the input: what is still to be read, and
    the rune that [UnreadRune] can give back (only right after a successful
    [ReadRune]). *)
Record Reader := mkReader { pending : list rune; lastRune : option rune }.

Definition bufio_NewReader (input : gostring) : Reader :=
  {| pending := input; lastRune := None |}.

(** Returns the rune and whether an error (end of input) occurred. *)
Definition ReadRune (b : Reader) : rune * bool * Reader :=
  match pending b with
  | [] => (0, true, {| pending := []; lastRune := None |})
  | ch :: tl => (ch, false, {| pending := tl; lastRune := Some ch |})
  end.

Definition UnreadRune (b : Reader) : Reader :=
  match lastRune b with
  | Some ch => {| pending := ch :: pending b; lastRune := None |}
  | None => b
  end.

(** [bytes.Buffer.WriteRune] *)
Definition WriteRune (buf : gostring) (ch : rune) : gostring := buf ++ [ch].

(** ** token.go *)

Inductive Token : Set :=
  | EOF | WS | COLON
  | IDENT
  | TODAY | YESTERDAY | MEETINGS | BLOCKERS | LP | JIRA.

Definition Token_eqb (a b : Token) : bool :=
  match a, b with
  | EOF, EOF | WS, WS | COLON, COLON | IDENT, IDENT
  | TODAY, TODAY | YESTERDAY, YESTERDAY | MEETINGS, MEETINGS
  | BLOCKERS, BLOCKERS | LP, LP | JIRA, JIRA => true
  | _, _ => false
  end.

Definition isKeyword (t : Token) : bool :=
  Token_eqb t TODAY ||
  Token_eqb t YESTERDAY ||
  Token_eqb t MEETINGS ||
  Token_eqb t BLOCKERS ||
  Token_eqb t LP ||
  Token_eqb t JIRA.

(** ** The scanner *)

Record Scanner := mkScanner { Scanner_r : Reader }.

Definition NewScanner (input : gostring) : Scanner :=
  {| Scanner_r := bufio_NewReader input |}.

Definition eof : rune := 0.

Definition isLineBreak (ch : rune) : bool := ch =? chr "010".

Definition isWhitespace (ch : rune) : bool :=
  unicode_IsSpace ch || (ch =? chr " ") || (ch =? chr "009") ||
  (ch =? 8194) || isLineBreak ch.

Definition isAlphanumeric (ch : rune) : bool :=
  ((chr "a" <=? ch) && (ch <=? chr "z")) ||
  ((chr "A" <=? ch) && (ch <=? chr "Z")) ||
  ((chr "0" <=? ch) && (ch <=? chr "9")).

Definition read (s : Scanner) : rune * Scanner :=
  let '(ch, err, r') := ReadRune (Scanner_r s) in
  if err then (eof, {| Scanner_r := r' |}) else (ch, {| Scanner_r := r' |}).

Definition unread (s : Scanner) : Scanner :=
  {| Scanner_r := UnreadRune (Scanner_r s) |}.

(** What is left to read; the bound of every loop below. *)
Definition remaining (s : Scanner) : nat := length (pending (Scanner_r s)).

Fixpoint scanWhitespace_loop (fuel : nat) (buf : gostring) (s : Scanner)
  : option (gostring * Scanner) :=
  match fuel with
  | O => None
  | S fuel' =>
      let '(ch, s1) := read s in
      if ch =? eof then Some (buf, s1)
      else if negb (isWhitespace ch) then Some (buf, unread s1)
      else scanWhitespace_loop fuel' (WriteRune buf ch) s1
  end.

Definition scanWhitespace (s : Scanner) : option (Token * gostring * Scanner) :=
  let '(ch, s1) := read s in
  let buf := WriteRune [] ch in
  '(buf, s2) <- scanWhitespace_loop (S (remaining s1)) buf s1 ;;
  Some (WS, buf, s2).

Fixpoint scanIdent_loop (fuel : nat) (buf : gostring) (s : Scanner)
  : option (gostring * Scanner) :=
  match fuel with
  | O => None
  | S fuel' =>
      let '(ch, s1) := read s in
      if ch =? eof then Some (buf, s1)
      else if isLineBreak ch then Some (buf, unread s1)
      else if ch =? chr ":" then Some (buf, unread s1)
      else scanIdent_loop fuel' (WriteRune buf ch) s1
  end.

(** The [switch] of [scanIdent] on the normalised text. *)
Definition keyword_of (k : gostring) : Token :=
  if gostring_eqb k (str "TODAY") then TODAY
  else if gostring_eqb k (str "YESTERDAY") then YESTERDAY
  else if gostring_eqb k (str "WEEKEND") then YESTERDAY
  else if gostring_eqb k (str "WEEK-END") then YESTERDAY
  else if gostring_eqb k (str "FRIDAY") then YESTERDAY
  else if gostring_eqb k (str "FRIDAY/WEEKEND") then YESTERDAY
  else if gostring_eqb k (str "MEETING") then MEETINGS
  else if gostring_eqb k (str "MEETINGS") then MEETINGS
  else if gostring_eqb k (str "BLOCKER") then BLOCKERS
  else if gostring_eqb k (str "BLOCKERS") then BLOCKERS
  else if gostring_eqb k (str "TIME") then LP
  else if gostring_eqb k (str "HOURS") then LP
  else if gostring_eqb k (str "LP") then LP
  else if gostring_eqb k (str "JIRA") then JIRA
  else IDENT.

Definition scanIdent (s : Scanner) : option (Token * gostring * Scanner) :=
  let '(ch, s1) := read s in
  let buf := WriteRune [] ch in
  '(buf, s2) <- scanIdent_loop (S (remaining s1)) buf s1 ;;
  Some (keyword_of
          (strings_TrimSpace (strings_Trim (strings_ToUpper buf) (str "_*-+>"))),
        buf, s2).

Definition Scan (s : Scanner) : option (Token * gostring * Scanner) :=
  let '(ch, s1) := read s in
  if isWhitespace ch then scanWhitespace (unread s1)
  else if ch =? eof then Some (EOF, [], s1)
  else if ch =? chr ":" then Some (COLON, [ch], s1)
  else scanIdent (unread s1).

(** ** Regular expressions ([regexp], RE2 syntax)

    The two patterns of [isPositive] use literals, [.], [\s], concatenation,
    alternation, [*] and [+].  [Match] reports whether the text contains any
    match of the expression. *)

Inductive regex : Type :=
  | Empty                         (* matches nothing *)
  | Eps                           (* the empty string *)
  | Lit (c : rune)
  | Dot                           (* [.]: any rune except the line break *)
  | Space                         (* [\s]: one of \t \n \f \r and the blank *)
  | AnyRune                       (* any rune, for the unanchored search *)
  | Cat (a b : regex)
  | Alt (a b : regex)
  | Star (a : regex).

Definition Plus (a : regex) : regex := Cat a (Star a).

Fixpoint Word (s : gostring) : regex :=
  match s with
  | [] => Eps
  | c :: t => Cat (Lit c) (Word t)
  end.

Fixpoint Alts (l : list regex) : regex :=
  match l with
  | [] => Empty
  | a :: t =>
      match t with
      | [] => a
      | _ :: _ => Alt a (Alts t)
      end
  end.

Fixpoint nullable (r : regex) : bool :=
  match r with
  | Empty | Lit _ | Dot | Space | AnyRune => false
  | Eps | Star _ => true
  | Cat a b => nullable a && nullable b
  | Alt a b => nullable a || nullable b
  end.

Definition perl_space (c : rune) : bool :=
  (c =? 9) || (c =? 10) || (c =? 12) || (c =? 13) || (c =? 32).

Fixpoint deriv (c : rune) (r : regex) : regex :=
  match r with
  | Empty | Eps => Empty
  | Lit d => if c =? d then Eps else Empty
  | Dot => if c =? 10 then Empty else Eps
  | Space => if perl_space c then Eps else Empty
  | AnyRune => Eps
  | Cat a b =>
      if nullable a then Alt (Cat (deriv c a) b) (deriv c b)
      else Cat (deriv c a) b
  | Alt a b => Alt (deriv c a) (deriv c b)
  | Star a => Cat (deriv c a) (Star a)
  end.

Fixpoint matches (r : regex) (s : gostring) : bool :=
  match s with
  | [] => nullable r
  | c :: t => matches (deriv c r) t
  end.

Definition regexp_Match (re : regex) (s : gostring) : bool :=
  matches (Cat (Star AnyRune) (Cat re (Star AnyRune))) s.

(** ** parser.go *)

Module StringField.
Record t := mk { Key : gostring; Val : gostring; Valid : bool }.
Definition zero : t := {| Key := []; Val := []; Valid := false |}.
End StringField.

Module BoolField.
Record t := mk { Key : gostring; Val : bool; Lit : gostring; Valid : bool }.
Definition zero : t := {| Key := []; Val := false; Lit := []; Valid := false |}.
End BoolField.

Module Statement.
Record t := mk {
  Yesterday : StringField.t;
  Today : StringField.t;
  Meetings : StringField.t;
  Blockers : StringField.t;
  LP : BoolField.t;
  Jira : BoolField.t }.
(** [&Statement{}] *)
Definition zero : t :=
  {| Yesterday := StringField.zero; Today := StringField.zero;
     Meetings := StringField.zero; Blockers := StringField.zero;
     LP := BoolField.zero; Jira := BoolField.zero |}.
End Statement.

Inductive error : Type := errors_New (msg : gostring).

Record Buf := mkBuf { buf_tok : Token; buf_lit : gostring; buf_n : Z }.

Record Parser := mkParser { Parser_s : Scanner; Parser_buf : Buf }.

Definition New (input : gostring) : Parser :=
  {| Parser_s := NewScanner input;
     Parser_buf := {| buf_tok := EOF; buf_lit := []; buf_n := 0 |} |}.

(** [.*(no|off|updating|negative).*] *)
Definition negative : regex :=
  Cat (Star Dot)
      (Cat (Alts [Word (str "no"); Word (str "off"); Word (str "updating");
                  Word (str "negative")])
           (Star Dot)).

(** [.*(done|yes|up\s+to\s+date|ok|1|affirmative|current|updated)] *)
Definition positive : regex :=
  Cat (Star Dot)
      (Alts [Word (str "done"); Word (str "yes");
             Cat (Word (str "up"))
                 (Cat (Plus Space)
                      (Cat (Word (str "to"))
                           (Cat (Plus Space) (Word (str "date")))));
             Word (str "ok"); Word (str "1"); Word (str "affirmative");
             Word (str "current"); Word (str "updated")]).

Definition isPositive (s : gostring) : bool * option error :=
  let n := regexp_Match negative s in
  let p := regexp_Match positive s in
  if p && n then (true, Some (errors_New (str "ambiguous")))
  else if negb p && negb n then (true, Some (errors_New (str "unclear")))
  else (p && negb n, None).

Definition scan (p : Parser) : option (Token * gostring * Parser) :=
  if negb (buf_n (Parser_buf p) =? 0) then
    Some (buf_tok (Parser_buf p), buf_lit (Parser_buf p),
          {| Parser_s := Parser_s p;
             Parser_buf := {| buf_tok := buf_tok (Parser_buf p);
                              buf_lit := buf_lit (Parser_buf p);
                              buf_n := 0 |} |})
  else
    '(tok, lit, s') <- Scan (Parser_s p) ;;
    Some (tok, lit,
          {| Parser_s := s';
             Parser_buf := {| buf_tok := tok; buf_lit := lit;
                              buf_n := buf_n (Parser_buf p) |} |}).

Definition scanIgnoreWhitespace (p : Parser)
  : option (Token * gostring * gostring * Parser) :=
  '(tok, lit, p1) <- scan p ;;
  if Token_eqb tok WS then
    '(tok', lit', p2) <- scan p1 ;;
    Some (tok', lit', lit, p2)
  else Some (tok, lit, [], p1).

Definition unscan (p : Parser) : Parser :=
  {| Parser_s := Parser_s p;
     Parser_buf := {| buf_tok := buf_tok (Parser_buf p);
                      buf_lit := buf_lit (Parser_buf p);
                      buf_n := 1 |} |}.

Definition splitAndTrimSpace (values : list gostring) : gostring :=
  let val := strings_TrimSpace (strings_Join values []) in
  let lines := strings_Split val (chr "010") in
  strings_Join (map strings_TrimSpace lines) (str (String "010" EmptyString)).

(** The inner [for] of [Parse]: the value of one group. *)
Fixpoint Parse_values (fuel : nat) (values : list gostring) (p : Parser)
  : option (list gostring * Parser) :=
  match fuel with
  | O => None
  | S fuel' =>
      '(tok, lit, ws, p1) <- scanIgnoreWhitespace p ;;
      if isKeyword tok || Token_eqb tok EOF then Some (values, unscan p1)
      else if Token_eqb tok IDENT || Token_eqb tok COLON
           then Parse_values fuel' (values ++ [ws; lit]) p1
           else Parse_values fuel' values p1
  end.

(** The [switch key] of [Parse]: the group is stored in its slot. *)
Definition Parse_assign (key : Token) (keyLit : gostring)
  (values : list gostring) (stmt : Statement.t) : Statement.t :=
  let text := splitAndTrimSpace values in
  let field := {| StringField.Key := keyLit; StringField.Val := text;
                  StringField.Valid := negb (gostring_eqb text []) |} in
  let flag := let '(val, err) := isPositive text in
              {| BoolField.Key := keyLit; BoolField.Val := val;
                 BoolField.Lit := text;
                 BoolField.Valid := match err with
                                    | None => true
                                    | Some _ => false
                                    end |} in
  let '(Statement.mk y t m b l j) := stmt in
  match key with
  | TODAY => Statement.mk y field m b l j
  | YESTERDAY => Statement.mk field t m b l j
  | MEETINGS => Statement.mk y t field b l j
  | BLOCKERS => Statement.mk y t m field l j
  | LP => Statement.mk y t m b flag j
  | JIRA => Statement.mk y t m b l flag
  | _ => stmt
  end.

(** What a pass of the outer [for] reads: the keyword and its literal, and
    the values up to the next keyword; [None] at the [break]. *)
Definition Parse_group (p : Parser)
  : option (option (Token * gostring * list gostring) * Parser) :=
  '(key, keyLit, _, p1) <- scanIgnoreWhitespace p ;;
  if Token_eqb key EOF then Some (None, p1)
  else
    let '(key, keyLit, p2) :=
      if negb (isKeyword key) then (TODAY, [], unscan p1)
      else (key, keyLit, p1) in
    '(col, _, _, p3) <- scanIgnoreWhitespace p2 ;;
    let p4 := if negb (Token_eqb col COLON) then unscan p3 else p3 in
    '(values, p5) <-
       Parse_values (S (S (remaining (Parser_s p4)))) [] p4 ;;
    Some (Some (key, keyLit, values), p5).

(** The outer [for] of [Parse]. *)
Fixpoint Parse_loop (fuel : nat) (p : Parser) (stmt : Statement.t)
  : option (Statement.t * Parser) :=
  match fuel with
  | O => None
  | S fuel' =>
      '(g, p1) <- Parse_group p ;;
      match g with
      | None => Some (stmt, p1)
      | Some (key, keyLit, values) =>
          Parse_loop fuel' p1 (Parse_assign key keyLit values stmt)
      end
  end.

(** [Parse] returns the pointer to the statement (never nil here) and the
    error. *)
Definition Parse (p : Parser) : option (option Statement.t * option error) :=
  '(stmt, _) <-
     Parse_loop (S (S (remaining (Parser_s p)))) p Statement.zero ;;
  Some (Some stmt, None).

(** The token stream of an input: [Scan] is called until it returns the
    end-of-input token; the tokens before it are collected. *)
Fixpoint tokens_from (fuel : nat) (s : Scanner)
  : option (list (Token * gostring)) :=
  match fuel with
  | O => None
  | S fuel' =>
      '(tok, lit, s') <- Scan s ;;
      if Token_eqb tok EOF then Some []
      else toks <- tokens_from fuel' s' ;; Some ((tok, lit) :: toks)
  end.

Definition tokens (input : gostring) : option (list (Token * gostring)) :=
  tokens_from (S (length input)) (NewScanner input).

Definition literals (toks : list (Token * gostring)) : gostring :=
  concat (map snd toks).


(** [consumed l a l']: reading the literal [a] off the pending input [l]
    leaves [l']; a NUL that stopped the reading has been taken as well. *)
Definition consumed (l : list rune) (a : gostring) (l' : list rune) : Prop :=
  (l = a ++ l' \/ l = a ++ eof :: l') /\ ~ In eof a.

(** ** The parser seen from its token stream

    [stream s toks]: the calls of [Scan] from the scanner state [s] return
    the tokens [toks] and then the end-of-input token. *)
Inductive stream : Scanner -> list (Token * gostring) -> Prop :=
  | stream_end (s s' : Scanner) (lit : gostring) :
      Scan s = Some (EOF, lit, s') -> stream s []
  | stream_tok (s s' : Scanner) (tok : Token) (lit : gostring) toks :
      Scan s = Some (tok, lit, s') -> tok <> EOF -> stream s' toks ->
      stream s ((tok, lit) :: toks).

(** [ahead p toks]: the tokens that [scan] will return from the parser state
    [p], the token of the pushback buffer first when it is armed. *)
Inductive ahead (p : Parser) : list (Token * gostring) -> Prop :=
  | ahead_end :
      buf_n (Parser_buf p) <> 0 -> buf_tok (Parser_buf p) = EOF ->
      ahead p []
  | ahead_buf toks :
      buf_n (Parser_buf p) <> 0 -> buf_tok (Parser_buf p) <> EOF ->
      stream (Parser_s p) toks ->
      ahead p ((buf_tok (Parser_buf p), buf_lit (Parser_buf p)) :: toks)
  | ahead_scan toks :
      buf_n (Parser_buf p) = 0 -> stream (Parser_s p) toks ->
      ahead p toks.

(** [scanIgnoreWhitespace] on the tokens ahead: the token, its literal, the
    whitespace before it, the tokens ahead after it, and the tokens ahead
    once it is pushed back. *)
Definition next_token (toks : list (Token * gostring))
  : Token * gostring * gostring * list (Token * gostring)
    * list (Token * gostring) :=
  match toks with
  | [] => (EOF, [], [], [], [])
  | (t, l) :: r =>
      if Token_eqb t WS then
        match r with
        | [] => (EOF, [], l, [], [])
        | (t', l') :: r' => (t', l', l, r', r)
        end
      else (t, l, [], r, toks)
  end.

(** The inner loop of [Parse] on the tokens ahead. *)
Fixpoint values_ahead (values : list gostring)
  (toks : list (Token * gostring)) {struct toks}
  : list gostring * list (Token * gostring) :=
  match toks with
  | [] => (values, [])
  | (t, l) :: r =>
      if Token_eqb t WS then
        match r with
        | [] => (values, [])
        | (t', l') :: r' =>
            if isKeyword t' || Token_eqb t' EOF then (values, r)
            else if Token_eqb t' IDENT || Token_eqb t' COLON
                 then values_ahead (values ++ [l; l']) r'
                 else values_ahead values r'
        end
      else if isKeyword t || Token_eqb t EOF then (values, toks)
      else if Token_eqb t IDENT || Token_eqb t COLON
           then values_ahead (values ++ [[]; l]) r
           else values_ahead values r
  end.

(** A pass of the outer loop on the tokens ahead. *)
Definition group_ahead (toks : list (Token * gostring))
  : option (Token * gostring * list gostring) * list (Token * gostring) :=
  let '(key, keyLit, _, after, back) := next_token toks in
  if Token_eqb key EOF then (None, back)
  else
    let '(key, keyLit, toks2) :=
      if negb (isKeyword key) then (TODAY, [], back)
      else (key, keyLit, after) in
    let '(col, _, _, after3, back3) := next_token toks2 in
    let toks4 := if negb (Token_eqb col COLON) then back3 else after3 in
    let '(values, toks5) := values_ahead [] toks4 in
    (Some (key, keyLit, values), toks5).

(** The groups that the outer loop of [Parse] reads, in order. *)
Fixpoint Parse_groups (fuel : nat) (p : Parser)
  : option (list (Token * gostring * list gostring)) :=
  match fuel with
  | O => None
  | S fuel' =>
      '(g, p1) <- Parse_group p ;;
      match g with
      | None => Some []
      | Some grp => gs <- Parse_groups fuel' p1 ;; Some (grp :: gs)
      end
  end.

Fixpoint groups_ahead (fuel : nat) (toks : list (Token * gostring))
  : list (Token * gostring * list gostring) :=
  match fuel with
  | O => []
  | S fuel' =>
      match group_ahead toks with
      | (None, _) => []
      | (Some grp, toks') => grp :: groups_ahead fuel' toks'
      end
  end.

Definition assign_group (stmt : Statement.t)
  (g : Token * gostring * list gostring) : Statement.t :=
  let '(key, keyLit, values) := g in Parse_assign key keyLit values stmt.

(** The slot of a keyword kind in a statement. *)
Inductive Field : Type :=
  | TextField (f : StringField.t)
  | FlagField (f : BoolField.t).

Definition slot (K : Token) (stmt : Statement.t) : option Field :=
  match K with
  | TODAY => Some (TextField (Statement.Today stmt))
  | YESTERDAY => Some (TextField (Statement.Yesterday stmt))
  | MEETINGS => Some (TextField (Statement.Meetings stmt))
  | BLOCKERS => Some (TextField (Statement.Blockers stmt))
  | LP => Some (FlagField (Statement.LP stmt))
  | JIRA => Some (FlagField (Statement.Jira stmt))
  | _ => None
  end.

(** What is ahead after the value of a group: nothing, or a keyword. *)
Definition at_keyword (toks : list (Token * gostring)) : Prop :=
  match toks with
  | [] => True
  | (t, _) :: _ => isKeyword t = true \/ t = EOF
  end.

(** The token that the first [scanIgnoreWhitespace] of a pass returns. *)
Definition candidate (toks : list (Token * gostring)) : Token :=
  let '(t, _, _, _, _) := next_token toks in t.

(** A pass reads a group without keyword when its candidate is neither a
    keyword nor the end of the input. *)
Definition default_group (toks : list (Token * gostring)) : bool :=
  negb (isKeyword (candidate toks)) && negb (Token_eqb (candidate toks) EOF).

(** The field that a group with the leading keyword [K] stores. *)
Definition group_field (K : Token) (keyLit : gostring)
  (values : list gostring) : option Field :=
  let text := splitAndTrimSpace values in
  match K with
  | TODAY | YESTERDAY | MEETINGS | BLOCKERS =>
      Some (TextField {| StringField.Key := keyLit;
                         StringField.Val := text;
                         StringField.Valid := negb (gostring_eqb text []) |})
  | LP | JIRA =>
      Some (FlagField {| BoolField.Key := keyLit;
                         BoolField.Val := fst (isPositive text);
                         BoolField.Lit := text;
                         BoolField.Valid :=
                           match snd (isPositive text) with
                           | None => true
                           | Some _ => false
                           end |})
  | _ => None
  end.



(** ** The patterns of [isPositive] read as tables

    [lang r s]: the whole of [s] matches [r]. *)
Inductive lang : regex -> gostring -> Prop :=
  | lang_Eps : lang Eps []
  | lang_Lit (c : rune) : lang (Lit c) [c]
  | lang_Dot (c : rune) : c <> 10 -> lang Dot [c]
  | lang_Space (c : rune) : perl_space c = true -> lang Space [c]
  | lang_AnyRune (c : rune) : lang AnyRune [c]
  | lang_Cat (a b : regex) (s t : gostring) :
      lang a s -> lang b t -> lang (Cat a b) (s ++ t)
  | lang_Alt_l (a b : regex) (s : gostring) : lang a s -> lang (Alt a b) s
  | lang_Alt_r (a b : regex) (s : gostring) : lang b s -> lang (Alt a b) s
  | lang_Star_nil (a : regex) : lang (Star a) []
  | lang_Star_app (a : regex) (s t : gostring) :
      lang a s -> lang (Star a) t -> lang (Star a) (s ++ t).

Definition contains (s w : gostring) : Prop := exists a b, s = a ++ w ++ b.

Definition negative_words : list gostring :=
  [str "no"; str "off"; str "updating"; str "negative"].

Definition positive_words : list gostring :=
  [str "done"; str "yes"; str "ok"; str "1"; str "affirmative";
   str "current"; str "updated"].

(** ["up"], ["to"] and ["date"] with one or more [\s] between them. *)
Definition up_to_date (m : gostring) : Prop :=
  exists sp1 sp2,
    m = str "up" ++ sp1 ++ str "to" ++ sp2 ++ str "date" /\
    sp1 <> [] /\ forallb perl_space sp1 = true /\
    sp2 <> [] /\ forallb perl_space sp2 = true.

Definition negative_table (s : gostring) : Prop :=
  exists w, In w negative_words /\ contains s w.

Definition positive_table (s : gostring) : Prop :=
  exists m, (In m positive_words \/ up_to_date m) /\ contains s m.

(** ** The scanner as a function of the pending input

    [take_run keep l]: what a loop of the scanner reads into its buffer from
    the pending input [l], and the input that it leaves: it stops at the end
    of the input, on a NUL (which it has read) or in front of the first rune
    that it does not keep. *)
Fixpoint take_run (keep : rune -> bool) (l : list rune)
  : gostring * list rune :=
  match l with
  | [] => ([], [])
  | c :: tl =>
      if c =? eof then ([], tl)
      else if keep c then let (a, b) := take_run keep tl in (c :: a, b)
      else ([], l)
  end.

(** The runes that [scanIdent] goes on reading. *)
Definition word_rune (c : rune) : bool :=
  negb (isLineBreak c) && negb (c =? chr ":").

(** The text that [scanIdent] compares with its keywords. *)
Definition normalized (lit : gostring) : gostring :=
  strings_TrimSpace (strings_Trim (strings_ToUpper lit) (str "_*-+>")).

(** Token, literal and input left by a call of [Scan] on the pending input. *)
Definition scan_pending (l : list rune) : Token * gostring * list rune :=
  match l with
  | [] => (EOF, [], [])
  | c :: tl =>
      if isWhitespace c then
        let (a, b) := take_run isWhitespace tl in (WS, c :: a, b)
      else if c =? eof then (EOF, [], tl)
      else if c =? chr ":" then (COLON, [c], tl)
      else
        let (a, b) := take_run word_rune tl in
        (keyword_of (normalized (c :: a)), c :: a, b)
  end.

(** [may_follow t1 t2]: whitespace is not followed by whitespace, and a word
    is followed by whitespace or a colon. *)
Definition may_follow (t1 t2 : Token) : bool :=
  match t1 with
  | WS => negb (Token_eqb t2 WS)
  | COLON | EOF => true
  | _ => Token_eqb t2 WS || Token_eqb t2 COLON
  end.

Fixpoint separated (toks : list (Token * gostring)) : bool :=
  match toks with
  | [] => true
  | (t1, _) :: r =>
      match r with
      | [] => true
      | (t2, _) :: _ => may_follow t1 t2 && separated r
      end
  end.

(** ** Fields of a returned statement *)

Definition field_key (f : Field) : gostring :=
  match f with
  | TextField t => StringField.Key t
  | FlagField b => BoolField.Key b
  end.

(** A text field is valid exactly when its value is not empty. *)
Definition text_consistent (f : StringField.t) : Prop :=
  StringField.Valid f = negb (gostring_eqb (StringField.Val f) []).

(** A flag field is untouched, or holds the classification of its literal. *)
Definition flag_consistent (f : BoolField.t) : Prop :=
  f = BoolField.zero \/
  (BoolField.Val f = fst (isPositive (BoolField.Lit f)) /\
   BoolField.Valid f =
     match snd (isPositive (BoolField.Lit f)) with
     | None => true
     | Some _ => false
     end).

Definition statement_consistent (stmt : Statement.t) : Prop :=
  text_consistent (Statement.Yesterday stmt) /\
  text_consistent (Statement.Today stmt) /\
  text_consistent (Statement.Meetings stmt) /\
  text_consistent (Statement.Blockers stmt) /\
  flag_consistent (Statement.LP stmt) /\
  flag_consistent (Statement.Jira stmt).

(** The text of a field: the value of a text field, the literal of a flag
    field. *)
Definition field_text (f : Field) : gostring :=
  match f with
  | TextField t => StringField.Val t
  | FlagField b => BoolField.Lit b
  end.

(** The decoration runes that [scanIdent] trims off a word. *)
Definition decoration (c : rune) : bool := existsb (Z.eqb c) (str "_*-+>").

(** What is in front of a text that is fixed on the left. *)
Definition starts_outside (f : rune -> bool) (s : gostring) : Prop :=
  match s with
  | [] => True
  | c :: _ => f c = false
  end.

(** The runes with which the indicators of [isPositive] begin: the
    lower-case ASCII letters and the digit 1. *)
Definition lower_or_one (c : rune) : bool :=
  ((chr "a" <=? c) && (c <=? chr "z")) || (c =? chr "1").

(** Tokens of running text: whitespace, words and colons, no keyword. *)
Definition plain_token (t : Token * gostring) : bool :=
  match fst t with
  | WS | IDENT | COLON => true
  | _ => false
  end.

(** What is ahead of a group's value: the tokens once the colon after the
    keyword, when there is one, has been read. *)
Definition skip_colon (toks : list (Token * gostring))
  : list (Token * gostring) :=
  let '(col, _, _, after3, back3) := next_token toks in
  if negb (Token_eqb col COLON) then back3 else after3.

(** * Properties *)

(** ** The scanner *)

Lemma Token_eqb_eq (a b : Token) : Token_eqb a b = true <-> a = b.
Proof. destruct a, b; simpl; split; congruence. Qed.

Lemma Token_eqb_refl (a : Token) : Token_eqb a a = true.
Proof. now destruct a. Qed.

Lemma Token_eqb_neq (a b : Token) : Token_eqb a b = false <-> a <> b.
Proof. destruct a, b; simpl; split; congruence. Qed.

Lemma read_nil (lr : option rune) :
  read (mkScanner (mkReader [] lr)) = (eof, mkScanner (mkReader [] None)).
Proof. reflexivity. Qed.

Lemma read_cons (c : rune) (l : list rune) (lr : option rune) :
  read (mkScanner (mkReader (c :: l) lr)) = (c, mkScanner (mkReader l (Some c))).
Proof. reflexivity. Qed.

Lemma unread_read (c : rune) (l : list rune) :
  unread (mkScanner (mkReader l (Some c))) = mkScanner (mkReader (c :: l) None).
Proof. reflexivity. Qed.

Lemma isWhitespace_eof : isWhitespace eof = false.
Proof. reflexivity. Qed.


Lemma consumed_cons (c : rune) (l a l' : list rune) :
  c <> eof -> consumed l a l' -> consumed (c :: l) (c :: a) l'.
Proof.
  intros Hc [[H | H] Hn]; subst l; split; simpl; auto;
    intros [E | E]; auto.
Qed.

Lemma consumed_length (l a l' : list rune) :
  consumed l a l' -> (length a + length l' <= length l)%nat.
Proof.
  intros [[H | H] _]; subst l; rewrite length_app; simpl; lia.
Qed.

Lemma scanWhitespace_loop_spec (fuel : nat) :
  forall (buf : gostring) (s : Scanner),
    (remaining s < fuel)%nat ->
    exists a s',
      scanWhitespace_loop fuel buf s = Some (buf ++ a, s') /\
      consumed (pending (Scanner_r s)) a (pending (Scanner_r s')).
Proof.
  induction fuel as [| fuel IH]; intros buf [[l lr]] Hf; [inversion Hf |].
  destruct l as [| c l]; cbn [scanWhitespace_loop].
  - rewrite read_nil. exists [], (mkScanner (mkReader [] None)).
    rewrite app_nil_r. repeat split; simpl; auto.
  - rewrite read_cons. destruct (c =? eof) eqn:Ec.
    + apply Z.eqb_eq in Ec. subst c.
      exists [], (mkScanner (mkReader l (Some eof))).
      rewrite app_nil_r. repeat split; simpl; auto.
    + apply Z.eqb_neq in Ec. destruct (isWhitespace c); cbn [negb].
      * destruct (IH (WriteRune buf c) (mkScanner (mkReader l (Some c))))
          as (a & s' & Hl & Hc).
        { unfold remaining in *. simpl in *. lia. }
        exists (c :: a), s'. split.
        -- rewrite Hl. unfold WriteRune. now rewrite <- app_assoc.
        -- apply consumed_cons; assumption.
      * rewrite unread_read. exists [], (mkScanner (mkReader (c :: l) None)).
        rewrite app_nil_r. repeat split; simpl; auto.
Qed.

Lemma scanIdent_loop_spec (fuel : nat) :
  forall (buf : gostring) (s : Scanner),
    (remaining s < fuel)%nat ->
    exists a s',
      scanIdent_loop fuel buf s = Some (buf ++ a, s') /\
      consumed (pending (Scanner_r s)) a (pending (Scanner_r s')).
Proof.
  induction fuel as [| fuel IH]; intros buf [[l lr]] Hf; [inversion Hf |].
  destruct l as [| c l]; cbn [scanIdent_loop].
  - rewrite read_nil. exists [], (mkScanner (mkReader [] None)).
    rewrite app_nil_r. repeat split; simpl; auto.
  - rewrite read_cons. destruct (c =? eof) eqn:Ec.
    + apply Z.eqb_eq in Ec. subst c.
      exists [], (mkScanner (mkReader l (Some eof))).
      rewrite app_nil_r. repeat split; simpl; auto.
    + apply Z.eqb_neq in Ec.
      destruct (isLineBreak c);
        [| destruct (c =? chr ":")];
        try (rewrite unread_read;
             exists [], (mkScanner (mkReader (c :: l) None));
             rewrite app_nil_r; repeat split; simpl; now auto).
      destruct (IH (WriteRune buf c) (mkScanner (mkReader l (Some c))))
        as (a & s' & Hl & Hc).
      { unfold remaining in *. simpl in *. lia. }
      exists (c :: a), s'. split.
      * rewrite Hl. unfold WriteRune. now rewrite <- app_assoc.
      * apply consumed_cons; assumption.
Qed.

Lemma keyword_of_not_EOF (k : gostring) : keyword_of k <> EOF.
Proof.
  unfold keyword_of.
  repeat match goal with
         | |- context [if ?b then _ else _] => destruct b
         end; discriminate.
Qed.

(** [Scan] always returns; its literal is a prefix of the pending input, it
    is empty exactly for the end-of-input token, and that token is returned
    at the end of the input or on a NUL. *)
Lemma Scan_spec (s : Scanner) :
  exists tok lit s',
    Scan s = Some (tok, lit, s') /\
    consumed (pending (Scanner_r s)) lit (pending (Scanner_r s')) /\
    (tok = EOF <-> lit = []) /\
    (tok = EOF ->
     pending (Scanner_r s) = [] \/
     pending (Scanner_r s) = eof :: pending (Scanner_r s')).
Proof.
  destruct s as [[l lr]]. destruct l as [| c l]; unfold Scan.
  - rewrite read_nil. rewrite isWhitespace_eof. cbn.
    exists EOF, [], (mkScanner (mkReader [] None)).
    repeat split; simpl; auto.
  - rewrite read_cons. destruct (isWhitespace c) eqn:Ew.
    + assert (Hc : c <> eof) by (intros ->; discriminate).
      rewrite unread_read. unfold scanWhitespace. rewrite read_cons.
      destruct (scanWhitespace_loop_spec
                  (S (remaining (mkScanner (mkReader l (Some c)))))
                  (WriteRune [] c) (mkScanner (mkReader l (Some c))))
        as (a & s' & Hl & Hcons); [lia |].
      rewrite Hl. cbn [bind]. exists WS, (c :: a), s'.
      repeat split; try discriminate.
      * destruct Hcons as [[H | H] _]; simpl in *; subst l; auto.
      * intros [E | E]; [congruence | now destruct Hcons].
    + destruct (c =? eof) eqn:Ec.
      * apply Z.eqb_eq in Ec. subst c.
        exists EOF, [], (mkScanner (mkReader l (Some eof))).
        repeat split; simpl; auto.
      * apply Z.eqb_neq in Ec. destruct (c =? chr ":") eqn:Ecol.
        -- exists COLON, [c], (mkScanner (mkReader l (Some c))).
           repeat split; simpl; auto; try discriminate.
           intros [E | []]; congruence.
        -- rewrite unread_read. unfold scanIdent. rewrite read_cons.
           destruct (scanIdent_loop_spec
                       (S (remaining (mkScanner (mkReader l (Some c)))))
                       (WriteRune [] c) (mkScanner (mkReader l (Some c))))
             as (a & s' & Hl & Hcons); [lia |].
           rewrite Hl. cbn [bind].
           eexists _, (c :: a), s'. split; [reflexivity |].
           pose proof keyword_of_not_EOF as Hk.
           repeat split; try discriminate.
           ++ destruct Hcons as [[H | H] _]; simpl in *; subst l; auto.
           ++ intros [E | E]; [congruence | now destruct Hcons].
           ++ intros E. now apply Hk in E.
           ++ intros E. now apply Hk in E.
Qed.

Lemma Scan_progress (s : Scanner) :
  exists tok lit s',
    Scan s = Some (tok, lit, s') /\
    (remaining s' <= remaining s)%nat /\
    (tok = EOF \/ (remaining s' < remaining s)%nat).
Proof.
  destruct (Scan_spec s) as (tok & lit & s' & HS & Hc & He & _).
  exists tok, lit, s'. apply consumed_length in Hc. unfold remaining.
  split; [assumption |]. split; [lia |].
  destruct lit as [| c lit]; [left; now apply He | right; simpl in Hc; lia].
Qed.

Lemma Scan_pending (s1 s2 : Scanner) :
  pending (Scanner_r s1) = pending (Scanner_r s2) -> Scan s1 = Scan s2.
Proof.
  destruct s1 as [[l1 r1]], s2 as [[l2 r2]]. simpl. intros ->.
  unfold Scan. destruct l2; [now rewrite !read_nil | now rewrite !read_cons].
Qed.

Lemma literals_cons (tok : Token) (lit : gostring) toks :
  literals ((tok, lit) :: toks) = lit ++ literals toks.
Proof. reflexivity. Qed.

(** Enough fuel: the token stream exists, holds no NUL, and spells the input
    when the input holds none. *)
Lemma tokens_from_spec (fuel : nat) :
  forall s : Scanner,
    (remaining s < fuel)%nat ->
    exists toks,
      tokens_from fuel s = Some toks /\
      ~ In eof (literals toks) /\
      (~ In eof (pending (Scanner_r s)) ->
       literals toks = pending (Scanner_r s)).
Proof.
  induction fuel as [| fuel IH]; intros s Hf; [inversion Hf |].
  destruct (Scan_spec s) as (tok & lit & s' & HS & Hc & He & Hend).
  cbn [tokens_from]. rewrite HS. cbn [bind].
  destruct (Token_eqb tok EOF) eqn:Et.
  - apply Token_eqb_eq in Et. exists []. repeat split; auto.
    intros Hn. destruct (Hend Et) as [E | E]; rewrite E in *; auto.
    exfalso. apply Hn. now left.
  - apply Token_eqb_neq in Et.
    assert (Hlit : lit <> []) by (intros E; now apply Et, He).
    pose proof (consumed_length _ _ _ Hc) as Hlen.
    destruct (IH s') as (toks & Ht & Hno & Hrt).
    { unfold remaining in *. destruct lit; [congruence | simpl in Hlen; lia]. }
    rewrite Ht. cbn [bind]. exists ((tok, lit) :: toks).
    rewrite literals_cons. repeat split.
    + rewrite in_app_iff. intros [H | H]; [now destruct Hc | auto].
    + intros Hn. destruct Hc as [[E | E] _]; rewrite E in *.
      * f_equal. apply Hrt. intros H. apply Hn, in_or_app. now right.
      * exfalso. apply Hn, in_or_app. right. now left.
Qed.

(** ** Token streams *)

Lemma tokens_from_stream (fuel : nat) :
  forall s toks, tokens_from fuel s = Some toks -> stream s toks.
Proof.
  induction fuel as [| fuel IH]; intros s toks H; [discriminate |].
  cbn [tokens_from] in H.
  destruct (Scan s) as [[[tok lit] s'] |] eqn:HS; [| discriminate].
  cbn [bind] in H. destruct (Token_eqb tok EOF) eqn:Et.
  - apply Token_eqb_eq in Et. subst tok. injection H as <-.
    eapply stream_end; eassumption.
  - apply Token_eqb_neq in Et.
    destruct (tokens_from fuel s') as [toks' |] eqn:Ht; [| discriminate].
    cbn [bind] in H. injection H as <-.
    eapply stream_tok; eauto.
Qed.

Lemma stream_total (s : Scanner) : exists toks, stream s toks.
Proof.
  destruct (tokens_from_spec (S (remaining s)) s) as (toks & H & _); [lia |].
  exists toks. eapply tokens_from_stream; eassumption.
Qed.

Lemma stream_det (s : Scanner) toks1 :
  stream s toks1 -> forall toks2, stream s toks2 -> toks1 = toks2.
Proof.
  induction 1 as [s s' lit HS | s s' tok lit toks HS Hne Hst IH];
    intros toks2 H2; inversion H2; subst; try congruence.
  match goal with
  | H : Scan s = Some (?t, ?l, ?x) |- _ =>
      rewrite HS in H; injection H as <- <- <-
  end.
  f_equal. now apply IH.
Qed.

Lemma stream_tokens_from (s : Scanner) toks (fuel : nat) :
  stream s toks -> (remaining s < fuel)%nat -> tokens_from fuel s = Some toks.
Proof.
  intros Hst Hf.
  destruct (tokens_from_spec fuel s Hf) as (toks' & H & _).
  rewrite H. f_equal. eapply stream_det; [| eassumption].
  eapply tokens_from_stream; eassumption.
Qed.

Lemma tokens_stream (input : gostring) toks :
  tokens input = Some toks <-> stream (NewScanner input) toks.
Proof.
  unfold tokens. split.
  - apply tokens_from_stream.
  - intros H. apply stream_tokens_from; [assumption |].
    unfold remaining. simpl. lia.
Qed.

Lemma stream_length (s : Scanner) toks :
  stream s toks -> (length toks <= remaining s)%nat.
Proof.
  induction 1 as [s s' lit HS | s s' tok lit toks HS Hne Hst IH];
    [simpl; lia |].
  destruct (Scan_progress s) as (tok' & lit' & s'' & HS' & _ & Hp).
  rewrite HS in HS'. injection HS' as <- <- <-.
  destruct Hp as [E | Hp]; [contradiction | simpl; lia].
Qed.

Lemma stream_no_EOF (s : Scanner) toks :
  stream s toks -> ~ In EOF (map fst toks).
Proof.
  induction 1; simpl; [tauto |]. intros [E | E]; auto.
Qed.

(** ** The parser reads the tokens ahead *)

Lemma ahead_total (p : Parser) : exists toks, ahead p toks.
Proof.
  destruct (stream_total (Parser_s p)) as (toks & Hst).
  destruct (Z.eq_dec (buf_n (Parser_buf p)) 0) as [E | E].
  - exists toks. now apply ahead_scan.
  - destruct (Token_eqb (buf_tok (Parser_buf p)) EOF) eqn:Et.
    + exists []. apply ahead_end; [assumption | now apply Token_eqb_eq].
    + eexists. apply ahead_buf; eauto. now apply Token_eqb_neq.
Qed.

Lemma ahead_det (p : Parser) toks1 toks2 :
  ahead p toks1 -> ahead p toks2 -> toks1 = toks2.
Proof.
  intros H1 H2. inversion H1; inversion H2; subst; try congruence.
  - f_equal. eapply stream_det; eassumption.
  - eapply stream_det; eassumption.
Qed.

Lemma ahead_length (p : Parser) toks :
  ahead p toks -> (length toks <= S (remaining (Parser_s p)))%nat.
Proof.
  intros H. inversion H as [| toks' ? ? Hst | toks' ? Hst]; subst;
    try apply stream_length in Hst; cbn [length]; lia.
Qed.


Lemma ahead_New (input : gostring) toks :
  ahead (New input) toks <-> tokens input = Some toks.
Proof.
  rewrite tokens_stream. split.
  - intros H. inversion H; subst; simpl in *; congruence.
  - intros H. now apply ahead_scan.
Qed.

Lemma ahead_unscan_end (p : Parser) :
  buf_tok (Parser_buf p) = EOF -> ahead (unscan p) [].
Proof. intros H. apply ahead_end; simpl; [lia | assumption]. Qed.

Lemma ahead_unscan_buf (p : Parser) toks :
  buf_tok (Parser_buf p) <> EOF -> stream (Parser_s p) toks ->
  ahead (unscan p) ((buf_tok (Parser_buf p), buf_lit (Parser_buf p)) :: toks).
Proof.
  intros Ht Hst. apply (ahead_buf (unscan p)); simpl; [lia | assumption ..].
Qed.

Lemma scan_ahead (p : Parser) toks :
  ahead p toks ->
  exists tok lit p',
    scan p = Some (tok, lit, p') /\
    match toks with
    | [] => tok = EOF /\ ahead (unscan p') []
    | (t, l) :: r =>
        tok = t /\ lit = l /\ ahead p' r /\ ahead (unscan p') toks
    end.
Proof.
  intros H. unfold scan.
  inversion H as [Hn Ht | toks' Hn Ht Hst | toks' Hn Hst]; subst.
  - apply Z.eqb_neq in Hn. rewrite Hn. cbn [negb].
    do 3 eexists. split; [reflexivity |]. split; [assumption |].
    now apply ahead_unscan_end.
  - apply Z.eqb_neq in Hn. rewrite Hn. cbn [negb].
    do 3 eexists. split; [reflexivity |]. repeat split.
    + now apply ahead_scan.
    + match goal with
      | |- ahead (unscan ?q) _ => apply (ahead_unscan_buf q); assumption
      end.
  - rewrite Hn. cbn [Z.eqb negb].
    inversion Hst as [s s' lit HS | s s' tok lit toks'' HS Hne Hst']; subst;
      rewrite HS; cbn [bind]; do 3 eexists; (split; [reflexivity |]).
    + split; [reflexivity |]. now apply ahead_unscan_end.
    + repeat split.
      * now apply ahead_scan.
      * match goal with
        | |- ahead (unscan ?q) _ => apply (ahead_unscan_buf q); assumption
        end.
Qed.

Lemma scanIgnoreWhitespace_ahead (p : Parser) toks :
  ahead p toks ->
  exists tok lit ws p',
    scanIgnoreWhitespace p = Some (tok, lit, ws, p') /\
    let '(t, l, w, after, back) := next_token toks in
    tok = t /\ ws = w /\ (tok <> EOF -> lit = l /\ ahead p' after) /\
    ahead (unscan p') back.
Proof.
  intros H. unfold scanIgnoreWhitespace.
  destruct (scan_ahead p toks H) as (tok & lit & p1 & Hs & Hm).
  rewrite Hs. cbn [bind]. destruct toks as [| [t l] r].
  - destruct Hm as [-> Hb]. cbn.
    do 4 eexists. split; [reflexivity |]. repeat split; tauto.
  - destruct Hm as (-> & -> & Ha & Hb). cbn [next_token].
    destruct (Token_eqb t WS) eqn:Ew.
    + destruct (scan_ahead p1 r Ha) as (tok' & lit' & p2 & Hs' & Hm').
      rewrite Hs'. cbn [bind]. do 4 eexists. split; [reflexivity |].
      destruct r as [| [t' l'] r'].
      * destruct Hm' as [-> Hb']. repeat split; tauto.
      * destruct Hm' as (-> & -> & Ha' & Hb'). repeat split; tauto.
    + do 4 eexists. split; [reflexivity |]. repeat split; tauto.
Qed.

Lemma not_stop_not_EOF (t : Token) :
  isKeyword t || Token_eqb t EOF = false -> t <> EOF.
Proof. intros H ->. discriminate. Qed.

Lemma Parse_values_ahead (fuel : nat) :
  forall (values : list gostring) (p : Parser) toks,
    ahead p toks -> (length toks < fuel)%nat ->
    exists p',
      Parse_values fuel values p = Some (fst (values_ahead values toks), p') /\
      ahead p' (snd (values_ahead values toks)).
Proof.
  induction fuel as [| fuel IH]; intros values p toks Ha Hf; [inversion Hf |].
  cbn [Parse_values].
  destruct (scanIgnoreWhitespace_ahead p toks Ha)
    as (tok & lit & ws & p1 & Hs & Hm).
  rewrite Hs. cbn [bind]. destruct toks as [| [t l] r].
  - destruct Hm as (-> & -> & _ & Hb). cbn. eauto.
  - cbn [next_token] in Hm. cbn [values_ahead].
    destruct (Token_eqb t WS) eqn:Ew.
    + destruct r as [| [t' l'] r'].
      * destruct Hm as (-> & -> & _ & Hb). cbn. eauto.
      * destruct Hm as (-> & -> & Ha' & Hb).
        destruct (isKeyword t' || Token_eqb t' EOF) eqn:Ek; [cbn; eauto |].
        destruct (Ha' (not_stop_not_EOF _ Ek)) as [-> Ha1].
        destruct (Token_eqb t' IDENT || Token_eqb t' COLON);
          apply IH; try assumption; simpl in Hf; lia.
    + destruct Hm as (-> & -> & Ha' & Hb).
      destruct (isKeyword t || Token_eqb t EOF) eqn:Ek; [cbn; eauto |].
      destruct (Ha' (not_stop_not_EOF _ Ek)) as [-> Ha1].
      destruct (Token_eqb t IDENT || Token_eqb t COLON);
        apply IH; try assumption; simpl in Hf; lia.
Qed.

Lemma values_ahead_length toks :
  forall values,
    (length (snd (values_ahead values toks)) <= length toks)%nat.
Proof.
  induction toks as [toks IH] using (well_founded_induction
    (Wf_nat.well_founded_ltof _ (@length (Token * gostring)))).
  unfold Wf_nat.ltof in IH. intros values.
  destruct toks as [| [t l] r]; [simpl; lia |]. cbn [values_ahead].
  destruct (Token_eqb t WS).
  - destruct r as [| [t' l'] r']; [simpl; lia |].
    destruct (isKeyword t' || Token_eqb t' EOF); [simpl; lia |].
    destruct (Token_eqb t' IDENT || Token_eqb t' COLON);
      (etransitivity; [apply IH |]); simpl; lia.
  - destruct (isKeyword t || Token_eqb t EOF); [simpl; lia |].
    destruct (Token_eqb t IDENT || Token_eqb t COLON);
      (etransitivity; [apply IH |]); simpl; lia.
Qed.

Lemma values_ahead_at_keyword toks :
  forall values, at_keyword (snd (values_ahead values toks)).
Proof.
  induction toks as [toks IH] using (well_founded_induction
    (Wf_nat.well_founded_ltof _ (@length (Token * gostring)))).
  unfold Wf_nat.ltof in IH. intros values.
  destruct toks as [| [t l] r]; [exact I |]. cbn [values_ahead].
  destruct (Token_eqb t WS).
  - destruct r as [| [t' l'] r']; [exact I |].
    destruct (isKeyword t' || Token_eqb t' EOF) eqn:Ek.
    + simpl. apply orb_true_iff in Ek. rewrite Token_eqb_eq in Ek. exact Ek.
    + destruct (Token_eqb t' IDENT || Token_eqb t' COLON);
        apply IH; simpl; lia.
  - destruct (isKeyword t || Token_eqb t EOF) eqn:Ek.
    + simpl. apply orb_true_iff in Ek. rewrite Token_eqb_eq in Ek. exact Ek.
    + destruct (Token_eqb t IDENT || Token_eqb t COLON);
        apply IH; simpl; lia.
Qed.

Lemma Parse_group_ahead (p : Parser) toks :
  ahead p toks ->
  exists p',
    Parse_group p = Some (fst (group_ahead toks), p') /\
    (fst (group_ahead toks) <> None -> ahead p' (snd (group_ahead toks))).
Proof.
  intros Ha. unfold Parse_group, group_ahead.
  destruct (scanIgnoreWhitespace_ahead p toks Ha)
    as (tok & lit & ws & p1 & Hs & Hm).
  rewrite Hs. cbn [bind].
  destruct (next_token toks) as [[[[t l] w] after] back].
  destruct Hm as (-> & -> & Hne & Hb).
  destruct (Token_eqb t EOF) eqn:Et; [cbn; eexists; split; [reflexivity | tauto] |].
  apply Token_eqb_neq in Et. destruct (Hne Et) as [-> Ha1].
  assert (Hcont : exists p2 toks2,
             ahead p2 toks2 /\
             (if negb (isKeyword t) then (TODAY, @nil rune, unscan p1)
              else (t, l, p1)) =
             (fst (fst (if negb (isKeyword t) then (TODAY, @nil rune, back)
                        else (t, l, after))),
              snd (fst (if negb (isKeyword t) then (TODAY, @nil rune, back)
                        else (t, l, after))), p2) /\
             snd (if negb (isKeyword t) then (TODAY, @nil rune, back)
                  else (t, l, after)) = toks2).
  { destruct (isKeyword t); cbn [negb fst snd]; eauto. }
  destruct Hcont as (p2 & toks2 & Ha2 & -> & E2).
  destruct (if negb (isKeyword t) then (TODAY, @nil rune, back)
            else (t, l, after)) as [[key keyLit] toks2'].
  cbn [fst snd] in *. subst toks2'.
  destruct (scanIgnoreWhitespace_ahead p2 toks2 Ha2)
    as (col & lit3 & ws3 & p3 & Hs3 & Hm3).
  rewrite Hs3. cbn [bind].
  destruct (next_token toks2) as [[[[t3 l3] w3] after3] back3].
  destruct Hm3 as (-> & -> & Hne3 & Hb3).
  assert (Ha4 : ahead (if negb (Token_eqb t3 COLON) then unscan p3 else p3)
                      (if negb (Token_eqb t3 COLON) then back3 else after3)).
  { destruct (Token_eqb t3 COLON) eqn:Ec; cbn [negb]; [| assumption].
    apply Token_eqb_eq in Ec. apply Hne3. now rewrite Ec. }
  set (p4 := if negb (Token_eqb t3 COLON) then unscan p3 else p3) in *.
  set (toks4 := if negb (Token_eqb t3 COLON) then back3 else after3) in *.
  destruct (Parse_values_ahead (S (S (remaining (Parser_s p4)))) [] p4 toks4 Ha4)
    as (p5 & Hv & Ha5).
  { apply ahead_length in Ha4. lia. }
  rewrite Hv. cbn [bind].
  destruct (values_ahead [] toks4) as [values toks5]. cbn [fst snd] in *.
  eexists. split; [reflexivity | intros _; assumption].
Qed.

(** ** Lists of tokens ahead *)

Lemma values_ahead_incl toks :
  forall values, incl (snd (values_ahead values toks)) toks.
Proof.
  induction toks as [toks IH] using (well_founded_induction
    (Wf_nat.well_founded_ltof _ (@length (Token * gostring)))).
  unfold Wf_nat.ltof in IH. intros values.
  destruct toks as [| [t l] r]; [apply incl_refl |]. cbn [values_ahead].
  destruct (Token_eqb t WS).
  - destruct r as [| [t' l'] r']; [apply incl_nil_l |].
    destruct (isKeyword t' || Token_eqb t' EOF);
      [apply incl_tl, incl_refl |].
    destruct (Token_eqb t' IDENT || Token_eqb t' COLON);
      do 2 apply incl_tl; apply IH; simpl; lia.
  - destruct (isKeyword t || Token_eqb t EOF); [apply incl_refl |].
    destruct (Token_eqb t IDENT || Token_eqb t COLON);
      apply incl_tl; apply IH; simpl; lia.
Qed.

Lemma next_token_spec toks :
  let '(t, l, w, after, back) := next_token toks in
  (length back <= length toks)%nat /\ incl back toks /\
  (t <> EOF -> back = (t, l) :: after).
Proof.
  destruct toks as [| [t l] r]; cbn [next_token].
  - split; [lia |]. split; [apply incl_refl | congruence].
  - destruct (Token_eqb t WS).
    + destruct r as [| [t' l'] r'].
      * split; [simpl; lia |]. split; [apply incl_nil_l | congruence].
      * split; [simpl; lia |]. split; [apply incl_tl, incl_refl | reflexivity].
    + split; [lia |]. split; [apply incl_refl | reflexivity].
Qed.

(** After the keyword of a group: the optional colon. *)
Lemma skip_colon_spec toks :
  let '(col, _, _, after, back) := next_token toks in
  let toks' := if negb (Token_eqb col COLON) then back else after in
  (length toks' <= length toks)%nat /\ incl toks' toks.
Proof.
  pose proof (next_token_spec toks) as H.
  destruct (next_token toks) as [[[[col l] w] after] back].
  destruct H as (Hl & Hi & Hb). cbn zeta.
  destruct (Token_eqb col COLON) eqn:Ec; cbn [negb]; [| now split].
  apply Token_eqb_eq in Ec. subst col.
  rewrite Hb in * by discriminate. split; [simpl in Hl; lia |].
  eapply incl_tran; [apply incl_tl, incl_refl | exact Hi].
Qed.

Lemma at_keyword_no_default toks :
  at_keyword toks -> default_group toks = false.
Proof.
  unfold default_group, candidate. destruct toks as [| [t l] r]; cbn.
  - reflexivity.
  - intros [H | ->]; [| reflexivity].
    destruct t; try discriminate; reflexivity.
Qed.

Lemma group_ahead_spec toks key keyLit values toks' :
  group_ahead toks = (Some (key, keyLit, values), toks') ->
  (length toks' < length toks)%nat /\ incl toks' toks /\ at_keyword toks' /\
  isKeyword key = true /\
  ((default_group toks = false /\ In (key, keyLit) toks) \/
   (default_group toks = true /\ key = TODAY /\ keyLit = [])).
Proof.
  unfold group_ahead, default_group, candidate.
  pose proof (next_token_spec toks) as H.
  destruct (next_token toks) as [[[[t l] w] after] back].
  destruct H as (Hl & Hi & Hb).
  destruct (Token_eqb t EOF) eqn:Et; [discriminate |].
  apply Token_eqb_neq in Et. specialize (Hb Et). subst back.
  destruct (isKeyword t) eqn:Ek; cbn [negb andb].
  - pose proof (skip_colon_spec after) as H4.
    destruct (next_token after) as [[[[col l3] w3] after3] back3].
    cbn zeta in H4. destruct H4 as (Hl4 & Hi4).
    set (toks4 := if negb (Token_eqb col COLON) then back3 else after3) in *.
    pose proof (values_ahead_length toks4 []) as Hl5.
    pose proof (values_ahead_incl toks4 []) as Hi5.
    pose proof (values_ahead_at_keyword toks4 []) as Hk5.
    destruct (values_ahead [] toks4) as [vs toks5]. cbn [fst snd] in *.
    intros E. injection E as <- <- <- <-.
    repeat split; try assumption.
    + simpl in Hl. lia.
    + eapply incl_tran; [exact Hi5 |]. eapply incl_tran; [exact Hi4 |].
      eapply incl_tran; [apply incl_tl, incl_refl | exact Hi].
    + left. split; [reflexivity |]. apply Hi. now left.
  - assert (Hgoal : forall vs toks5,
      (let '(col, _, _, after3, back3) := next_token ((t, l) :: after) in
       let toks4 := if negb (Token_eqb col COLON) then back3 else after3 in
       values_ahead [] toks4) = (vs, toks5) ->
      (length toks5 <= length after)%nat /\ incl toks5 ((t, l) :: after) /\
      at_keyword toks5).
    { intros vs toks5.
      destruct t; try discriminate; try congruence; cbn.
      - (* a second whitespace token *)
        destruct after as [| [t' l'] r']; cbn.
        + intros E. injection E as <- <-. repeat split; simpl; auto.
          apply incl_nil_l.
        + set (toks4 := if negb (Token_eqb t' COLON)
                        then (t', l') :: r' else r').
          assert (H4 : (length toks4 <= S (length r'))%nat /\
                       incl toks4 ((t', l') :: r')).
          { subst toks4. destruct (Token_eqb t' COLON); cbn [negb];
              split; simpl; try lia;
              [apply incl_tl, incl_refl | apply incl_refl]. }
          pose proof (values_ahead_length toks4 []) as Hl5.
          pose proof (values_ahead_incl toks4 []) as Hi5.
          pose proof (values_ahead_at_keyword toks4 []) as Hk5.
          intros E. rewrite E in *. cbn [snd] in *. repeat split; auto.
          * simpl. lia.
          * eapply incl_tran; [exact Hi5 |].
            eapply incl_tran; [apply H4 | apply incl_tl, incl_refl].
      - (* a colon *)
        pose proof (values_ahead_length after []) as Hl5.
        pose proof (values_ahead_incl after []) as Hi5.
        pose proof (values_ahead_at_keyword after []) as Hk5.
        intros E. rewrite E in *. cbn [snd] in *. repeat split; auto.
        eapply incl_tran; [exact Hi5 | apply incl_tl, incl_refl].
      - (* a word *)
        pose proof (values_ahead_length after [[]; l]) as Hl5.
        pose proof (values_ahead_incl after [[]; l]) as Hi5.
        pose proof (values_ahead_at_keyword after [[]; l]) as Hk5.
        intros E. cbn in E. rewrite E in *. cbn [snd] in *.
        repeat split; auto.
        eapply incl_tran; [exact Hi5 | apply incl_tl, incl_refl]. }
    destruct (next_token ((t, l) :: after)) as [[[[col l3] w3] after3] back3].
    cbn zeta in Hgoal.
    destruct (values_ahead [] (if negb (Token_eqb col COLON)
                               then back3 else after3)) as [vs toks5].
    intros E. injection E as <- <- <- <-.
    destruct (Hgoal _ _ eq_refl) as (H1 & H2 & H3).
    repeat split; try assumption.
    + simpl in Hl. lia.
    + eapply incl_tran; [exact H2 | exact Hi].
    + right. destruct (Token_eqb t EOF) eqn:E'; [| auto].
      apply Token_eqb_eq in E'. contradiction.
Qed.

(** ** The outer loop *)

Lemma Parse_groups_ahead (fuel : nat) :
  forall (p : Parser) toks,
    ahead p toks -> (length toks < fuel)%nat ->
    Parse_groups fuel p = Some (groups_ahead fuel toks).
Proof.
  induction fuel as [| fuel IH]; intros p toks Ha Hf; [inversion Hf |].
  cbn [Parse_groups groups_ahead].
  destruct (Parse_group_ahead p toks Ha) as (p1 & Hg & Ha1).
  rewrite Hg. cbn [bind].
  destruct (group_ahead toks) as [[[[key keyLit] values] |] toks'] eqn:Eg;
    cbn [fst snd] in *; [| reflexivity].
  apply group_ahead_spec in Eg. destruct Eg as (Hl & _).
  rewrite (IH p1 toks'); [reflexivity | | lia].
  apply Ha1. discriminate.
Qed.

Lemma Parse_loop_groups (fuel : nat) :
  forall (p : Parser) (stmt : Statement.t) gs,
    Parse_groups fuel p = Some gs ->
    exists p', Parse_loop fuel p stmt = Some (fold_left assign_group gs stmt, p').
Proof.
  induction fuel as [| fuel IH]; intros p stmt gs H; [discriminate |].
  cbn [Parse_groups Parse_loop] in *.
  destruct (Parse_group p) as [[g p1] |]; [| discriminate].
  cbn [bind] in *. destruct g as [[[key keyLit] values] |].
  - destruct (Parse_groups fuel p1) as [gs' |] eqn:Eg; [| discriminate].
    cbn [bind] in H. injection H as <-.
    destruct (IH p1 (Parse_assign key keyLit values stmt) gs' Eg) as (p' & Hp).
    exists p'. rewrite Hp. reflexivity.
  - injection H as <-. exists p1. reflexivity.
Qed.

(** The statement that [Parse] returns: the groups of the input, stored one
    after the other into the empty statement. *)
Lemma Parse_spec (input : gostring) :
  exists toks gs,
    tokens input = Some toks /\
    Parse_groups (S (S (length input))) (New input) = Some gs /\
    gs = groups_ahead (S (S (length input))) toks /\
    Parse (New input) =
      Some (Some (fold_left assign_group gs Statement.zero), None).
Proof.
  destruct (ahead_total (New input)) as (toks & Ha).
  pose proof (ahead_length _ _ Ha) as Hl.
  change (remaining (Parser_s (New input))) with (length input) in Hl.
  pose proof (Parse_groups_ahead (S (S (length input))) _ _ Ha) as Hg.
  exists toks, (groups_ahead (S (S (length input))) toks).
  split; [now apply ahead_New |]. split; [apply Hg; lia |].
  split; [reflexivity |]. unfold Parse.
  change (remaining (Parser_s (New input))) with (length input).
  destruct (Parse_loop_groups _ _ Statement.zero _ (Hg ltac:(lia)))
    as (p' & Hp).
  rewrite Hp. reflexivity.
Qed.

Lemma slot_Parse_assign_other (K key : Token) keyLit values stmt :
  K <> key ->
  slot K (Parse_assign key keyLit values stmt) = slot K stmt.
Proof.
  intros Hne. destruct stmt. unfold Parse_assign.
  destruct key, K; try congruence; reflexivity.
Qed.

Lemma slot_Parse_assign_same (K : Token) keyLit values stmt :
  slot K (Parse_assign K keyLit values stmt) =
  slot K (Parse_assign K keyLit values Statement.zero).
Proof. destruct stmt. unfold Parse_assign. destruct K; reflexivity. Qed.

Lemma slot_fold_other (K : Token) gs :
  forall stmt,
    (forall g, In g gs -> fst (fst g) <> K) ->
    slot K (fold_left assign_group gs stmt) = slot K stmt.
Proof.
  induction gs as [| [[key keyLit] values] gs IH]; intros stmt H;
    [reflexivity |].
  cbn [fold_left assign_group]. rewrite IH.
  - apply slot_Parse_assign_other. intros E.
    apply (H (key, keyLit, values)); [now left | now rewrite E].
  - intros g Hg. apply H. now right.
Qed.

Lemma groups_ahead_keys (K : Token) (fuel : nat) :
  forall toks,
    ~ In K (map fst toks) ->
    (K = TODAY -> default_group toks = false) ->
    forall g, In g (groups_ahead fuel toks) -> fst (fst g) <> K.
Proof.
  induction fuel as [| fuel IH]; intros toks Hn Hd g Hg; [destruct Hg |].
  cbn [groups_ahead] in Hg.
  destruct (group_ahead toks) as [[[[key keyLit] values] |] toks'] eqn:Eg;
    [| destruct Hg].
  apply group_ahead_spec in Eg.
  destruct Eg as (_ & Hi & Hk & _ & Hkey).
  destruct Hg as [<- | Hg].
  - cbn [fst]. intros ->.
    destruct Hkey as [[_ HIn] | [Hdef [-> _]]].
    + apply Hn. apply (in_map fst) in HIn. exact HIn.
    + rewrite Hd in Hdef by reflexivity. discriminate.
  - apply (IH toks'); try assumption.
    + intros HIn. apply Hn. apply in_map_iff in HIn.
      destruct HIn as (x & <- & Hx). apply in_map. now apply Hi.
    + intros _. now apply at_keyword_no_default.
Qed.

Lemma slot_group_field (K : Token) keyLit values :
  isKeyword K = true ->
  slot K (Parse_assign K keyLit values Statement.zero) =
  group_field K keyLit values.
Proof.
  intros HK. unfold Parse_assign, group_field.
  destruct (isPositive (splitAndTrimSpace values)) as [val err].
  destruct K; try discriminate; reflexivity.
Qed.

Lemma slot_fold_last (K : Token) keyLit values post :
  forall pre stmt,
    (forall g, In g post -> fst (fst g) <> K) ->
    slot K (fold_left assign_group (pre ++ (K, keyLit, values) :: post) stmt) =
    slot K (Parse_assign K keyLit values Statement.zero).
Proof.
  intros pre stmt Hpost. rewrite fold_left_app. cbn [fold_left].
  rewrite slot_fold_other by assumption. cbn [assign_group].
  apply slot_Parse_assign_same.
Qed.

(** ** Regular expressions *)

Lemma nullable_lang (r : regex) : nullable r = true <-> lang r [].
Proof.
  induction r as [| | c | | | | a IHa b IHb | a IHa b IHb | a IHa];
    cbn [nullable]; split; intros H; try discriminate;
    try (now inversion H).
  - constructor.
  - apply andb_true_iff in H. destruct H as [Ha Hb].
    change (@nil rune) with (@nil rune ++ []).
    constructor; [now apply IHa | now apply IHb].
  - inversion H as [| | | | | a' b' s t Hs Ht E | | | |]; subst.
    match goal with
    | E : _ ++ _ = [] |- _ => apply app_eq_nil in E; destruct E as [-> ->]
    end.
    apply andb_true_iff. split; [now apply IHa | now apply IHb].
  - apply orb_true_iff in H.
    destruct H as [H | H]; [apply lang_Alt_l, IHa | apply lang_Alt_r, IHb];
      exact H.
  - apply orb_true_iff.
    inversion H; subst; [left; now apply IHa | right; now apply IHb].
  - constructor.
Qed.

Lemma lang_Star_cons (a : regex) (c : rune) (s : gostring) :
  lang (Star a) (c :: s) ->
  exists s1 s2, s = s1 ++ s2 /\ lang a (c :: s1) /\ lang (Star a) s2.
Proof.
  intros H. remember (Star a) as r eqn:Er. remember (c :: s) as w eqn:Ew.
  revert s Ew.
  induction H as [| | | | | | | | a' | a' s1 t H1 _ H2 IH2]; intros s0 Ew;
    try discriminate.
  injection Er as ->. destruct s1 as [| x s1].
  - apply IH2; [reflexivity | exact Ew].
  - injection Ew as -> <-. exists s1, t. now repeat split.
Qed.

Lemma deriv_lang (r : regex) :
  forall (c : rune) (s : gostring), lang (deriv c r) s <-> lang r (c :: s).
Proof.
  induction r as [| | d | | | | a IHa b IHb | a IHa b IHb | a IHa];
    intros c s; cbn [deriv].
  - split; intros H; inversion H.
  - split; intros H; inversion H.
  - destruct (c =? d) eqn:E.
    + apply Z.eqb_eq in E. subst d. split; intros H; inversion H; constructor.
    + apply Z.eqb_neq in E. split; intros H; inversion H; congruence.
  - destruct (c =? 10) eqn:E.
    + apply Z.eqb_eq in E. split; intros H; inversion H; congruence.
    + apply Z.eqb_neq in E. split; intros H; inversion H; now constructor.
  - destruct (perl_space c) eqn:E.
    + split; intros H; inversion H; now constructor.
    + split; intros H; inversion H; congruence.
  - split; intros H; inversion H; constructor.
  - assert (Hl : lang (Cat (deriv c a) b) s -> lang (Cat a b) (c :: s)).
    { intros H. inversion H as [| | | | | a' b' s1 s2 H1 H2 | | | |]; subst.
      change (c :: s1 ++ s2) with ((c :: s1) ++ s2).
      constructor; [now apply IHa | assumption]. }
    assert (Hr : lang (Cat a b) (c :: s) ->
                 lang (Cat (deriv c a) b) s \/
                 (lang a [] /\ lang (deriv c b) s)).
    { intros H. inversion H as [| | | | | a' b' s1 s2 H1 H2 E | | | |]; subst.
      destruct s1 as [| x s1].
      - right. split; [assumption |]. apply IHb. simpl in *. now subst.
      - left.
        match goal with
        | E : (_ :: _) ++ _ = _ :: _ |- _ => injection E as -> <-
        end.
        constructor; [now apply IHa | assumption]. }
    destruct (nullable a) eqn:En.
    + split.
      * intros H. inversion H; subst; [now apply Hl |].
        change (c :: s) with ([] ++ c :: s).
        constructor; [now apply nullable_lang | now apply IHb].
      * intros H. destruct (Hr H) as [H' | [_ H']];
          [now apply lang_Alt_l | now apply lang_Alt_r].
    + split; [exact Hl |].
      intros H. destruct (Hr H) as [H' | [H' _]]; [exact H' |].
      apply nullable_lang in H'. congruence.
  - split; intros H; inversion H; subst;
      try (apply lang_Alt_l; now apply IHa);
      try (apply lang_Alt_r; now apply IHb).
  - split.
    + intros H. inversion H as [| | | | | a' b' s1 s2 H1 H2 | | | |]; subst.
      change (c :: s1 ++ s2) with ((c :: s1) ++ s2).
      constructor; [now apply IHa | assumption].
    + intros H. apply lang_Star_cons in H.
      destruct H as (s1 & s2 & -> & H1 & H2).
      constructor; [now apply IHa | assumption].
Qed.

Lemma matches_lang (s : gostring) :
  forall r : regex, matches r s = true <-> lang r s.
Proof.
  induction s as [| c s IH]; intros r; cbn [matches].
  - apply nullable_lang.
  - rewrite IH. apply deriv_lang.
Qed.

Lemma lang_any (s : gostring) : lang (Star AnyRune) s.
Proof.
  induction s as [| c s IH]; [constructor |].
  change (c :: s) with ([c] ++ s). constructor; [constructor | exact IH].
Qed.

(** [Match] searches: some part of the text matches the expression. *)
Lemma regexp_Match_spec (re : regex) (s : gostring) :
  regexp_Match re s = true <-> exists m, lang re m /\ contains s m.
Proof.
  unfold regexp_Match, contains. rewrite matches_lang. split.
  - intros H. inversion H as [| | | | | a b s1 s2 H1 H2 | | | |]; subst.
    inversion H2 as [| | | | | a' b' m s3 H3 H4 | | | |]; subst.
    exists m. split; [assumption |]. now exists s1, s3.
  - intros (m & Hm & a & b & ->).
    constructor; [apply lang_any |]. constructor; [exact Hm | apply lang_any].
Qed.

Lemma lang_Word (w s : gostring) : lang (Word w) s <-> s = w.
Proof.
  revert s. induction w as [| c w IH]; intros s; cbn [Word]; split; intros H.
  - now inversion H.
  - subst. constructor.
  - inversion H as [| | | | | a b s1 s2 H1 H2 | | | |]; subst.
    inversion H1; subst. apply IH in H2. now subst.
  - subst. change (c :: w) with ([c] ++ w).
    constructor; [constructor | now apply IH].
Qed.

Lemma lang_Alts (l : list regex) (s : gostring) :
  lang (Alts l) s <-> exists r, In r l /\ lang r s.
Proof.
  induction l as [| a l IH]; cbn [Alts].
  - split; [intros H; inversion H | intros (r & [] & _)].
  - destruct l as [| b l].
    + split; [intros H; exists a; split; [now left | exact H] |].
      intros (r & [<- | []] & H). exact H.
    + split.
      * intros H. inversion H; subst.
        -- exists a. split; [now left | assumption].
        -- apply IH in H3. destruct H3 as (r & Hr & Hs).
           exists r. split; [now right | assumption].
      * intros (r & [<- | Hr] & H); [now apply lang_Alt_l |].
        apply lang_Alt_r, IH. now exists r.
Qed.

Lemma lang_Star_Space (s : gostring) :
  lang (Star Space) s <-> forallb perl_space s = true.
Proof.
  split.
  - intros H. remember (Star Space) as r eqn:Er.
    induction H as [| | | | | | | | a | a s1 t H1 _ H2 IH2];
      try discriminate; [reflexivity |].
    injection Er as ->. inversion H1; subst. cbn.
    apply andb_true_iff. split; [assumption | now apply IH2].
  - induction s as [| c s IH]; [constructor |].
    cbn [forallb]. intros H. apply andb_true_iff in H. destruct H as [Hc Hs].
    change (c :: s) with ([c] ++ s).
    constructor; [now constructor | now apply IH].
Qed.

Lemma lang_Plus_Space (s : gostring) :
  lang (Plus Space) s <-> s <> [] /\ forallb perl_space s = true.
Proof.
  unfold Plus. split.
  - intros H. inversion H as [| | | | | a b s1 s2 H1 H2 | | | |]; subst.
    inversion H1; subst. apply lang_Star_Space in H2.
    split; [discriminate |]. cbn. now rewrite H2, andb_true_r.
  - intros [Hne H]. destruct s as [| c s]; [congruence |].
    cbn [forallb] in H. apply andb_true_iff in H. destruct H as [Hc Hs].
    change (c :: s) with ([c] ++ s).
    constructor; [now constructor | now apply lang_Star_Space].
Qed.

Lemma lang_Star_Dot_nil : lang (Star Dot) [].
Proof. constructor. Qed.

Lemma lang_Cat_inv (a b : regex) (s : gostring) :
  lang (Cat a b) s <-> exists s1 s2, s = s1 ++ s2 /\ lang a s1 /\ lang b s2.
Proof.
  split.
  - intros H. inversion H; subst. eauto.
  - intros (s1 & s2 & -> & H1 & H2). now constructor.
Qed.

Lemma lang_Alts_Word (l : list gostring) (s : gostring) :
  lang (Alts (map Word l)) s <-> In s l.
Proof.
  rewrite lang_Alts. split.
  - intros (r & Hr & Hs). apply in_map_iff in Hr.
    destruct Hr as (w & <- & Hw). apply lang_Word in Hs. now subst.
  - intros H. exists (Word s). split; [now apply in_map | now apply lang_Word].
Qed.

(** The negative pattern matches the texts that contain ["no"], ["off"],
    ["updating"] or ["negative"]. *)
Lemma negative_Match_spec (s : gostring) :
  regexp_Match negative s = true <-> negative_table s.
Proof.
  rewrite regexp_Match_spec. unfold negative_table.
  change negative
    with (Cat (Star Dot) (Cat (Alts (map Word negative_words)) (Star Dot))).
  split.
  - intros (m & Hm & a & b & ->).
    apply lang_Cat_inv in Hm. destruct Hm as (d1 & m2 & -> & _ & H2).
    apply lang_Cat_inv in H2. destruct H2 as (w & d2 & -> & Hw & _).
    apply lang_Alts_Word in Hw. exists w. split; [exact Hw |].
    exists (a ++ d1), (d2 ++ b). now rewrite <- !app_assoc.
  - intros (w & Hw & Hc). exists w. split; [| exact Hc].
    apply lang_Cat_inv. exists [], w. split; [reflexivity |].
    split; [constructor |].
    apply lang_Cat_inv. exists w, []. split; [now rewrite app_nil_r |].
    split; [now apply lang_Alts_Word | constructor].
Qed.

(** The positive pattern matches the texts that contain one of its words,
    or ["up"], ["to"], ["date"] separated by whitespace. *)
Lemma positive_Match_spec (s : gostring) :
  regexp_Match positive s = true <-> positive_table s.
Proof.
  rewrite regexp_Match_spec. unfold positive_table.
  set (utd := Cat (Word (str "up"))
                (Cat (Plus Space)
                   (Cat (Word (str "to"))
                      (Cat (Plus Space) (Word (str "date")))))).
  assert (Hutd : forall m, lang utd m <-> up_to_date m).
  { intros m. unfold utd, up_to_date. split.
    - intros H.
      apply lang_Cat_inv in H. destruct H as (u & r1 & -> & Hu & H).
      apply lang_Cat_inv in H. destruct H as (sp1 & r2 & -> & H1 & H).
      apply lang_Cat_inv in H. destruct H as (t & r3 & -> & Ht & H).
      apply lang_Cat_inv in H. destruct H as (sp2 & d & -> & H2 & Hd).
      apply lang_Word in Hu, Ht, Hd. subst u t d.
      apply lang_Plus_Space in H1, H2.
      exists sp1, sp2. tauto.
    - intros (sp1 & sp2 & -> & Hn1 & Hs1 & Hn2 & Hs2).
      apply lang_Cat_inv. do 2 eexists. split; [reflexivity |].
      split; [now apply lang_Word |].
      apply lang_Cat_inv. do 2 eexists. split; [reflexivity |].
      split; [now apply lang_Plus_Space |].
      apply lang_Cat_inv. do 2 eexists. split; [reflexivity |].
      split; [now apply lang_Word |].
      apply lang_Cat_inv. do 2 eexists. split; [reflexivity |].
      split; [now apply lang_Plus_Space | now apply lang_Word]. }
  assert (Halt : forall m,
             lang (Alts [Word (str "done"); Word (str "yes"); utd;
                         Word (str "ok"); Word (str "1");
                         Word (str "affirmative"); Word (str "current");
                         Word (str "updated")]) m <->
             In m positive_words \/ up_to_date m).
  { intros m. rewrite lang_Alts. unfold positive_words. split.
    - intros (r & Hr & Hm). cbn [In] in Hr.
      destruct Hr as [<- | [<- | [<- | Hr]]];
        [apply lang_Word in Hm; subst m; cbn; tauto ..
        | right; now apply Hutd |].
      repeat (destruct Hr as [<- | Hr];
              [apply lang_Word in Hm; subst m; cbn; tauto |]).
      destruct Hr.
    - intros [Hw | Hu].
      + exists (Word m). split; [| now apply lang_Word].
        cbn [In] in *.
        repeat (destruct Hw as [<- | Hw]; [tauto |]). destruct Hw.
      + exists utd. split; [cbn; tauto | now apply Hutd]. }
  change positive
    with (Cat (Star Dot)
            (Alts [Word (str "done"); Word (str "yes"); utd;
                   Word (str "ok"); Word (str "1");
                   Word (str "affirmative"); Word (str "current");
                   Word (str "updated")])).
  split.
  - intros (m & Hm & a & b & ->).
    apply lang_Cat_inv in Hm. destruct Hm as (d1 & w & -> & _ & Hw).
    apply Halt in Hw. exists w. split; [exact Hw |].
    exists (a ++ d1), b. now rewrite <- !app_assoc.
  - intros (w & Hw & Hc). exists w. split; [| exact Hc].
    apply lang_Cat_inv. exists [], w. split; [reflexivity |].
    split; [constructor | now apply Halt].
Qed.

(** * The claims *)

(** C4: for every input, empty or nonsensical text included, [Parse]
    returns a statement (a non-nil pointer) together with a nil error; there
    is no input on which it returns an error or runs out of its bound. *)
Theorem Parse_never_fails (input : gostring) :
  exists stmt : Statement.t, Parse (New input) = Some (Some stmt, None).
Proof.
  destruct (Parse_spec input) as (toks & gs & _ & _ & _ & H).
  eexists. exact H.
Qed.

(** C5: a field whose keyword kind [K] never occurs in the token stream of
    the input (and, for the today field, when the first pass does not read a
    group without keyword either) is returned in its zero state: empty key,
    empty or false value, empty literal, [Valid = false].  A group whose
    leading keyword is another kind never writes the slot of [K]. *)
Theorem untouched_slot_is_zero (input : gostring) toks (K : Token)
  (stmt : Statement.t) :
  tokens input = Some toks ->
  Parse (New input) = Some (Some stmt, None) ->
  isKeyword K = true ->
  ~ In K (map fst toks) ->
  (K = TODAY -> default_group toks = false) ->
  slot K stmt = slot K Statement.zero /\
  (forall key keyLit values st,
     key <> K -> slot K (Parse_assign key keyLit values st) = slot K st).
Proof.
  intros Ht HP HK Hn Hd. split.
  - destruct (Parse_spec input) as (toks' & gs & Ht' & _ & Egs & HP').
    rewrite Ht in Ht'. injection Ht' as <-.
    rewrite HP in HP'. injection HP' as ->.
    apply slot_fold_other. rewrite Egs. now apply groups_ahead_keys.
  - intros key keyLit values st Hne. apply slot_Parse_assign_other. congruence.
Qed.

Lemma untouched_slot_is_zero_witness :
  tokens (str "yesterday: ibm, slack") =
    Some [(YESTERDAY, str "yesterday"); (COLON, str ":"); (WS, str " ");
          (IDENT, str "ibm, slack")] /\
  slot MEETINGS
    {| Statement.Yesterday :=
         {| StringField.Key := str "yesterday";
            StringField.Val := str "ibm, slack";
            StringField.Valid := true |};
       Statement.Today := StringField.zero;
       Statement.Meetings := StringField.zero;
       Statement.Blockers := StringField.zero;
       Statement.LP := BoolField.zero;
       Statement.Jira := BoolField.zero |} = slot MEETINGS Statement.zero.
Proof.
  split; [vm_compute; reflexivity |].
  apply (untouched_slot_is_zero (str "yesterday: ibm, slack")
           [(YESTERDAY, str "yesterday"); (COLON, str ":"); (WS, str " ");
            (IDENT, str "ibm, slack")] MEETINGS).
  - vm_compute; reflexivity.
  - vm_compute; reflexivity.
  - reflexivity.
  - simpl. intros [E | [E | [E | [E | []]]]]; discriminate.
  - discriminate.
Defined.

(** C8: when groups with the leading keyword [K] occur in the input, the
    slot of [K] in the returned statement holds exactly the key label and
    the value of the last of them; nothing of the earlier ones is kept. *)
Theorem last_group_wins (input : gostring) gs pre post (K : Token)
  (keyLit : gostring) (values : list gostring) (stmt : Statement.t) :
  Parse_groups (S (S (length input))) (New input) = Some gs ->
  gs = pre ++ (K, keyLit, values) :: post ->
  (forall g, In g post -> fst (fst g) <> K) ->
  Parse (New input) = Some (Some stmt, None) ->
  isKeyword K = true /\
  slot K stmt = group_field K keyLit values.
Proof.
  intros Hgs -> Hpost HP.
  destruct (Parse_spec input) as (toks & gs' & Ht & Hgs' & Egs & HP').
  rewrite Hgs in Hgs'. injection Hgs' as <-.
  rewrite HP in HP'. injection HP' as ->.
  assert (HK : isKeyword K = true).
  { clear Hpost HP Hgs.
    assert (Hall : forall fuel toks g,
               In g (groups_ahead fuel toks) -> isKeyword (fst (fst g)) = true).
    { induction fuel as [| fuel IH]; intros toks0 g Hg; [destruct Hg |].
      cbn [groups_ahead] in Hg.
      destruct (group_ahead toks0) as [[[[k kl] vs] |] toks'] eqn:Eg;
        [| destruct Hg].
      apply group_ahead_spec in Eg. destruct Eg as (_ & _ & _ & Hk & _).
      destruct Hg as [<- | Hg]; [exact Hk | eapply IH; eassumption]. }
    apply (Hall (S (S (length input))) toks (K, keyLit, values)).
    rewrite <- Egs. apply in_or_app. right. now left. }
  split; [exact HK |].
  rewrite slot_fold_last by assumption. now apply slot_group_field.
Qed.

Lemma last_group_wins_witness :
  Parse_groups
    (S (S (length (str "today: a" ++ [chr "010"] ++ str "today: b"))))
    (New (str "today: a" ++ [chr "010"] ++ str "today: b")) =
    Some ([(TODAY, str "today", [str " "; str "a"])] ++
          (TODAY, str "today", [str " "; str "b"]) :: []) /\
  isKeyword TODAY = true /\
  slot TODAY
    {| Statement.Yesterday := StringField.zero;
       Statement.Today := StringField.mk (str "today") (str "b") true;
       Statement.Meetings := StringField.zero;
       Statement.Blockers := StringField.zero;
       Statement.LP := BoolField.zero;
       Statement.Jira := BoolField.zero |} =
  group_field TODAY (str "today") [str " "; str "b"].
Proof.
  split; [vm_compute; reflexivity |].
  apply (last_group_wins
           (str "today: a" ++ [chr "010"] ++ str "today: b")
           ([(TODAY, str "today", [str " "; str "a"])] ++
            (TODAY, str "today", [str " "; str "b"]) :: [])
           [(TODAY, str "today", [str " "; str "a"])] []
           TODAY (str "today") [str " "; str "b"]).
  - vm_compute; reflexivity.
  - reflexivity.
  - intros g [].
  - vm_compute; reflexivity.
Defined.

(** C6: parsing terminates within a bound given by the length of the
    input.  Each call of [Scan] returns, and either takes at least one
    character of the pending input or returns the end-of-input token.  Each
    pass of the parse loop returns, and either stops or takes at least one
    token of those ahead.  The input has at most as many tokens as
    characters, and the loop ends within [length input + 2] passes. *)
Theorem Parse_terminates :
  (forall s : Scanner,
     exists tok lit s',
       Scan s = Some (tok, lit, s') /\
       (tok = EOF \/ (remaining s' < remaining s)%nat)) /\
  (forall p : Parser,
     exists toks g p',
       ahead p toks /\ Parse_group p = Some (g, p') /\
       (g = None \/
        exists toks', ahead p' toks' /\ (length toks' < length toks)%nat)) /\
  (forall input : gostring,
     exists toks stmt p',
       tokens input = Some toks /\ (length toks <= length input)%nat /\
       Parse_loop (S (S (length input))) (New input) Statement.zero =
         Some (stmt, p') /\
       Parse (New input) = Some (Some stmt, None)).
Proof.
  split; [| split].
  - intros s. destruct (Scan_progress s) as (tok & lit & s' & HS & _ & Hp).
    exists tok, lit, s'. now split.
  - intros p. destruct (ahead_total p) as (toks & Ha).
    destruct (Parse_group_ahead p toks Ha) as (p' & Hg & Ha').
    exists toks, (fst (group_ahead toks)), p'.
    split; [assumption |]. split; [assumption |].
    destruct (group_ahead toks) as [[[[key keyLit] values] |] toks'] eqn:Eg;
      cbn [fst snd] in *; [right | now left].
    exists toks'. split; [apply Ha'; discriminate |].
    now apply group_ahead_spec in Eg.
  - intros input.
    destruct (Parse_spec input) as (toks & gs & Ht & Hgs & _ & HP).
    destruct (Parse_loop_groups _ _ Statement.zero _ Hgs) as (p' & Hl).
    exists toks, (fold_left assign_group gs Statement.zero), p'.
    split; [assumption |]. split; [| now split].
    apply tokens_stream, stream_length in Ht. exact Ht.
Qed.

(** ** Groups without keyword *)









(** ** Examples of the specification *)



(** C2, as the code has it: ["up to date"] is classified true and valid;
    ["not yet"] contains ["no"], so it matches the negative pattern and not
    the positive one, and is classified false and valid, as the test of the
    parser expects for [Jira: not yet]. *)
Theorem isPositive_examples :
  isPositive (str "up to date") = (true, None) /\
  regexp_Match negative (str "not yet") = true /\
  regexp_Match positive (str "not yet") = false /\
  isPositive (str "not yet") = (false, None) /\
  slot JIRA (Parse_assign JIRA (str "Jira") [str " "; str "not yet"]
               Statement.zero) =
    Some (FlagField {| BoolField.Key := str "Jira"; BoolField.Val := false;
                       BoolField.Lit := str "not yet";
                       BoolField.Valid := true |}).
Proof. repeat split; vm_compute; reflexivity. Qed.

(** C2 as stated fails: ["not yet"] is not classified as unclear. *)
Lemma not_yet_counterexample :
  ~ (fst (isPositive (str "not yet")) = true /\
     snd (isPositive (str "not yet")) <> None).
Proof. intros [H _]. vm_compute in H. discriminate H. Qed.



(** ** NUL in the input *)



Lemma forallb_same (f g : rune -> bool) (l : gostring) :
  (forall x, f x = g x) -> forallb f l = forallb g l.
Proof.
  intros H. induction l as [| x l IH]; [reflexivity |].
  cbn [forallb]. now rewrite H, IH.
Qed.




(** C3, as the code has it: for every input without NUL, the literals of
    the tokens that [Scan] returns up to the end-of-input token, put
    together in order, are the input. *)
Theorem literals_round_trip (input : gostring) :
  ~ In eof input ->
  exists toks, tokens input = Some toks /\ literals toks = input.
Proof.
  intros Hn.
  destruct (tokens_from_spec (S (length input)) (NewScanner input))
    as (toks & Ht & _ & Hrt); [unfold remaining; simpl; lia |].
  exists toks. split; [exact Ht | now apply Hrt].
Qed.

Lemma literals_round_trip_witness :
  exists toks,
    tokens (str "- meetings: hello") = Some toks /\
    literals toks = str "- meetings: hello".
Proof.
  apply literals_round_trip.
  intros H. repeat (destruct H as [H | H]; [discriminate H |]). exact H.
Defined.

(** C3 as stated fails: the literals of ["a\000b"] spell ["ab"]. *)
Lemma round_trip_counterexample :
  tokens (str "a" ++ eof :: str "b") =
    Some [(IDENT, str "a"); (IDENT, str "b")] /\
  literals [(IDENT, str "a"); (IDENT, str "b")] <> str "a" ++ eof :: str "b".
Proof. split; [vm_compute; reflexivity | discriminate]. Qed.

(** * Further properties of the code *)

(** ** [Scan] as a function of the pending input *)

Lemma scanWhitespace_loop_run (fuel : nat) :
  forall (buf : gostring) (s : Scanner),
    (remaining s < fuel)%nat ->
    exists s',
      scanWhitespace_loop fuel buf s =
        Some (buf ++ fst (take_run isWhitespace (pending (Scanner_r s))), s') /\
      pending (Scanner_r s') =
        snd (take_run isWhitespace (pending (Scanner_r s))).
Proof.
  induction fuel as [| fuel IH]; intros buf [[l lr]] Hf; [inversion Hf |].
  destruct l as [| c l]; cbn [scanWhitespace_loop].
  - rewrite read_nil. cbn. rewrite app_nil_r. eauto.
  - rewrite read_cons. cbn [pending Scanner_r take_run].
    destruct (c =? eof) eqn:Ec; [cbn; rewrite app_nil_r; eauto |].
    destruct (isWhitespace c); cbn [negb].
    + destruct (IH (WriteRune buf c) (mkScanner (mkReader l (Some c))))
        as (s' & Hl & Hp).
      { unfold remaining in *. simpl in *. lia. }
      cbn [pending Scanner_r] in *. exists s'. rewrite Hl, Hp.
      destruct (take_run isWhitespace l) as [a b]. cbn [fst snd].
      unfold WriteRune. now rewrite <- app_assoc.
    + rewrite unread_read. cbn. rewrite app_nil_r. eauto.
Qed.

Lemma scanIdent_loop_run (fuel : nat) :
  forall (buf : gostring) (s : Scanner),
    (remaining s < fuel)%nat ->
    exists s',
      scanIdent_loop fuel buf s =
        Some (buf ++ fst (take_run word_rune (pending (Scanner_r s))), s') /\
      pending (Scanner_r s') =
        snd (take_run word_rune (pending (Scanner_r s))).
Proof.
  induction fuel as [| fuel IH]; intros buf [[l lr]] Hf; [inversion Hf |].
  destruct l as [| c l]; cbn [scanIdent_loop].
  - rewrite read_nil. cbn. rewrite app_nil_r. eauto.
  - rewrite read_cons. cbn [pending Scanner_r take_run]. unfold word_rune.
    destruct (c =? eof) eqn:Ec; [cbn; rewrite app_nil_r; eauto |].
    destruct (isLineBreak c); cbn [negb andb];
      [rewrite unread_read; cbn; rewrite app_nil_r; eauto |].
    destruct (c =? chr ":"); cbn [negb];
      [rewrite unread_read; cbn; rewrite app_nil_r; eauto |].
    destruct (IH (WriteRune buf c) (mkScanner (mkReader l (Some c))))
      as (s' & Hl & Hp).
    { unfold remaining in *. simpl in *. lia. }
    cbn [pending Scanner_r] in *. exists s'. rewrite Hl, Hp.
    fold (word_rune).
    change (fun c0 : rune => negb (isLineBreak c0) && negb (c0 =? chr ":"))
      with word_rune.
    destruct (take_run word_rune l) as [a b]. cbn [fst snd].
    unfold WriteRune. now rewrite <- app_assoc.
Qed.

Lemma Scan_pending_run (s : Scanner) :
  exists s',
    Scan s =
      Some (fst (fst (scan_pending (pending (Scanner_r s)))),
            snd (fst (scan_pending (pending (Scanner_r s)))), s') /\
    pending (Scanner_r s') = snd (scan_pending (pending (Scanner_r s))).
Proof.
  destruct s as [[l lr]]. cbn [pending Scanner_r].
  destruct l as [| c l]; unfold Scan; cbn [scan_pending].
  - rewrite read_nil, isWhitespace_eof. cbn. eauto.
  - rewrite read_cons. destruct (isWhitespace c) eqn:Ew.
    + rewrite unread_read. unfold scanWhitespace. rewrite read_cons.
      destruct (scanWhitespace_loop_run
                  (S (remaining (mkScanner (mkReader l (Some c)))))
                  (WriteRune [] c) (mkScanner (mkReader l (Some c))))
        as (s' & Hl & Hp); [lia |].
      rewrite Hl. cbn [bind pending Scanner_r] in *.
      destruct (take_run isWhitespace l) as [a b]. cbn [fst snd] in *.
      eauto.
    + destruct (c =? eof); [cbn; eauto |].
      destruct (c =? chr ":"); [cbn; eauto |].
      rewrite unread_read. unfold scanIdent. rewrite read_cons.
      destruct (scanIdent_loop_run
                  (S (remaining (mkScanner (mkReader l (Some c)))))
                  (WriteRune [] c) (mkScanner (mkReader l (Some c))))
        as (s' & Hl & Hp); [lia |].
      rewrite Hl. cbn [bind pending Scanner_r] in *.
      destruct (take_run word_rune l) as [a b]. cbn [fst snd] in *.
      eauto.
Qed.

Lemma take_run_spec (keep : rune -> bool) (l : list rune) :
  forallb (fun x => negb (x =? eof) && keep x) (fst (take_run keep l)) = true /\
  ((l = fst (take_run keep l) ++ snd (take_run keep l) /\
    match snd (take_run keep l) with
    | [] => True
    | c :: _ => c <> eof /\ keep c = false
    end) \/
   l = fst (take_run keep l) ++ eof :: snd (take_run keep l)).
Proof.
  induction l as [| c l IH]; cbn [take_run].
  - cbn. auto.
  - destruct (c =? eof) eqn:Ec.
    + apply Z.eqb_eq in Ec. subst c. cbn. auto.
    + destruct (keep c) eqn:Ek.
      * destruct (take_run keep l) as [a b]. cbn [fst snd] in *.
        destruct IH as [Ha Hl]. split; [cbn; now rewrite Ec, Ek |].
        destruct Hl as [[-> Hb] | ->]; [left | right]; auto.
      * cbn. split; [reflexivity |]. left. split; [reflexivity |].
        apply Z.eqb_neq in Ec. auto.
Qed.

Lemma keyword_of_cases (k : gostring) :
  keyword_of k = IDENT \/ isKeyword (keyword_of k) = true.
Proof.
  unfold keyword_of.
  repeat match goal with
         | |- context [if ?b then _ else _] => destruct b
         end; auto.
Qed.

Lemma isLineBreak_isWhitespace (c : rune) :
  isLineBreak c = true -> isWhitespace c = true.
Proof.
  unfold isWhitespace. intros ->. now rewrite !orb_true_r.
Qed.

Lemma Scan_shape_pending (l : list rune) :
  match fst (fst (scan_pending l)) with
  | EOF => snd (fst (scan_pending l)) = []
  | WS =>
      snd (fst (scan_pending l)) <> [] /\
      forallb isWhitespace (snd (fst (scan_pending l))) = true
  | COLON => snd (fst (scan_pending l)) = str ":"
  | tok =>
      (exists c w,
         snd (fst (scan_pending l)) = c :: w /\ isWhitespace c = false) /\
      forallb (fun x => negb (x =? eof) && word_rune x)
        (snd (fst (scan_pending l))) = true /\
      tok = keyword_of (normalized (snd (fst (scan_pending l))))
  end.
Proof.
  destruct l as [| c l]; cbn [scan_pending]; [reflexivity |].
  destruct (isWhitespace c) eqn:Ew.
  - pose proof (take_run_spec isWhitespace l) as [Ha _].
    destruct (take_run isWhitespace l) as [a b]. cbn [fst snd] in *.
    split; [discriminate |]. cbn [forallb]. rewrite Ew. cbn [andb].
    erewrite forallb_same; [exact Ha |]. intros x. cbn.
    destruct (x =? eof) eqn:Ex; [| reflexivity].
    apply Z.eqb_eq in Ex. now subst x.
  - destruct (c =? eof) eqn:Ec; [reflexivity |].
    destruct (c =? chr ":") eqn:Ecol.
    + cbn. apply Z.eqb_eq in Ecol. now subst c.
    + pose proof (take_run_spec word_rune l) as [Ha _].
      destruct (take_run word_rune l) as [a b]. cbn [fst snd] in *.
      assert (Hw : word_rune c = true).
      { unfold word_rune. rewrite Ecol.
        destruct (isLineBreak c) eqn:El; [| reflexivity].
        apply isLineBreak_isWhitespace in El. congruence. }
      assert (Hgoal :
        (exists c0 w, c :: a = c0 :: w /\ isWhitespace c0 = false) /\
        forallb (fun x => negb (x =? eof) && word_rune x) (c :: a) = true /\
        keyword_of (normalized (c :: a)) =
        keyword_of (normalized (c :: a))).
      { split; [eauto |]. split; [| reflexivity].
        cbn [forallb]. now rewrite Ec, Hw, Ha. }
      destruct (keyword_of_cases (normalized (c :: a))) as [E | E].
      * rewrite E in *. exact Hgoal.
      * destruct (keyword_of (normalized (c :: a)));
          try discriminate E; exact Hgoal.
Qed.

(** X1: the shape of the literal that [Scan] returns with each kind of
    token.  The end-of-input token has the empty literal, a whitespace token
    a non-empty run of whitespace, the colon token the colon.  A word or
    keyword token has a literal that begins with a rune that is not
    whitespace and holds no line break, no colon and no NUL, and its kind is
    the one that the keyword table gives to the normalised literal. *)
Theorem Scan_token_shape (s : Scanner) (tok : Token) (lit : gostring)
  (s' : Scanner) :
  Scan s = Some (tok, lit, s') ->
  match tok with
  | EOF => lit = []
  | WS => lit <> [] /\ forallb isWhitespace lit = true
  | COLON => lit = str ":"
  | _ =>
      (exists c w, lit = c :: w /\ isWhitespace c = false) /\
      forallb (fun x => negb (x =? eof) && word_rune x) lit = true /\
      tok = keyword_of (normalized lit)
  end.
Proof.
  intros HS. destruct (Scan_pending_run s) as (s'' & HS' & _).
  rewrite HS in HS'. injection HS' as E1 E2 _.
  pose proof (Scan_shape_pending (pending (Scanner_r s))) as H.
  rewrite <- E1, <- E2 in H. destruct tok; exact H.
Qed.

Lemma Scan_token_shape_witness :
  (exists c w, str "- meetings" = c :: w /\ isWhitespace c = false) /\
  forallb (fun x => negb (x =? eof) && word_rune x) (str "- meetings") = true /\
  MEETINGS = keyword_of (normalized (str "- meetings")).
Proof.
  apply (Scan_token_shape (NewScanner (str "- meetings: hello")) MEETINGS
           (str "- meetings")
           (mkScanner (mkReader (str ": hello") None))).
  vm_compute. reflexivity.
Defined.

(** ** Token streams of inputs without NUL *)

Lemma scan_pending_head (c : rune) (tl : list rune) :
  (isWhitespace c = true <-> fst (fst (scan_pending (c :: tl))) = WS) /\
  (c = chr ":" -> fst (fst (scan_pending (c :: tl))) = COLON).
Proof.
  cbn [scan_pending]. destruct (isWhitespace c) eqn:Ew.
  - destruct (take_run isWhitespace tl). cbn. split; [tauto |].
    intros ->. discriminate Ew.
  - destruct (c =? eof) eqn:Ec.
    + cbn. split; [split; discriminate |].
      intros ->. discriminate Ec.
    + destruct (c =? chr ":") eqn:Ecol.
      * cbn. split; [split; discriminate | reflexivity].
      * destruct (take_run word_rune tl) as [a b]. cbn [fst].
        split.
        -- split; [discriminate |]. intros E.
           destruct (keyword_of_cases (normalized (c :: a))) as [E' | E'];
             rewrite E in E'; discriminate E'.
        -- intros ->. discriminate Ecol.
Qed.

Lemma stream_cons_inv (s : Scanner) (t : Token) (l : gostring) r :
  stream s ((t, l) :: r) ->
  exists s', Scan s = Some (t, l, s') /\ t <> EOF /\ stream s' r.
Proof. intros H. inversion H; subst. eauto. Qed.

Lemma stream_separated (s : Scanner) toks :
  stream s toks -> ~ In eof (pending (Scanner_r s)) -> separated toks = true.
Proof.
  induction 1 as [s s' lit HS | s s' tok lit toks HS Hne Hst IH];
    intros Hn; [reflexivity |].
  destruct (Scan_pending_run s) as (s1 & HS1 & Hp1).
  rewrite HS in HS1. injection HS1 as Et El <-.
  destruct (Scan_spec s) as (tok' & lit' & s2 & HS2 & Hcons & _).
  rewrite HS in HS2. injection HS2 as <- <- <-.
  assert (Hn' : ~ In eof (pending (Scanner_r s'))).
  { intros H. apply Hn. destruct Hcons as [[E | E] _]; rewrite E;
      apply in_or_app; right; [assumption | now right]. }
  specialize (IH Hn'). cbn [separated].
  destruct toks as [| [t2 l2] r]; [reflexivity |].
  rewrite IH, andb_true_r.
  destruct (stream_cons_inv _ _ _ _ Hst) as (s3 & HS3 & Hne3 & _).
  destruct (Scan_pending_run s') as (s4 & HS4 & _).
  rewrite HS3 in HS4. injection HS4 as Et2 _ _.
  destruct (pending (Scanner_r s')) as [| c tl] eqn:Ep';
    [cbn in Et2; congruence |].
  destruct (scan_pending_head c tl) as [Hws Hcol]. rewrite <- Et2 in Hws, Hcol.
  destruct (pending (Scanner_r s)) as [| c0 l0] eqn:Ep;
    [cbn in *; congruence |].
  cbn [scan_pending] in Et, Hp1.
  destruct (isWhitespace c0) eqn:Ew0.
  - pose proof (take_run_spec isWhitespace l0) as [_ Hl].
    destruct (take_run isWhitespace l0) as [a b]. cbn [fst snd] in *.
    subst tok b. cbn [may_follow].
    destruct Hl as [[_ [_ Hk]] | E].
    + destruct (Token_eqb t2 WS) eqn:E2; [| reflexivity].
      apply Token_eqb_eq in E2. apply Hws in E2. congruence.
    + exfalso. apply Hn. right. rewrite E. apply in_or_app. right. now left.
  - destruct (c0 =? eof) eqn:Ec0; [cbn in Et; congruence |].
    destruct (c0 =? chr ":") eqn:Ecol0; [cbn in Et; now subst tok |].
    pose proof (take_run_spec word_rune l0) as [_ Hl].
    destruct (take_run word_rune l0) as [a b]. cbn [fst snd] in *. subst b.
    assert (Hfollow : Token_eqb t2 WS || Token_eqb t2 COLON = true).
    { destruct Hl as [[_ [_ Hk]] | E].
      - unfold word_rune in Hk. apply andb_false_iff in Hk.
        destruct Hk as [Hk | Hk]; apply negb_false_iff in Hk.
        + apply isLineBreak_isWhitespace, Hws in Hk. rewrite Hk. reflexivity.
        + apply Z.eqb_eq in Hk. rewrite (Hcol Hk). reflexivity.
      - exfalso. apply Hn. right. rewrite E. apply in_or_app. right.
        now left. }
    destruct (keyword_of_cases (normalized (c0 :: a))) as [E | E];
      rewrite <- Et in E.
    + rewrite E. exact Hfollow.
    + destruct tok; try discriminate E; exact Hfollow.
Qed.

(** X2: in the token stream of an input without NUL, a whitespace token is
    never followed by another whitespace token, and a word or keyword token
    is always followed by a whitespace token or a colon token (or by the end
    of the input): runs of whitespace and words are read to their end. *)
Theorem tokens_separated (input : gostring) toks :
  ~ In eof input -> tokens input = Some toks -> separated toks = true.
Proof.
  intros Hn Ht. apply tokens_stream in Ht.
  eapply stream_separated; [exact Ht | exact Hn].
Qed.

Lemma tokens_separated_witness :
  separated [(TODAY, str "today"); (COLON, str ":");
             (WS, [chr " "; chr "010"; chr " "]); (IDENT, str "a, b")] = true.
Proof.
  apply (tokens_separated (str "today: " ++ chr "010" :: str " a, b")).
  - intros H. repeat (destruct H as [H | H]; [discriminate H |]). exact H.
  - vm_compute. reflexivity.
Defined.

(** X3: when the tokens ahead are separated in this way, the single skip of
    [scanIgnoreWhitespace] is enough: the token that it returns is never a
    whitespace token. *)
Theorem scanIgnoreWhitespace_skips_whitespace (p : Parser) toks :
  ahead p toks -> separated toks = true ->
  exists tok lit ws p',
    scanIgnoreWhitespace p = Some (tok, lit, ws, p') /\ tok <> WS.
Proof.
  intros Ha Hs.
  destruct (scanIgnoreWhitespace_ahead p toks Ha)
    as (tok & lit & ws & p' & HS & Hm).
  exists tok, lit, ws, p'. split; [exact HS |].
  destruct toks as [| [t l] r]; cbn [next_token] in Hm.
  - destruct Hm as (-> & _). discriminate.
  - destruct (Token_eqb t WS) eqn:Ew.
    + destruct r as [| [t' l'] r']; [destruct Hm as (-> & _); discriminate |].
      destruct Hm as (-> & _). apply Token_eqb_eq in Ew. subst t.
      cbn [separated may_follow] in Hs. apply andb_true_iff in Hs.
      destruct Hs as [Hs _]. apply negb_true_iff, Token_eqb_neq in Hs.
      exact Hs.
    + destruct Hm as (-> & _). now apply Token_eqb_neq.
Qed.

Lemma scanIgnoreWhitespace_skips_whitespace_witness :
  exists tok lit ws p',
    scanIgnoreWhitespace (New (str "  hello")) = Some (tok, lit, ws, p') /\
    tok <> WS.
Proof.
  apply (scanIgnoreWhitespace_skips_whitespace (New (str "  hello"))
           [(WS, str "  "); (IDENT, str "hello")]).
  - apply ahead_New. vm_compute. reflexivity.
  - reflexivity.
Defined.

(** ** The pushback buffer *)

Lemma scan_result_buffer (p : Parser) tok lit p' :
  scan p = Some (tok, lit, p') ->
  Parser_buf p' = {| buf_tok := tok; buf_lit := lit; buf_n := 0 |}.
Proof.
  unfold scan. destruct (buf_n (Parser_buf p) =? 0) eqn:En; cbn [negb].
  - destruct (Scan (Parser_s p)) as [[[t l] s'] |]; [| discriminate].
    cbn [bind]. intros E. injection E as <- <- <-. cbn.
    apply Z.eqb_eq in En. now rewrite En.
  - intros E. injection E as <- <- <-. reflexivity.
Qed.

Lemma scanIgnoreWhitespace_result_buffer (p : Parser) tok lit ws p' :
  scanIgnoreWhitespace p = Some (tok, lit, ws, p') ->
  Parser_buf p' = {| buf_tok := tok; buf_lit := lit; buf_n := 0 |}.
Proof.
  unfold scanIgnoreWhitespace.
  destruct (scan p) as [[[t l] p1] |] eqn:E1; [| discriminate]. cbn [bind].
  destruct (Token_eqb t WS).
  - destruct (scan p1) as [[[t' l'] p2] |] eqn:E2; [| discriminate].
    cbn [bind]. intros E. injection E as <- <- <- <-.
    eapply scan_result_buffer; eassumption.
  - intros E. injection E as <- <- <- <-.
    eapply scan_result_buffer; eassumption.
Qed.

(** X4: pushing back and reading again.  After [scanIgnoreWhitespace] has
    returned a token, [unscan] makes the next [scan] return the same token
    and literal and leaves the parser as it was after the first read, so
    nothing more is taken from the scanner.  Read again through
    [scanIgnoreWhitespace], the token comes without the whitespace that
    preceded it.  Pushing back twice is pushing back once. *)
Theorem unscan_then_scan (p : Parser) (tok : Token) (lit ws : gostring)
  (p' : Parser) :
  scanIgnoreWhitespace p = Some (tok, lit, ws, p') ->
  scan (unscan p') = Some (tok, lit, p') /\
  (tok <> WS ->
   scanIgnoreWhitespace (unscan p') = Some (tok, lit, [], p')) /\
  unscan (unscan p') = unscan p'.
Proof.
  intros H. apply scanIgnoreWhitespace_result_buffer in H.
  destruct p' as [s' b]. cbn [Parser_buf] in H. subst b.
  assert (Hs : scan (unscan (mkParser s' (mkBuf tok lit 0))) =
               Some (tok, lit, mkParser s' (mkBuf tok lit 0)))
    by reflexivity.
  split; [exact Hs |]. split; [| reflexivity].
  intros Hne. unfold scanIgnoreWhitespace. rewrite Hs. cbn [bind].
  apply Token_eqb_neq in Hne. now rewrite Hne.
Qed.

Lemma unscan_then_scan_witness :
  exists p',
    scanIgnoreWhitespace (New (str " hello: x")) =
      Some (IDENT, str "hello", str " ", p') /\
    scanIgnoreWhitespace (unscan p') = Some (IDENT, str "hello", [], p').
Proof.
  eexists. split; [vm_compute; reflexivity |].
  apply (unscan_then_scan (New (str " hello: x")) IDENT (str "hello")
           (str " ")); [vm_compute; reflexivity | discriminate].
Defined.

(** ** Trimming *)

Lemma TrimLeftFunc_nil (f : rune -> bool) (s : gostring) :
  strings_TrimLeftFunc f s = [] <-> forallb f s = true.
Proof.
  induction s as [| c s IH]; cbn; [tauto |].
  destruct (f c); cbn; [exact IH | split; discriminate].
Qed.

Lemma TrimLeftFunc_head (f : rune -> bool) (s : gostring) c t :
  strings_TrimLeftFunc f s = c :: t -> f c = false.
Proof.
  induction s as [| x s IH]; cbn; [discriminate |].
  destruct (f x) eqn:E; [exact IH |]. intros H. injection H as <- _. exact E.
Qed.

Lemma TrimLeftFunc_fixed (f : rune -> bool) (c : rune) (t : gostring) :
  f c = false -> strings_TrimLeftFunc f (c :: t) = c :: t.
Proof. intros H. cbn. now rewrite H. Qed.

Lemma TrimLeftFunc_idem (f : rune -> bool) (s : gostring) :
  strings_TrimLeftFunc f (strings_TrimLeftFunc f s) = strings_TrimLeftFunc f s.
Proof.
  destruct (strings_TrimLeftFunc f s) as [| c t] eqn:E; [reflexivity |].
  apply TrimLeftFunc_head in E. now apply TrimLeftFunc_fixed.
Qed.

Lemma TrimLeftFunc_snoc (f : rune -> bool) (c : rune) (u : gostring) :
  f c = false -> exists u', strings_TrimLeftFunc f (u ++ [c]) = u' ++ [c].
Proof.
  intros H. induction u as [| x u IH]; cbn.
  - rewrite H. now exists [].
  - destruct (f x); [exact IH | now exists (x :: u)].
Qed.

Lemma forallb_rev (f : rune -> bool) (s : gostring) :
  forallb f (rev s) = forallb f s.
Proof.
  induction s as [| c s IH]; [reflexivity |].
  cbn. rewrite forallb_app, IH. cbn. rewrite andb_true_r. apply andb_comm.
Qed.

Lemma TrimRightFunc_nil (f : rune -> bool) (s : gostring) :
  strings_TrimRightFunc f s = [] <-> forallb f s = true.
Proof.
  unfold strings_TrimRightFunc. rewrite <- (forallb_rev f s).
  rewrite <- TrimLeftFunc_nil. split; intros H.
  - apply (f_equal (@rev rune)) in H. now rewrite rev_involutive in H.
  - now rewrite H.
Qed.

(** A trimmed text: empty, or with a first and a last rune outside [f]. *)
Lemma TrimFunc_trimmed (f : rune -> bool) (s : gostring) :
  strings_TrimLeftFunc f (strings_TrimFunc f s) = strings_TrimFunc f s /\
  strings_TrimRightFunc f (strings_TrimFunc f s) = strings_TrimFunc f s.
Proof.
  unfold strings_TrimFunc. split.
  - destruct (strings_TrimLeftFunc f s) as [| c t] eqn:E; [reflexivity |].
    apply TrimLeftFunc_head in E. unfold strings_TrimRightFunc.
    cbn [rev]. destruct (TrimLeftFunc_snoc f c (rev t) E) as (u' & ->).
    rewrite rev_app_distr. cbn. now rewrite E.
  - unfold strings_TrimRightFunc at 1 2. rewrite rev_involutive.
    now rewrite TrimLeftFunc_idem.
Qed.

Lemma TrimFunc_idem (f : rune -> bool) (s : gostring) :
  strings_TrimFunc f (strings_TrimFunc f s) = strings_TrimFunc f s.
Proof.
  destruct (TrimFunc_trimmed f s) as [Hl Hr].
  unfold strings_TrimFunc at 1. now rewrite Hl, Hr.
Qed.

Lemma TrimFunc_nil (f : rune -> bool) (s : gostring) :
  strings_TrimFunc f s = [] <-> forallb f s = true.
Proof.
  unfold strings_TrimFunc. rewrite TrimRightFunc_nil. split; intros H.
  - apply TrimLeftFunc_nil.
    destruct (strings_TrimLeftFunc f s) as [| c t] eqn:E; [reflexivity |].
    apply TrimLeftFunc_head in E. cbn in H. now rewrite E in H.
  - apply TrimLeftFunc_nil in H. now rewrite H.
Qed.

Lemma strings_Join_empty_sep (values : list gostring) :
  strings_Join values [] = concat values.
Proof.
  induction values as [| x r IH]; [reflexivity |].
  cbn [strings_Join concat]. destruct r as [| y r'].
  - cbn. now rewrite app_nil_r.
  - cbn [app]. now rewrite IH.
Qed.

Lemma strings_Split_not_nil (s : gostring) (sep : rune) :
  strings_Split s sep <> [].
Proof.
  destruct s as [| c s]; cbn; [discriminate |].
  destruct (c =? sep); [discriminate |].
  destruct (strings_Split s sep); discriminate.
Qed.

Lemma strings_Split_single (s l : gostring) (sep : rune) :
  strings_Split s sep = [l] -> s = l /\ ~ In sep s.
Proof.
  revert l. induction s as [| c s IH]; intros l; cbn.
  - intros H. injection H as <-. auto.
  - pose proof (strings_Split_not_nil s sep) as Hne.
    destruct (c =? sep) eqn:E.
    + intros H. injection H as _ H. contradiction.
    + destruct (strings_Split s sep) as [| l' ls] eqn:Es; [contradiction |].
      intros H. injection H as <- ->.
      destruct (IH l' eq_refl) as [-> Hn]. split; [reflexivity |].
      apply Z.eqb_neq in E. intros [H | H]; [congruence | auto].
Qed.

Lemma gostring_eqb_nil (s : gostring) : gostring_eqb s [] = true <-> s = [].
Proof. destruct s; cbn; split; congruence. Qed.

(** X5: the value of a group is empty exactly when all that was collected
    for it is whitespace, so a text field is valid exactly when its group
    holds a rune that is not whitespace. *)
Theorem value_empty_iff_blank (values : list gostring) :
  (splitAndTrimSpace values = [] <->
   forallb unicode_IsSpace (concat values) = true) /\
  (forall (keyLit : gostring) (stmt : Statement.t),
     StringField.Valid (Statement.Today (Parse_assign TODAY keyLit values stmt))
       = negb (forallb unicode_IsSpace (concat values)) /\
     StringField.Valid
       (Statement.Yesterday (Parse_assign YESTERDAY keyLit values stmt))
       = negb (forallb unicode_IsSpace (concat values)) /\
     StringField.Valid
       (Statement.Meetings (Parse_assign MEETINGS keyLit values stmt))
       = negb (forallb unicode_IsSpace (concat values)) /\
     StringField.Valid
       (Statement.Blockers (Parse_assign BLOCKERS keyLit values stmt))
       = negb (forallb unicode_IsSpace (concat values))).
Proof.
  assert (H : splitAndTrimSpace values = [] <->
              forallb unicode_IsSpace (concat values) = true).
  { unfold splitAndTrimSpace, strings_TrimSpace.
    rewrite strings_Join_empty_sep. split.
    - intros H.
      pose proof (strings_Split_not_nil
                    (strings_TrimFunc unicode_IsSpace (concat values))
                    (chr "010")) as Hne.
      destruct (strings_Split (strings_TrimFunc unicode_IsSpace (concat values))
                  (chr "010")) as [| l1 ls] eqn:Es; [contradiction |].
      cbn [map strings_Join] in H. destruct ls as [| l2 ls].
      + apply strings_Split_single in Es. destruct Es as [<- _].
        rewrite TrimFunc_idem in H. now apply TrimFunc_nil.
      + cbn [map] in H. apply app_eq_nil in H. destruct H as [_ H].
        discriminate H.
    - intros H. apply TrimFunc_nil in H. rewrite H. reflexivity. }
  split; [exact H |].
  assert (Hb : negb (gostring_eqb (splitAndTrimSpace values) []) =
               negb (forallb unicode_IsSpace (concat values))).
  { f_equal. rewrite <- gostring_eqb_nil in H.
    destruct (gostring_eqb (splitAndTrimSpace values) []),
             (forallb unicode_IsSpace (concat values));
      try reflexivity; destruct H as [H1 H2];
      [symmetry; now apply H1 | now apply H2]. }
  intros keyLit [y t m b l j]. unfold Parse_assign. cbn. now rewrite Hb.
Qed.

(** ** What every returned statement satisfies *)

Lemma isPositive_nil : isPositive [] = (true, Some (errors_New (str "unclear"))).
Proof. reflexivity. Qed.

Lemma Parse_assign_consistent (key : Token) keyLit values stmt :
  statement_consistent stmt ->
  statement_consistent (Parse_assign key keyLit values stmt).
Proof.
  destruct stmt as [y t m b l j].
  intros (Hy & Ht & Hm & Hb & Hl & Hj). unfold Parse_assign.
  assert (Hf : flag_consistent
                 (let '(val, err) := isPositive (splitAndTrimSpace values) in
                  {| BoolField.Key := keyLit; BoolField.Val := val;
                     BoolField.Lit := splitAndTrimSpace values;
                     BoolField.Valid := match err with
                                        | None => true
                                        | Some _ => false
                                        end |})).
  { right. destruct (isPositive (splitAndTrimSpace values)) as [val err] eqn:E.
    cbn. rewrite E. now split. }
  destruct key; repeat split; cbn; try assumption; reflexivity.
Qed.

Lemma fold_assign_consistent gs :
  forall stmt,
    statement_consistent stmt ->
    statement_consistent (fold_left assign_group gs stmt).
Proof.
  induction gs as [| [[key keyLit] values] gs IH]; intros stmt H; [exact H |].
  cbn [fold_left assign_group]. apply IH. now apply Parse_assign_consistent.
Qed.

Lemma zero_consistent : statement_consistent Statement.zero.
Proof. repeat split; try reflexivity; now left. Qed.

Lemma flag_valid_literal (f : BoolField.t) :
  flag_consistent f -> BoolField.Valid f = true -> BoolField.Lit f <> [].
Proof.
  intros [-> | [_ Hv]] H; [discriminate H |].
  intros E. rewrite E, isPositive_nil in Hv. cbn in Hv. congruence.
Qed.

(** X6: in every statement that [Parse] returns, each text field is valid
    exactly when its value is not empty, and each flag field is either
    untouched or holds the classification of its literal; a valid flag
    field has a non-empty literal. *)
Theorem Parse_statement_consistent (input : gostring) (stmt : Statement.t) :
  Parse (New input) = Some (Some stmt, None) ->
  statement_consistent stmt /\
  (BoolField.Valid (Statement.LP stmt) = true ->
   BoolField.Lit (Statement.LP stmt) <> []) /\
  (BoolField.Valid (Statement.Jira stmt) = true ->
   BoolField.Lit (Statement.Jira stmt) <> []).
Proof.
  intros HP. destruct (Parse_spec input) as (toks & gs & _ & _ & _ & HP').
  rewrite HP in HP'. injection HP' as ->.
  pose proof (fold_assign_consistent gs _ zero_consistent) as H.
  split; [exact H |].
  destruct H as (_ & _ & _ & _ & Hl & Hj).
  split; apply flag_valid_literal; assumption.
Qed.

Lemma Parse_statement_consistent_witness :
  statement_consistent
    {| Statement.Yesterday := StringField.zero;
       Statement.Today := StringField.zero;
       Statement.Meetings := StringField.zero;
       Statement.Blockers := StringField.zero;
       Statement.LP := BoolField.mk (str "LP") true (str "maybe") false;
       Statement.Jira := BoolField.zero |}.
Proof.
  apply (Parse_statement_consistent (str "LP: maybe")).
  vm_compute. reflexivity.
Defined.

(** ** Key labels *)

Lemma Scan_keyword_shape (s : Scanner) tok lit s' :
  Scan s = Some (tok, lit, s') -> isKeyword tok = true ->
  (exists c w, lit = c :: w /\ isWhitespace c = false) /\
  forallb (fun x => negb (x =? eof) && word_rune x) lit = true.
Proof.
  intros HS Hk. destruct (Scan_pending_run s) as (s'' & HS' & _).
  rewrite HS in HS'. injection HS' as E1 E2 _.
  pose proof (Scan_shape_pending (pending (Scanner_r s))) as H.
  rewrite <- E1, <- E2 in H.
  destruct tok; try discriminate Hk; destruct H as (H1 & H2 & _); now split.
Qed.

Lemma stream_In_Scan (s : Scanner) toks :
  stream s toks ->
  forall t l, In (t, l) toks -> exists s1 s2, Scan s1 = Some (t, l, s2).
Proof.
  induction 1 as [s s' lit HS | s s' tok lit toks HS Hne Hst IH];
    intros t l Hin; [destruct Hin |].
  destruct Hin as [E | Hin]; [injection E as <- <-; eauto | eauto].
Qed.

Lemma groups_ahead_origin toks0 (fuel : nat) :
  forall toks,
    incl toks toks0 ->
    forall key keyLit values,
      In (key, keyLit, values) (groups_ahead fuel toks) ->
      isKeyword key = true /\ (keyLit = [] \/ In (key, keyLit) toks0).
Proof.
  induction fuel as [| fuel IH]; intros toks Hi key keyLit values Hg;
    [destruct Hg |].
  cbn [groups_ahead] in Hg.
  destruct (group_ahead toks) as [[[[k kl] vs] |] toks'] eqn:Eg;
    [| destruct Hg].
  apply group_ahead_spec in Eg. destruct Eg as (_ & Hi' & _ & Hk & Hkey).
  destruct Hg as [E | Hg].
  - injection E as <- <- <-. split; [exact Hk |].
    destruct Hkey as [[_ HIn] | [_ [_ ->]]]; [right; now apply Hi | now left].
  - apply (IH toks' (incl_tran Hi' Hi) key keyLit values Hg).
Qed.

Lemma slot_Parse_assign_key (K : Token) keyLit values stmt f :
  slot K (Parse_assign K keyLit values stmt) = Some f -> field_key f = keyLit.
Proof.
  destruct stmt as [y t m b l j]. unfold Parse_assign.
  destruct (isPositive (splitAndTrimSpace values)) as [val err].
  destruct K; cbn; intros E; try discriminate E; injection E as <-;
    reflexivity.
Qed.

Lemma fold_assign_keys toks0 gs :
  (forall key keyLit values,
     In (key, keyLit, values) gs -> keyLit = [] \/ In (key, keyLit) toks0) ->
  forall stmt,
    (forall K f, slot K stmt = Some f ->
                 field_key f = [] \/ In (K, field_key f) toks0) ->
    forall K f, slot K (fold_left assign_group gs stmt) = Some f ->
                field_key f = [] \/ In (K, field_key f) toks0.
Proof.
  induction gs as [| [[key keyLit] values] gs IH]; intros Hg stmt Hs;
    [exact Hs |].
  cbn [fold_left assign_group]. apply IH.
  - intros k kl vs Hin. apply (Hg k kl vs). now right.
  - intros K f Hf. destruct (Token_eqb K key) eqn:E.
    + apply Token_eqb_eq in E. subst K.
      apply slot_Parse_assign_key in Hf. rewrite Hf.
      apply (Hg key keyLit values). now left.
    + apply Token_eqb_neq in E.
      rewrite slot_Parse_assign_other in Hf by exact E. now apply Hs.
Qed.

(** X7: the parser invents no key label.  In the statement that [Parse]
    returns, the key of a field is empty, or it is the literal of a token of
    the input whose kind is the keyword of that field; such a key begins
    with a rune that is not whitespace and holds no colon, no line break and
    no NUL. *)
Theorem key_labels_from_input (input : gostring) toks (stmt : Statement.t)
  (K : Token) (f : Field) :
  tokens input = Some toks ->
  Parse (New input) = Some (Some stmt, None) ->
  slot K stmt = Some f ->
  field_key f = [] \/
  (In (K, field_key f) toks /\
   (exists c w, field_key f = c :: w /\ isWhitespace c = false) /\
   forallb (fun x => negb (x =? eof) && word_rune x) (field_key f) = true).
Proof.
  intros Ht HP Hf.
  destruct (Parse_spec input) as (toks' & gs & Ht' & _ & Egs & HP').
  rewrite Ht in Ht'. injection Ht' as <-.
  rewrite HP in HP'. injection HP' as ->.
  assert (HK : isKeyword K = true) by (destruct K; try discriminate Hf; reflexivity).
  assert (H : field_key f = [] \/ In (K, field_key f) toks).
  { apply (fold_assign_keys toks gs) with (stmt := Statement.zero).
    - intros key keyLit values Hin. rewrite Egs in Hin.
      destruct (groups_ahead_origin toks _ toks (incl_refl _) _ _ _ Hin)
        as [_ Ho].
      exact Ho.
    - intros K0 f0 H0. left.
      destruct K0; try discriminate H0; injection H0 as <-; reflexivity.
    - exact Hf. }
  destruct H as [H | H]; [now left | right].
  split; [exact H |].
  apply tokens_stream in Ht.
  destruct (stream_In_Scan _ _ Ht _ _ H) as (s1 & s2 & HS).
  eapply Scan_keyword_shape; eassumption.
Qed.

Lemma key_labels_from_input_witness :
  str "- meetings" = [] \/
  (In (MEETINGS, str "- meetings")
      [(MEETINGS, str "- meetings"); (COLON, str ":"); (WS, str " ");
       (IDENT, str "none")] /\
   (exists c w, str "- meetings" = c :: w /\ isWhitespace c = false) /\
   forallb (fun x => negb (x =? eof) && word_rune x) (str "- meetings") = true).
Proof.
  apply (key_labels_from_input (str "- meetings: none")
           [(MEETINGS, str "- meetings"); (COLON, str ":"); (WS, str " ");
            (IDENT, str "none")]
           {| Statement.Yesterday := StringField.zero;
              Statement.Today := StringField.zero;
              Statement.Meetings :=
                StringField.mk (str "- meetings") (str "none") true;
              Statement.Blockers := StringField.zero;
              Statement.LP := BoolField.zero;
              Statement.Jira := BoolField.zero |}
           MEETINGS
           (TextField (StringField.mk (str "- meetings") (str "none") true))).
  - vm_compute. reflexivity.
  - vm_compute. reflexivity.
  - reflexivity.
Defined.

(** ** Blank input *)

Lemma take_run_all (keep : rune -> bool) (w : gostring) :
  forallb (fun x => negb (x =? eof) && keep x) w = true ->
  take_run keep w = (w, []).
Proof.
  induction w as [| c w IH]; [reflexivity |].
  cbn [forallb take_run]. intros H. apply andb_true_iff in H.
  destruct H as [Hc Hw]. apply andb_true_iff in Hc. destruct Hc as [Hc1 Hc2].
  apply negb_true_iff in Hc1. rewrite Hc1, Hc2, (IH Hw). reflexivity.
Qed.

Lemma whitespace_not_eof (w : gostring) :
  forallb isWhitespace w = true ->
  forallb (fun x => negb (x =? eof) && isWhitespace x) w = true.
Proof.
  intros H. erewrite forallb_same; [exact H |]. intros x. cbn.
  destruct (x =? eof) eqn:E; [| reflexivity].
  apply Z.eqb_eq in E. now subst x.
Qed.

Lemma stream_nil (s : Scanner) : pending (Scanner_r s) = [] -> stream s [].
Proof.
  intros H. destruct (Scan_pending_run s) as (s' & HS & _).
  rewrite H in HS. cbn in HS. eapply stream_end. exact HS.
Qed.

Lemma tokens_blank (c : rune) (w : gostring) :
  forallb isWhitespace (c :: w) = true ->
  tokens (c :: w) = Some [(WS, c :: w)].
Proof.
  intros H. apply tokens_stream.
  destruct (Scan_pending_run (NewScanner (c :: w))) as (s' & HS & Hp).
  cbn [NewScanner bufio_NewReader pending Scanner_r scan_pending] in HS, Hp.
  cbn [forallb] in H. apply andb_true_iff in H. destruct H as [Hc Hw].
  rewrite Hc in HS, Hp.
  rewrite (take_run_all _ _ (whitespace_not_eof _ Hw)) in HS, Hp.
  cbn [fst snd] in HS, Hp.
  eapply stream_tok; [exact HS | discriminate | now apply stream_nil].
Qed.

(** X8: an input made of whitespace only, the empty input included, is a
    single whitespace token at most, and [Parse] returns the empty statement
    for it. *)
Theorem Parse_blank_input (input : gostring) :
  forallb isWhitespace input = true ->
  tokens input = Some (match input with
                       | [] => []
                       | _ :: _ => [(WS, input)]
                       end) /\
  Parse (New input) = Some (Some Statement.zero, None).
Proof.
  intros H.
  assert (Ht : tokens input = Some (match input with
                                    | [] => []
                                    | _ :: _ => [(WS, input)]
                                    end)).
  { destruct input as [| c w]; [reflexivity | now apply tokens_blank]. }
  split; [exact Ht |].
  destruct (Parse_spec input) as (toks & gs & Ht' & _ & Egs & HP).
  rewrite Ht in Ht'. injection Ht' as <-.
  rewrite HP. do 3 f_equal. rewrite Egs.
  destruct input as [| c w]; reflexivity.
Qed.

Lemma Parse_blank_input_witness :
  Parse (New [chr " "; chr "010"; chr "009"]) =
    Some (Some Statement.zero, None).
Proof.
  apply (Parse_blank_input [chr " "; chr "010"; chr "009"]). reflexivity.
Defined.

(** ** Classification and surrounding text *)

Lemma contains_trans (s t m : gostring) :
  contains s t -> contains t m -> contains s m.
Proof.
  intros (a & b & ->) (a' & b' & ->). exists (a ++ a'), (b' ++ b).
  now rewrite <- !app_assoc.
Qed.

Lemma regexp_Match_mono (re : regex) (s t : gostring) :
  contains s t -> regexp_Match re t = true -> regexp_Match re s = true.
Proof.
  intros Hc H. apply regexp_Match_spec in H. destruct H as (m & Hm & Hc').
  apply regexp_Match_spec. exists m. split; [exact Hm |].
  eapply contains_trans; eassumption.
Qed.

(** X9: classification when text is added around a text [t], giving [s].
    If [t] matches the negative pattern, [s] is never classified true and
    valid; if [t] matches the positive pattern, [s] is never classified
    false and valid; if [t] is ambiguous, so is [s]; and if [s] is unclear,
    so is [t]. *)
Theorem isPositive_surrounding_text (s t : gostring) :
  contains s t ->
  (regexp_Match negative t = true -> isPositive s <> (true, None)) /\
  (regexp_Match positive t = true -> isPositive s <> (false, None)) /\
  (isPositive t = (true, Some (errors_New (str "ambiguous"))) ->
   isPositive s = (true, Some (errors_New (str "ambiguous")))) /\
  (isPositive s = (true, Some (errors_New (str "unclear"))) ->
   isPositive t = (true, Some (errors_New (str "unclear")))).
Proof.
  intros Hc.
  pose proof (regexp_Match_mono negative s t Hc) as Hn.
  pose proof (regexp_Match_mono positive s t Hc) as Hp.
  unfold isPositive.
  destruct (regexp_Match negative t), (regexp_Match positive t);
    try rewrite (Hn eq_refl); try rewrite (Hp eq_refl);
    destruct (regexp_Match negative s), (regexp_Match positive s);
    cbn; repeat split; intros; try discriminate; try reflexivity;
    try (specialize (Hn eq_refl)); try (specialize (Hp eq_refl));
    congruence.
Qed.

Lemma isPositive_surrounding_text_witness :
  isPositive (str "not up to date") <> (true, None).
Proof.
  apply (isPositive_surrounding_text (str "not up to date") (str "no")).
  - exists [], (str "t up to date"). reflexivity.
  - reflexivity.
Defined.

(** ** The statement depends on the token stream only *)

Lemma groups_ahead_fuel (f1 : nat) :
  forall toks (f2 : nat),
    (length toks < f1)%nat -> (length toks < f2)%nat ->
    groups_ahead f1 toks = groups_ahead f2 toks.
Proof.
  induction f1 as [| f1 IH]; intros toks f2 H1 H2; [inversion H1 |].
  destruct f2 as [| f2]; [inversion H2 |]. cbn [groups_ahead].
  destruct (group_ahead toks) as [[[[k kl] vs] |] toks'] eqn:Eg;
    [| reflexivity].
  apply group_ahead_spec in Eg. destruct Eg as (Hl & _).
  f_equal. apply IH; lia.
Qed.

Lemma Parse_groups_of_tokens (input : gostring) toks :
  tokens input = Some toks ->
  (length toks <= length input)%nat /\
  Parse (New input) =
    Some (Some (fold_left assign_group
                  (groups_ahead (S (length toks)) toks) Statement.zero),
          None).
Proof.
  intros Ht. destruct (Parse_spec input) as (toks' & gs & Ht' & _ & Egs & HP).
  rewrite Ht in Ht'. injection Ht' as <-.
  assert (Hl : (length toks <= length input)%nat).
  { apply tokens_stream, stream_length in Ht. exact Ht. }
  split; [exact Hl |]. rewrite HP, Egs.
  rewrite (groups_ahead_fuel _ toks (S (length toks))) by lia. reflexivity.
Qed.

(** X10: the statement that [Parse] returns is a function of the token
    stream: two inputs with the same tokens up to the end-of-input token
    give the same statement, whatever follows that token. *)
Theorem Parse_by_tokens (input1 input2 : gostring) toks :
  tokens input1 = Some toks -> tokens input2 = Some toks ->
  Parse (New input1) = Parse (New input2).
Proof.
  intros H1 H2.
  destruct (Parse_groups_of_tokens _ _ H1) as [_ ->].
  destruct (Parse_groups_of_tokens _ _ H2) as [_ ->]. reflexivity.
Qed.

Lemma Parse_by_tokens_witness :
  Parse (New (str "today:" ++ eof :: str "LP: ok")) =
  Parse (New (str "today:")).
Proof.
  apply (Parse_by_tokens _ _ [(TODAY, str "today"); (COLON, str ":")]);
    vm_compute; reflexivity.
Defined.

(** ** Whitespace in front of the input *)

Lemma take_run_app (keep : rune -> bool) (w l : gostring) :
  forallb (fun x => negb (x =? eof) && keep x) w = true ->
  take_run keep (w ++ l) =
    (w ++ fst (take_run keep l), snd (take_run keep l)).
Proof.
  induction w as [| c w IH]; cbn [app forallb take_run]; intros H.
  - now destruct (take_run keep l).
  - apply andb_true_iff in H. destruct H as [Hc Hw].
    apply andb_true_iff in Hc. destruct Hc as [Hc1 Hc2].
    apply negb_true_iff in Hc1. rewrite Hc1, Hc2, (IH Hw). reflexivity.
Qed.

Lemma stream_pending (s1 s2 : Scanner) toks :
  pending (Scanner_r s1) = pending (Scanner_r s2) ->
  stream s1 toks -> stream s2 toks.
Proof.
  intros H Hst. apply Scan_pending in H.
  inversion Hst as [s s' lit HS | s s' tok lit toks' HS Hne Hst']; subst;
    rewrite H in HS; [eapply stream_end | eapply stream_tok]; eassumption.
Qed.

Lemma stream_scan_pending (l : list rune) toks :
  fst (fst (scan_pending l)) <> EOF ->
  stream (NewScanner (snd (scan_pending l))) toks ->
  stream (NewScanner l)
    ((fst (fst (scan_pending l)), snd (fst (scan_pending l))) :: toks).
Proof.
  intros Hne Hst.
  destruct (Scan_pending_run (NewScanner l)) as (s' & HS & Hp).
  cbn [NewScanner bufio_NewReader pending Scanner_r] in HS, Hp.
  eapply stream_tok; [exact HS | exact Hne |].
  eapply stream_pending; [| exact Hst]. now rewrite Hp.
Qed.

Lemma group_ahead_leading_WS (l1 l2 : gostring) toks :
  group_ahead ((WS, l1) :: toks) = group_ahead ((WS, l2) :: toks).
Proof. unfold group_ahead. cbn [next_token Token_eqb]. now destruct toks as [| [t l] r]. Qed.

Lemma group_ahead_skip_WS (l1 : gostring) toks :
  match toks with
  | [] => True
  | (t, _) :: _ => t <> WS
  end ->
  group_ahead ((WS, l1) :: toks) = group_ahead toks.
Proof.
  unfold group_ahead. destruct toks as [| [t l] r]; [reflexivity |].
  intros Hne. apply Token_eqb_neq in Hne. cbn [next_token Token_eqb].
  now rewrite Hne.
Qed.

Lemma groups_ahead_same_first toks1 toks2 :
  group_ahead toks1 = group_ahead toks2 ->
  groups_ahead (S (length toks1)) toks1 =
  groups_ahead (S (length toks2)) toks2.
Proof.
  intros H. cbn [groups_ahead]. rewrite H.
  destruct (group_ahead toks2) as [[[[k kl] vs] |] toks'] eqn:Eg;
    [| reflexivity].
  pose proof (group_ahead_spec _ _ _ _ _ H) as (H1 & _).
  pose proof (group_ahead_spec _ _ _ _ _ Eg) as (H2 & _).
  f_equal. apply groups_ahead_fuel; assumption.
Qed.

Lemma Scan_WS_head (s : Scanner) (l : gostring) (s' : Scanner)
  (c : rune) (tl : list rune) :
  Scan s = Some (WS, l, s') -> pending (Scanner_r s) = c :: tl ->
  isWhitespace c = true.
Proof.
  intros HS Hp. destruct (Scan_pending_run s) as (s'' & HS' & _).
  rewrite Hp in HS'. destruct (scan_pending_head c tl) as [Hh _].
  apply Hh. rewrite HS in HS'. congruence.
Qed.

Lemma leading_whitespace_tokens (c0 : rune) (w input : gostring) toks :
  forallb isWhitespace (c0 :: w) = true ->
  match input with
  | [] => True
  | c :: _ => c <> eof
  end ->
  stream (NewScanner input) toks ->
  exists toksW,
    stream (NewScanner ((c0 :: w) ++ input)) toksW /\
    group_ahead toksW = group_ahead toks.
Proof.
  intros Hws Hhd Hst. cbn [forallb] in Hws. apply andb_true_iff in Hws.
  destruct Hws as [Hc0 Hw].
  pose proof (stream_scan_pending ((c0 :: w) ++ input)) as HW.
  cbn [app scan_pending] in HW. rewrite Hc0 in HW.
  rewrite (take_run_app _ _ _ (whitespace_not_eof _ Hw)) in HW.
  cbn [fst snd] in HW.
  destruct input as [| c tl].
  - cbn [take_run fst snd] in HW.
    exists [(WS, c0 :: w ++ [])]. split.
    + apply HW; [discriminate | now apply stream_nil].
    + assert (toks = []) as ->.
      { eapply stream_det; [exact Hst | now apply stream_nil]. }
      now apply group_ahead_skip_WS.
  - apply Z.eqb_neq in Hhd. cbn [take_run] in HW. rewrite Hhd in HW.
    destruct (isWhitespace c) eqn:Ew.
    + pose proof (stream_scan_pending (c :: tl)) as HI.
      cbn [scan_pending] in HI. rewrite Ew in HI.
      destruct (take_run isWhitespace tl) as [a' b']. cbn [fst snd] in *.
      destruct (stream_total (NewScanner b')) as (T & HT).
      exists ((WS, c0 :: w ++ c :: a') :: T). split.
      * apply HW; [discriminate | exact HT].
      * assert (toks = (WS, c :: a') :: T) as ->.
        { eapply stream_det; [exact Hst |].
          apply HI; [discriminate | exact HT]. }
        apply group_ahead_leading_WS.
    + cbn [fst snd] in HW. exists ((WS, c0 :: w ++ []) :: toks). split.
      * apply HW; [discriminate | exact Hst].
      * apply group_ahead_skip_WS. destruct toks as [| [t l] r]; [exact I |].
        destruct (stream_cons_inv _ _ _ _ Hst) as (s' & HS & _).
        intros E. subst t.
        apply (Scan_WS_head _ _ _ c tl) in HS; [congruence | reflexivity].
Qed.

(** X11: whitespace in front of the input changes nothing.  When the input
    does not begin with a NUL, [Parse] returns the same statement with and
    without a run of whitespace put before it. *)
Theorem Parse_leading_whitespace (ws input : gostring) :
  forallb isWhitespace ws = true ->
  match input with
  | [] => True
  | c :: _ => c <> eof
  end ->
  Parse (New (ws ++ input)) = Parse (New input).
Proof.
  intros Hws Hhd. destruct ws as [| c0 w]; [reflexivity |].
  destruct (stream_total (NewScanner input)) as (toks & Hst).
  destruct (leading_whitespace_tokens c0 w input toks Hws Hhd Hst)
    as (toksW & HstW & Hg).
  apply tokens_stream in Hst, HstW.
  destruct (Parse_groups_of_tokens _ _ Hst) as [_ ->].
  destruct (Parse_groups_of_tokens _ _ HstW) as [_ ->].
  now rewrite (groups_ahead_same_first _ _ Hg).
Qed.

Lemma Parse_leading_whitespace_witness :
  Parse (New ([chr "010"; chr " "] ++ str "blockers: none")) =
  Parse (New (str "blockers: none")).
Proof.
  apply (Parse_leading_whitespace [chr "010"; chr " "] (str "blockers: none")).
  - reflexivity.
  - discriminate.
Defined.

(** ** Nothing in a statement that is not in the input *)

Lemma TrimLeftFunc_incl (f : rune -> bool) (s : gostring) :
  incl (strings_TrimLeftFunc f s) s.
Proof.
  induction s as [| c s IH]; cbn; [apply incl_refl |].
  destruct (f c); [now apply incl_tl | apply incl_refl].
Qed.

Lemma TrimFunc_incl (f : rune -> bool) (s : gostring) :
  incl (strings_TrimFunc f s) s.
Proof.
  unfold strings_TrimFunc, strings_TrimRightFunc. intros x H.
  apply in_rev in H. apply TrimLeftFunc_incl in H. apply in_rev in H.
  now apply TrimLeftFunc_incl in H.
Qed.

Lemma strings_Join_cons (x y : gostring) (r : list gostring) (sep : gostring) :
  strings_Join (x :: y :: r) sep = x ++ sep ++ strings_Join (y :: r) sep.
Proof. reflexivity. Qed.

Lemma strings_Join_Split (s : gostring) (sep : rune) :
  strings_Join (strings_Split s sep) [sep] = s.
Proof.
  induction s as [| c s IH]; [reflexivity |]. cbn [strings_Split].
  pose proof (strings_Split_not_nil s sep) as Hne.
  destruct (c =? sep) eqn:E.
  - apply Z.eqb_eq in E. subst c.
    destruct (strings_Split s sep) as [| l ls]; [contradiction |].
    rewrite strings_Join_cons, IH. reflexivity.
  - destruct (strings_Split s sep) as [| l ls]; [contradiction |].
    destruct ls as [| y r].
    + cbn in *. now rewrite IH.
    + rewrite strings_Join_cons in *. rewrite <- IH. reflexivity.
Qed.

Lemma strings_Join_map_incl (g : gostring -> gostring) (sep : gostring) ps :
  (forall p, incl (g p) p) ->
  incl (strings_Join (map g ps) sep) (strings_Join ps sep).
Proof.
  intros Hg. induction ps as [| p ps IH]; [apply incl_refl |].
  cbn [map strings_Join]. destruct ps as [| q ps]; [apply Hg |].
  cbn [map] in *. intros x H. apply in_app_or in H.
  destruct H as [H | H]; [apply in_or_app; left; now apply Hg |].
  apply in_app_or in H. apply in_or_app. right. apply in_or_app.
  destruct H as [H | H]; [now left | right; now apply IH].
Qed.

Lemma splitAndTrimSpace_incl (values : list gostring) :
  incl (splitAndTrimSpace values) (concat values).
Proof.
  unfold splitAndTrimSpace. rewrite strings_Join_empty_sep.
  intros x H.
  apply (strings_Join_map_incl strings_TrimSpace) in H;
    [| intros p; apply TrimFunc_incl].
  change (str (String "010" EmptyString)) with [chr "010"] in H.
  rewrite strings_Join_Split in H. now apply TrimFunc_incl in H.
Qed.

Lemma values_ahead_origin toks :
  forall values v,
    In v (fst (values_ahead values toks)) ->
    In v values \/ v = [] \/ exists t, In (t, v) toks.
Proof.
  induction toks as [toks IH] using (well_founded_induction
    (Wf_nat.well_founded_ltof _ (@length (Token * gostring)))).
  unfold Wf_nat.ltof in IH. intros values v.
  destruct toks as [| [t l] r]; [cbn; auto |]. cbn [values_ahead].
  assert (Hstep : forall ws lit r',
             (length r' < length ((t, l) :: r))%nat ->
             (ws = [] \/ exists t0, In (t0, ws) ((t, l) :: r)) ->
             (exists t0, In (t0, lit) ((t, l) :: r)) ->
             incl r' ((t, l) :: r) ->
             In v (fst (values_ahead (values ++ [ws; lit]) r')) ->
             In v values \/ v = [] \/ exists t0, In (t0, v) ((t, l) :: r)).
  { intros ws lit r' Hlen Hws Hlit Hi H.
    apply IH in H; [| exact Hlen].
    destruct H as [H | [H | H]]; [| now right; left |]; cycle 1.
    - right. right. destruct H as (t0 & H). exists t0. now apply Hi.
    - apply in_app_or in H. destruct H as [H | [<- | [<- | []]]];
        [now left | | now do 2 right].
      destruct Hws as [-> | Hws]; [right; now left | now do 2 right]. }
  assert (Hskip : forall r',
             (length r' < length ((t, l) :: r))%nat ->
             incl r' ((t, l) :: r) ->
             In v (fst (values_ahead values r')) ->
             In v values \/ v = [] \/ exists t0, In (t0, v) ((t, l) :: r)).
  { intros r' Hlen Hi H. apply IH in H; [| exact Hlen].
    destruct H as [H | [H | (t0 & H)]]; [now left | now right; left |].
    right. right. exists t0. now apply Hi. }
  destruct (Token_eqb t WS).
  - destruct r as [| [t' l'] r']; [cbn; auto |].
    destruct (isKeyword t' || Token_eqb t' EOF); [cbn; auto |].
    destruct (Token_eqb t' IDENT || Token_eqb t' COLON).
    + apply Hstep; [simpl; lia | right; exists t; now left
                   | exists t'; right; now left
                   | do 2 apply incl_tl; apply incl_refl].
    + apply Hskip; [simpl; lia | do 2 apply incl_tl; apply incl_refl].
  - destruct (isKeyword t || Token_eqb t EOF); [cbn; auto |].
    destruct (Token_eqb t IDENT || Token_eqb t COLON).
    + apply Hstep; [simpl; lia | now left | exists t; now left
                   | apply incl_tl, incl_refl].
    + apply Hskip; [simpl; lia | apply incl_tl, incl_refl].
Qed.

Lemma group_ahead_values_origin toks key keyLit values toks' :
  group_ahead toks = (Some (key, keyLit, values), toks') ->
  forall v, In v values -> v = [] \/ exists t, In (t, v) toks.
Proof.
  unfold group_ahead.
  pose proof (next_token_spec toks) as H.
  destruct (next_token toks) as [[[[t l] w] after] back].
  destruct H as (_ & Hi & Hb).
  destruct (Token_eqb t EOF) eqn:Et; [discriminate |].
  apply Token_eqb_neq in Et. specialize (Hb Et).
  assert (Hafter : incl after toks).
  { eapply incl_tran; [| exact Hi]. rewrite Hb. apply incl_tl, incl_refl. }
  assert (Hgen : forall toks2 k kl,
             incl toks2 toks ->
             (let '(col, _, _, after3, back3) := next_token toks2 in
              let toks4 := if negb (Token_eqb col COLON) then back3
                           else after3 in
              let '(vs, toks5) := values_ahead [] toks4 in
              (Some (k, kl, vs), toks5)) =
             (Some (key, keyLit, values), toks') ->
             forall v, In v values -> v = [] \/ exists t0, In (t0, v) toks).
  { intros toks2 k kl Hi2. pose proof (skip_colon_spec toks2) as H4.
    destruct (next_token toks2) as [[[[col l3] w3] after3] back3].
    cbn zeta in *. destruct H4 as (_ & Hi4).
    set (toks4 := if negb (Token_eqb col COLON) then back3 else after3) in *.
    pose proof (values_ahead_origin toks4 []) as Ho.
    destruct (values_ahead [] toks4) as [vs toks5]. cbn [fst] in Ho.
    intros E v Hv. injection E as _ _ <- _.
    destruct (Ho v Hv) as [[] | [H | (t0 & H)]]; [now left |].
    right. exists t0. apply Hi2, Hi4, H. }
  destruct (isKeyword t); cbn [negb].
  - apply Hgen. exact Hafter.
  - apply Hgen. exact Hi.
Qed.

Lemma groups_ahead_values_origin toks0 (fuel : nat) :
  forall toks,
    incl toks toks0 ->
    forall key keyLit values,
      In (key, keyLit, values) (groups_ahead fuel toks) ->
      forall v, In v values -> v = [] \/ exists t, In (t, v) toks0.
Proof.
  induction fuel as [| fuel IH]; intros toks Hi key keyLit values Hg;
    [destruct Hg |].
  cbn [groups_ahead] in Hg.
  destruct (group_ahead toks) as [[[[k kl] vs] |] toks'] eqn:Eg;
    [| destruct Hg].
  destruct Hg as [E | Hg].
  - injection E as <- <- <-. intros v Hv.
    destruct (group_ahead_values_origin _ _ _ _ _ Eg v Hv) as [H | (t & H)];
      [now left | right; exists t; now apply Hi].
  - apply group_ahead_spec in Eg. destruct Eg as (_ & Hi' & _).
    apply (IH toks' (incl_tran Hi' Hi) key keyLit values Hg).
Qed.

Lemma stream_literal_incl (s : Scanner) toks :
  stream s toks ->
  forall t l, In (t, l) toks -> incl l (pending (Scanner_r s)).
Proof.
  induction 1 as [s s' lit HS | s s' tok lit toks HS Hne Hst IH];
    intros t l Hin; [destruct Hin |].
  destruct (Scan_spec s) as (tok' & lit' & s2 & HS2 & Hcons & _).
  rewrite HS in HS2. injection HS2 as <- <- <-.
  destruct Hcons as [Hc _]. destruct Hin as [E | Hin].
  - injection E as <- <-. intros x Hx.
    destruct Hc as [-> | ->]; apply in_or_app; now left.
  - intros x Hx. apply (IH _ _ Hin) in Hx.
    destruct Hc as [-> | ->]; apply in_or_app; right;
      [exact Hx | now right].
Qed.

Lemma slot_Parse_assign_text (K : Token) keyLit values stmt f :
  slot K (Parse_assign K keyLit values stmt) = Some f ->
  field_text f = splitAndTrimSpace values.
Proof.
  destruct stmt as [y t m b l j]. unfold Parse_assign.
  destruct (isPositive (splitAndTrimSpace values)) as [val err].
  destruct K; cbn; intros E; try discriminate E; injection E as <-;
    reflexivity.
Qed.

(** X12: the parser fabricates no content.  In the statement that [Parse]
    returns, every rune of the key of a field, of the value of a text field
    and of the literal of a flag field is a rune of the input. *)
Theorem no_fabricated_text (input : gostring) (stmt : Statement.t)
  (K : Token) (f : Field) :
  Parse (New input) = Some (Some stmt, None) ->
  slot K stmt = Some f ->
  incl (field_key f) input /\ incl (field_text f) input.
Proof.
  intros HP Hf.
  destruct (Parse_spec input) as (toks & gs & Ht & _ & Egs & HP').
  rewrite HP in HP'. injection HP' as ->.
  apply tokens_stream in Ht.
  assert (Hlit : forall t l, In (t, l) toks -> incl l input).
  { intros t l Hin. exact (stream_literal_incl _ _ Ht t l Hin). }
  assert (Hgs : forall key keyLit values,
             In (key, keyLit, values) gs ->
             incl keyLit input /\ incl (splitAndTrimSpace values) input).
  { intros key keyLit values Hin. rewrite Egs in Hin. split.
    - destruct (groups_ahead_origin toks _ toks (incl_refl _) _ _ _ Hin)
        as [_ [-> | Ho]]; [apply incl_nil_l | eapply Hlit; exact Ho].
    - intros x Hx. apply splitAndTrimSpace_incl, in_concat in Hx.
      destruct Hx as (v & Hv & Hx).
      destruct (groups_ahead_values_origin toks _ toks (incl_refl _)
                  _ _ _ Hin v Hv) as [-> | (t & Ho)]; [destruct Hx |].
      exact (Hlit t v Ho x Hx). }
  clear Egs HP. revert K f Hf.
  assert (Hfold : forall gs' st,
             (forall key keyLit values,
                In (key, keyLit, values) gs' ->
                incl keyLit input /\ incl (splitAndTrimSpace values) input) ->
             (forall K f, slot K st = Some f ->
                          incl (field_key f) input /\
                          incl (field_text f) input) ->
             forall K f, slot K (fold_left assign_group gs' st) = Some f ->
                         incl (field_key f) input /\
                         incl (field_text f) input).
  { induction gs' as [| [[key keyLit] values] gs' IH]; intros st Hg Hs;
      [exact Hs |].
    cbn [fold_left assign_group]. apply IH.
    - intros k kl vs Hin. apply (Hg k kl vs). now right.
    - intros K f Hf. destruct (Token_eqb K key) eqn:E.
      + apply Token_eqb_eq in E. subst K.
        rewrite (slot_Parse_assign_key _ _ _ _ _ Hf).
        rewrite (slot_Parse_assign_text _ _ _ _ _ Hf).
        apply (Hg key keyLit values). now left.
      + apply Token_eqb_neq in E.
        rewrite slot_Parse_assign_other in Hf by exact E.
        now apply (Hs K f). }
  intros K f Hf. apply (Hfold gs Statement.zero Hgs) with (K := K);
    [| exact Hf].
  intros K0 f0 Hf0.
  destruct K0; try discriminate Hf0; injection Hf0 as <-;
    split; apply incl_nil_l.
Qed.

Lemma no_fabricated_text_witness :
  incl (str "Friday") (str "Friday: ibm, slack") /\
  incl (str "ibm, slack") (str "Friday: ibm, slack").
Proof.
  apply (no_fabricated_text (str "Friday: ibm, slack")
           {| Statement.Yesterday :=
                StringField.mk (str "Friday") (str "ibm, slack") true;
              Statement.Today := StringField.zero;
              Statement.Meetings := StringField.zero;
              Statement.Blockers := StringField.zero;
              Statement.LP := BoolField.zero;
              Statement.Jira := BoolField.zero |}
           YESTERDAY
           (TextField (StringField.mk (str "Friday") (str "ibm, slack") true))).
  - vm_compute. reflexivity.
  - reflexivity.
Defined.

(** ** Keywords in decoration *)

Lemma TrimLeftFunc_app_all (f : rune -> bool) (d x : gostring) :
  forallb f d = true ->
  strings_TrimLeftFunc f (d ++ x) = strings_TrimLeftFunc f x.
Proof.
  induction d as [| c d IH]; cbn; [reflexivity |].
  intros H. apply andb_true_iff in H. destruct H as [Hc Hd].
  rewrite Hc. now apply IH.
Qed.

Lemma TrimLeftFunc_app_keep (f : rune -> bool) (x y : gostring) :
  strings_TrimLeftFunc f x <> [] ->
  strings_TrimLeftFunc f (x ++ y) = strings_TrimLeftFunc f x ++ y.
Proof.
  induction x as [| c x IH]; cbn; [congruence |].
  destruct (f c); [exact IH | reflexivity].
Qed.

Lemma TrimRightFunc_app_all (f : rune -> bool) (x d : gostring) :
  forallb f d = true ->
  strings_TrimRightFunc f (x ++ d) = strings_TrimRightFunc f x.
Proof.
  intros H. unfold strings_TrimRightFunc. rewrite rev_app_distr.
  rewrite TrimLeftFunc_app_all; [reflexivity | now rewrite forallb_rev].
Qed.

(** Runes of [f] around a text do not change what trimming leaves. *)
Lemma TrimFunc_absorb (f : rune -> bool) (d1 x d2 : gostring) :
  forallb f d1 = true -> forallb f d2 = true ->
  strings_TrimFunc f (d1 ++ x ++ d2) = strings_TrimFunc f x.
Proof.
  intros H1 H2. unfold strings_TrimFunc.
  rewrite TrimLeftFunc_app_all by exact H1.
  destruct (strings_TrimLeftFunc f x) as [| c t] eqn:E.
  - apply TrimLeftFunc_nil in E.
    assert (E' : strings_TrimLeftFunc f (x ++ d2) = []).
    { apply TrimLeftFunc_nil. rewrite forallb_app. now rewrite E, H2. }
    now rewrite E'.
  - rewrite TrimLeftFunc_app_keep by (rewrite E; discriminate).
    rewrite E. now apply TrimRightFunc_app_all.
Qed.

Lemma TrimLeftFunc_length (f : rune -> bool) (s : gostring) :
  strings_TrimLeftFunc f s = s \/
  (length (strings_TrimLeftFunc f s) < length s)%nat.
Proof.
  induction s as [| c s IH]; cbn; [now left |].
  destruct (f c); [right | now left].
  destruct IH as [-> | IH]; lia.
Qed.

Lemma TrimRightFunc_length (f : rune -> bool) (s : gostring) :
  strings_TrimRightFunc f s = s \/
  (length (strings_TrimRightFunc f s) < length s)%nat.
Proof.
  unfold strings_TrimRightFunc.
  destruct (TrimLeftFunc_length f (rev s)) as [E | H].
  - left. now rewrite E, rev_involutive.
  - right. rewrite length_rev in *. exact H.
Qed.

(** A text that trimming leaves as it is has nothing to trim at either
    end. *)
Lemma TrimFunc_fixed (f : rune -> bool) (s : gostring) :
  strings_TrimFunc f s = s ->
  strings_TrimLeftFunc f s = s /\ strings_TrimRightFunc f s = s.
Proof.
  unfold strings_TrimFunc. intros H.
  destruct (TrimLeftFunc_length f s) as [E | Hl].
  - rewrite E in H. now split.
  - exfalso.
    destruct (TrimRightFunc_length f (strings_TrimLeftFunc f s)) as [E | Hr];
      rewrite H in *; [rewrite <- E in Hl | ]; lia.
Qed.

Lemma TrimFunc_length (f : rune -> bool) (s : gostring) :
  strings_TrimFunc f s = s \/ (length (strings_TrimFunc f s) < length s)%nat.
Proof.
  unfold strings_TrimFunc.
  destruct (TrimLeftFunc_length f s) as [E | Hl];
    destruct (TrimRightFunc_length f (strings_TrimLeftFunc f s)) as [E' | Hr].
  - left. now rewrite E', E.
  - right. rewrite E in *. exact Hr.
  - right. rewrite E'. exact Hl.
  - right. lia.
Qed.

Lemma TrimLeftFunc_fixed_iff (f : rune -> bool) (s : gostring) :
  strings_TrimLeftFunc f s = s <-> starts_outside f s.
Proof.
  destruct s as [| c s]; cbn; [tauto |].
  destruct (f c) eqn:E; split; intros H; try congruence.
  exfalso. pose proof (TrimLeftFunc_incl f s) as Hi.
  destruct (TrimLeftFunc_length f s) as [E' | Hl];
    rewrite H in *; [| simpl in Hl; lia].
  apply (f_equal (@length rune)) in E'. simpl in E'. lia.
Qed.

Lemma starts_outside_app (f : rune -> bool) (a b : gostring) :
  starts_outside f a -> starts_outside f b -> starts_outside f (a ++ b).
Proof. destruct a; cbn; auto. Qed.

Lemma space_not_decoration (c : rune) :
  unicode_IsSpace c = true -> decoration c = false.
Proof.
  intros H. unfold decoration. cbn.
  destruct (c =? 95) eqn:E1;
    [apply Z.eqb_eq in E1; subst c; discriminate H |].
  destruct (c =? 42) eqn:E2;
    [apply Z.eqb_eq in E2; subst c; discriminate H |].
  destruct (c =? 45) eqn:E3;
    [apply Z.eqb_eq in E3; subst c; discriminate H |].
  destruct (c =? 43) eqn:E4;
    [apply Z.eqb_eq in E4; subst c; discriminate H |].
  destruct (c =? 62) eqn:E5;
    [apply Z.eqb_eq in E5; subst c; discriminate H |].
  reflexivity.
Qed.

Lemma spaces_start_outside (sp : gostring) :
  forallb unicode_IsSpace sp = true -> starts_outside decoration sp.
Proof.
  destruct sp as [| c sp]; cbn; [auto |]. intros H.
  apply andb_true_iff in H. destruct H as [H _].
  now apply space_not_decoration.
Qed.

Lemma normalized_wrapped (u d1 sp1 sp2 d2 : gostring) :
  strings_TrimSpace (strings_TrimFunc decoration u) = u ->
  forallb decoration d1 = true -> forallb unicode_IsSpace sp1 = true ->
  forallb unicode_IsSpace sp2 = true -> forallb decoration d2 = true ->
  strings_TrimSpace
    (strings_TrimFunc decoration (d1 ++ sp1 ++ u ++ sp2 ++ d2)) = u.
Proof.
  intros Hu Hd1 Hs1 Hs2 Hd2. unfold strings_TrimSpace in *.
  assert (Hdeco : strings_TrimFunc decoration u = u).
  { destruct (TrimFunc_length decoration u) as [E | Hl]; [exact E |].
    exfalso.
    destruct (TrimFunc_length unicode_IsSpace (strings_TrimFunc decoration u))
      as [E | Hl']; rewrite Hu in *; [rewrite <- E in Hl |]; lia. }
  rewrite Hdeco in Hu.
  destruct (TrimFunc_fixed _ _ Hdeco) as [HLd HRd].
  replace (d1 ++ sp1 ++ u ++ sp2 ++ d2) with (d1 ++ (sp1 ++ u ++ sp2) ++ d2)
    by (now rewrite <- !app_assoc).
  rewrite TrimFunc_absorb by assumption.
  assert (Hfix : strings_TrimFunc decoration (sp1 ++ u ++ sp2) =
                 sp1 ++ u ++ sp2).
  { unfold strings_TrimFunc.
    assert (HL : strings_TrimLeftFunc decoration (sp1 ++ u ++ sp2) =
                 sp1 ++ u ++ sp2).
    { apply TrimLeftFunc_fixed_iff.
      apply starts_outside_app; [now apply spaces_start_outside |].
      apply starts_outside_app; [now apply TrimLeftFunc_fixed_iff |].
      now apply spaces_start_outside. }
    rewrite HL. unfold strings_TrimRightFunc.
    assert (HR : strings_TrimLeftFunc decoration (rev (sp1 ++ u ++ sp2)) =
                 rev (sp1 ++ u ++ sp2)).
    { apply TrimLeftFunc_fixed_iff. rewrite !rev_app_distr, <- app_assoc.
      apply starts_outside_app;
        [apply spaces_start_outside; now rewrite forallb_rev |].
      apply starts_outside_app;
        [| apply spaces_start_outside; now rewrite forallb_rev].
      apply TrimLeftFunc_fixed_iff. unfold strings_TrimRightFunc in HRd.
      apply (f_equal (@rev rune)) in HRd.
      now rewrite rev_involutive in HRd. }
    now rewrite HR, rev_involutive. }
  rewrite Hfix. now rewrite TrimFunc_absorb.
Qed.

(** X13: keywords are recognised whatever their case and decoration.  When
    the upper-cased literal of a word is a text wrapped in optional
    whitespace and, outside it, optional decoration runes ([_*-+>]), and
    the upper-cased text has itself nothing to trim, the kind of the token
    is the entry of the upper-cased text in the keyword table. *)
Theorem keyword_in_decoration (s : Scanner) (tok : Token) (lit : gostring)
  (s' : Scanner) (w d1 sp1 sp2 d2 : gostring) :
  Scan s = Some (tok, lit, s') ->
  tok <> EOF -> tok <> WS -> tok <> COLON ->
  normalized w = strings_ToUpper w ->
  forallb decoration d1 = true -> forallb unicode_IsSpace sp1 = true ->
  forallb unicode_IsSpace sp2 = true -> forallb decoration d2 = true ->
  strings_ToUpper lit = d1 ++ sp1 ++ strings_ToUpper w ++ sp2 ++ d2 ->
  tok = keyword_of (strings_ToUpper w).
Proof.
  intros HS H1 H2 H3 Hw Hd1 Hs1 Hs2 Hd2 Hlit.
  destruct (Scan_pending_run s) as (s'' & HS' & _).
  rewrite HS in HS'. injection HS' as E1 E2 _.
  pose proof (Scan_shape_pending (pending (Scanner_r s))) as H.
  rewrite <- E1, <- E2 in H.
  assert (Hk : tok = keyword_of (normalized lit))
    by (destruct tok; try congruence; now destruct H as (_ & _ & H)).
  rewrite Hk. f_equal. unfold normalized, strings_Trim in *.
  change (fun c : rune => existsb (Z.eqb c) (str "_*-+>")) with decoration
    in *.
  rewrite Hlit. now apply normalized_wrapped.
Qed.

Lemma keyword_in_decoration_witness :
  MEETINGS = keyword_of (strings_ToUpper (str "meetings")).
Proof.
  apply (keyword_in_decoration (NewScanner (str "- Meetings: none")) MEETINGS
           (str "- Meetings") (mkScanner (mkReader (str ": none") None))
           (str "meetings") (str "-") (str " ") [] []);
    try discriminate; vm_compute; reflexivity.
Defined.

(** ** Normalising a value twice *)

Lemma strings_Split_no_sep (s : gostring) (sep : rune) :
  ~ In sep s -> strings_Split s sep = [s].
Proof.
  induction s as [| c s IH]; [reflexivity |]. intros Hn. cbn.
  destruct (c =? sep) eqn:E.
  - apply Z.eqb_eq in E. exfalso. apply Hn. now left.
  - rewrite IH; [reflexivity |]. intros H. apply Hn. now right.
Qed.

Lemma strings_Split_app (x rest : gostring) (sep : rune) :
  ~ In sep x ->
  strings_Split (x ++ sep :: rest) sep = x :: strings_Split rest sep.
Proof.
  induction x as [| c x IH]; intros Hn; cbn.
  - now rewrite Z.eqb_refl.
  - destruct (c =? sep) eqn:E.
    + apply Z.eqb_eq in E. exfalso. apply Hn. now left.
    + rewrite IH; [reflexivity |]. intros H. apply Hn. now right.
Qed.

Lemma strings_Split_Join (ps : list gostring) (sep : rune) :
  ps <> [] -> (forall p, In p ps -> ~ In sep p) ->
  strings_Split (strings_Join ps [sep]) sep = ps.
Proof.
  induction ps as [| p ps IH]; intros Hne Hp; [congruence |].
  destruct ps as [| q ps].
  - cbn. apply strings_Split_no_sep. apply Hp. now left.
  - rewrite strings_Join_cons. cbn [app].
    rewrite strings_Split_app by (apply Hp; now left).
    f_equal. apply IH; [discriminate |]. intros p' H. apply Hp. now right.
Qed.

Lemma strings_Split_pieces (s : gostring) (sep : rune) :
  forall p, In p (strings_Split s sep) -> ~ In sep p.
Proof.
  induction s as [| c s IH]; intros p; cbn.
  - intros [<- | []]. auto.
  - pose proof (strings_Split_not_nil s sep) as Hne.
    destruct (c =? sep) eqn:E.
    + intros [<- | H]; [auto | now apply IH].
    + destruct (strings_Split s sep) as [| l ls]; [contradiction |].
      apply Z.eqb_neq in E. intros [<- | H].
      * intros [H | H]; [congruence |]. revert H. apply IH. now left.
      * apply IH. now right.
Qed.

(** The first piece of a joined text decides how the text begins. *)
Lemma Join_map_starts_outside (f : rune -> bool) (g : gostring -> gostring)
  (sep : rune) (ls : list gostring) :
  f sep = true ->
  (forall l, g l = [] -> forallb f l = true) ->
  (forall l, starts_outside f (g l)) ->
  starts_outside f (strings_Join ls [sep]) ->
  starts_outside f (strings_Join (map g ls) [sep]).
Proof.
  intros Hsep Hnil Hout Hval. destruct ls as [| l1 ls]; [exact I |].
  destruct ls as [| l2 ls]; [apply Hout |].
  cbn [map]. rewrite strings_Join_cons in *.
  destruct (g l1) as [| c t] eqn:E.
  - exfalso. apply Hnil in E. destruct l1 as [| c1 l1].
    + cbn in Hval. congruence.
    + cbn in Hval, E. rewrite Hval in E. discriminate E.
  - specialize (Hout l1). rewrite E in Hout. exact Hout.
Qed.

Lemma strings_Join_snoc (ps : list gostring) (p sep : gostring) :
  ps <> [] ->
  strings_Join (ps ++ [p]) sep = strings_Join ps sep ++ sep ++ p.
Proof.
  induction ps as [| q ps IH]; intros Hne; [congruence |].
  destruct ps as [| q' ps]; [reflexivity |].
  change ((q :: q' :: ps) ++ [p]) with (q :: (q' :: ps) ++ [p]).
  cbn [app]. rewrite !strings_Join_cons.
  change (q' :: ps ++ [p]) with ((q' :: ps) ++ [p]).
  rewrite IH by discriminate. now rewrite <- !app_assoc.
Qed.

Lemma rev_strings_Join (ps : list gostring) (sep : rune) :
  rev (strings_Join ps [sep]) = strings_Join (map (@rev rune) (rev ps)) [sep].
Proof.
  induction ps as [| p ps IH]; [reflexivity |].
  destruct ps as [| q ps]; [reflexivity |].
  rewrite strings_Join_cons.
  change (rev (p :: q :: ps)) with (rev (q :: ps) ++ [p]).
  rewrite map_app. cbn [map]. rewrite strings_Join_snoc.
  - rewrite !rev_app_distr. cbn [rev app]. rewrite IH, <- app_assoc.
    reflexivity.
  - intros E. apply map_eq_nil in E. cbn [rev] in E.
    now apply app_eq_nil in E as [_ E].
Qed.

Lemma TrimFunc_starts_outside (f : rune -> bool) (s : gostring) :
  starts_outside f (strings_TrimFunc f s) /\
  starts_outside f (rev (strings_TrimFunc f s)).
Proof.
  destruct (TrimFunc_trimmed f s) as [Hl Hr]. split.
  - now apply TrimLeftFunc_fixed_iff.
  - apply TrimLeftFunc_fixed_iff. unfold strings_TrimRightFunc in Hr.
    apply (f_equal (@rev rune)) in Hr. now rewrite rev_involutive in Hr.
Qed.

Lemma TrimFunc_of_trimmed (f : rune -> bool) (s : gostring) :
  starts_outside f s -> starts_outside f (rev s) ->
  strings_TrimFunc f s = s.
Proof.
  intros Hl Hr. apply TrimLeftFunc_fixed_iff in Hl, Hr.
  unfold strings_TrimFunc, strings_TrimRightFunc.
  now rewrite Hl, Hr, rev_involutive.
Qed.

Lemma splitAndTrimSpace_lines (values : list gostring) :
  strings_Split (splitAndTrimSpace values) (chr "010") =
  map strings_TrimSpace
    (strings_Split (strings_TrimSpace (concat values)) (chr "010")).
Proof.
  unfold splitAndTrimSpace. rewrite strings_Join_empty_sep.
  change (str (String "010" EmptyString)) with [chr "010"].
  apply strings_Split_Join.
  - intros E. apply map_eq_nil in E. revert E. apply strings_Split_not_nil.
  - intros p Hp. apply in_map_iff in Hp. destruct Hp as (l & <- & Hl).
    intros H. apply TrimFunc_incl in H.
    exact (strings_Split_pieces _ _ l Hl H).
Qed.

Lemma splitAndTrimSpace_trimmed (values : list gostring) :
  strings_TrimSpace (splitAndTrimSpace values) = splitAndTrimSpace values.
Proof.
  unfold splitAndTrimSpace. rewrite strings_Join_empty_sep.
  change (str (String "010" EmptyString)) with [chr "010"].
  set (val := strings_TrimSpace (concat values)).
  destruct (TrimFunc_starts_outside unicode_IsSpace (concat values))
    as [Hl Hr].
  fold (strings_TrimSpace (concat values)) in Hl, Hr. fold val in Hl, Hr.
  apply TrimFunc_of_trimmed.
  - apply Join_map_starts_outside; try reflexivity.
    + intros l E. now apply TrimFunc_nil.
    + intros l. apply TrimFunc_starts_outside.
    + now rewrite strings_Join_Split.
  - rewrite rev_strings_Join, <- map_rev, map_map.
    rewrite (map_ext _ (fun x => rev (strings_TrimSpace (rev (rev x)))))
      by (intros x; now rewrite rev_involutive).
    rewrite <- (map_map (@rev rune)
                  (fun y => rev (strings_TrimSpace (rev y)))).
    apply Join_map_starts_outside; try reflexivity.
    + intros l E. apply (f_equal (@rev rune)) in E.
      rewrite rev_involutive in E. cbn in E. apply TrimFunc_nil in E.
      now rewrite forallb_rev in E.
    + intros l. apply TrimFunc_starts_outside.
    + pose proof (rev_strings_Join (strings_Split val (chr "010"))
                    (chr "010")) as E.
      rewrite strings_Join_Split in E. rewrite E in Hr. exact Hr.
Qed.

Lemma splitAndTrimSpace_again (values : list gostring) :
  splitAndTrimSpace [splitAndTrimSpace values] = splitAndTrimSpace values.
Proof.
  unfold splitAndTrimSpace at 1. cbn [strings_Join].
  rewrite splitAndTrimSpace_trimmed, splitAndTrimSpace_lines, map_map.
  rewrite (map_ext _ strings_TrimSpace) by (intros x; apply TrimFunc_idem).
  unfold splitAndTrimSpace. now rewrite strings_Join_empty_sep.
Qed.

(** X14: normalising a value a second time changes nothing.  The value that
    [splitAndTrimSpace] returns has no whitespace at its ends and none at
    the ends of any of its lines, and [splitAndTrimSpace] applied to it
    returns it again. *)
Theorem splitAndTrimSpace_idempotent (values : list gostring) :
  strings_TrimSpace (splitAndTrimSpace values) = splitAndTrimSpace values /\
  (forall line,
     In line (strings_Split (splitAndTrimSpace values) (chr "010")) ->
     strings_TrimSpace line = line) /\
  splitAndTrimSpace [splitAndTrimSpace values] = splitAndTrimSpace values.
Proof.
  split; [apply splitAndTrimSpace_trimmed |]. split.
  - intros line H. rewrite splitAndTrimSpace_lines in H.
    apply in_map_iff in H. destruct H as (l & <- & _). apply TrimFunc_idem.
  - apply splitAndTrimSpace_again.
Qed.

Lemma fold_assign_texts gs :
  forall stmt,
    (forall K f, slot K stmt = Some f ->
                 exists values, field_text f = splitAndTrimSpace values) ->
    forall K f, slot K (fold_left assign_group gs stmt) = Some f ->
                exists values, field_text f = splitAndTrimSpace values.
Proof.
  induction gs as [| [[key keyLit] values] gs IH]; intros stmt Hs;
    [exact Hs |].
  cbn [fold_left assign_group]. apply IH.
  intros K f Hf. destruct (Token_eqb K key) eqn:E.
  - apply Token_eqb_eq in E. subst K. exists values.
    eapply slot_Parse_assign_text. exact Hf.
  - apply Token_eqb_neq in E.
    rewrite slot_Parse_assign_other in Hf by exact E. now apply (Hs K f).
Qed.

(** X15: the texts of a returned statement are normalised.  The value of
    every text field and the literal of every flag field has no whitespace
    at its ends nor at the ends of any of its lines, so normalising it again
    returns it unchanged. *)
Theorem Parse_texts_normalized (input : gostring) (stmt : Statement.t)
  (K : Token) (f : Field) :
  Parse (New input) = Some (Some stmt, None) ->
  slot K stmt = Some f ->
  strings_TrimSpace (field_text f) = field_text f /\
  (forall line,
     In line (strings_Split (field_text f) (chr "010")) ->
     strings_TrimSpace line = line) /\
  splitAndTrimSpace [field_text f] = field_text f.
Proof.
  intros HP Hf. destruct (Parse_spec input) as (toks & gs & _ & _ & _ & HP').
  rewrite HP in HP'. injection HP' as ->.
  destruct (fold_assign_texts gs Statement.zero) with (K := K) (f := f)
    as (values & ->); [| exact Hf |].
  - intros K0 f0 H0. exists [].
    destruct K0; try discriminate H0; injection H0 as <-; reflexivity.
  - split; [apply splitAndTrimSpace_trimmed |]. split.
    + intros line H. rewrite splitAndTrimSpace_lines in H.
      apply in_map_iff in H. destruct H as (l & <- & _). apply TrimFunc_idem.
    + apply splitAndTrimSpace_again.
Qed.

Lemma Parse_texts_normalized_witness :
  splitAndTrimSpace [str "ibm, slack"] = str "ibm, slack".
Proof.
  apply (Parse_texts_normalized (str "Friday:   ibm, slack  ")
           {| Statement.Yesterday :=
                StringField.mk (str "Friday") (str "ibm, slack") true;
              Statement.Today := StringField.zero;
              Statement.Meetings := StringField.zero;
              Statement.Blockers := StringField.zero;
              Statement.LP := BoolField.zero;
              Statement.Jira := BoolField.zero |}
           YESTERDAY
           (TextField (StringField.mk (str "Friday") (str "ibm, slack") true))).
  - vm_compute. reflexivity.
  - reflexivity.
Defined.

(** ** Answers in upper case *)

Lemma indicator_absent (s w : gostring) :
  (forall c, In c s -> lower_or_one c = false) ->
  contains s w ->
  match w with
  | [] => False
  | c :: _ => lower_or_one c = true
  end ->
  False.
Proof.
  intros Hno (a & b & ->) Hw. destruct w as [| c t]; [exact Hw |].
  rewrite Hno in Hw; [discriminate Hw |].
  apply in_or_app. right. now left.
Qed.

(** X16: the indicators of [isPositive] are compared as they are written,
    in lower case.  A text that holds no lower-case ASCII letter and no
    digit 1 (["YES"], ["DONE"], ["NO"]) matches neither pattern and is
    classified as unclear. *)
Theorem isPositive_upper_case (s : gostring) :
  forallb (fun c => negb (lower_or_one c)) s = true ->
  isPositive s = (true, Some (errors_New (str "unclear"))).
Proof.
  intros H.
  assert (Hno : forall c, In c s -> lower_or_one c = false).
  { intros c Hc. rewrite forallb_forall in H. apply H in Hc.
    now apply negb_true_iff in Hc. }
  assert (Hn : regexp_Match negative s = false).
  { destruct (regexp_Match negative s) eqn:E; [| reflexivity].
    exfalso. apply negative_Match_spec in E. destruct E as (w & Hw & Hc).
    unfold negative_words in Hw. cbn [In] in Hw.
    destruct Hw as [<- | [<- | [<- | [<- | []]]]];
      exact (indicator_absent _ _ Hno Hc eq_refl). }
  assert (Hp : regexp_Match positive s = false).
  { destruct (regexp_Match positive s) eqn:E; [| reflexivity].
    exfalso. apply positive_Match_spec in E.
    destruct E as (m & [Hw | Hu] & Hc).
    - unfold positive_words in Hw. cbn [In] in Hw.
      destruct Hw as [<- | [<- | [<- | [<- | [<- | [<- | [<- | []]]]]]]];
        exact (indicator_absent _ _ Hno Hc eq_refl).
    - destruct Hu as (sp1 & sp2 & -> & _).
      exact (indicator_absent _ _ Hno Hc eq_refl). }
  unfold isPositive. now rewrite Hn, Hp.
Qed.

Lemma isPositive_upper_case_witness :
  isPositive (str "YES") = (true, Some (errors_New (str "unclear"))).
Proof. apply (isPositive_upper_case (str "YES")). reflexivity. Defined.

(** ** A colon between two texts *)

Lemma take_run_colon (keep : rune -> bool) (l y : list rune) :
  ~ In eof l -> keep (chr ":") = false ->
  take_run keep (l ++ chr ":" :: y) =
    (fst (take_run keep l), snd (take_run keep l) ++ chr ":" :: y).
Proof.
  intros Hn Hk. induction l as [| c l IH]; cbn [app take_run].
  - change (chr ":" =? eof) with false. now rewrite Hk.
  - destruct (c =? eof) eqn:Ec.
    + apply Z.eqb_eq in Ec. exfalso. apply Hn. now left.
    + destruct (keep c); [| reflexivity].
      rewrite IH by (intros H; apply Hn; now right).
      now destruct (take_run keep l).
Qed.

Lemma scan_pending_colon (l y : list rune) :
  l <> [] -> ~ In eof l ->
  scan_pending (l ++ chr ":" :: y) =
    (fst (fst (scan_pending l)), snd (fst (scan_pending l)),
     snd (scan_pending l) ++ chr ":" :: y).
Proof.
  intros Hne Hn. destruct l as [| c l]; [congruence |].
  assert (Hn' : ~ In eof l) by (intros H; apply Hn; now right).
  cbn [app scan_pending]. destruct (isWhitespace c).
  - rewrite take_run_colon by (assumption || reflexivity).
    now destruct (take_run isWhitespace l).
  - destruct (c =? eof) eqn:Ec.
    + apply Z.eqb_eq in Ec. exfalso. apply Hn. now left.
    + destruct (c =? chr ":"); [reflexivity |].
      rewrite take_run_colon by (assumption || reflexivity).
      now destruct (take_run word_rune l).
Qed.

Lemma stream_colon (s : Scanner) toks :
  stream s toks ->
  forall (s2 : Scanner) (y : gostring) toksy,
    ~ In eof (pending (Scanner_r s)) ->
    pending (Scanner_r s2) = pending (Scanner_r s) ++ chr ":" :: y ->
    stream (NewScanner y) toksy ->
    stream s2 (toks ++ (COLON, str ":") :: toksy).
Proof.
  induction 1 as [s s' lit HS | s s' tok lit toks HS Hne Hst IH];
    intros s2 y toksy Hn Hp Hy.
  - destruct (Scan_spec s) as (tok' & lit' & s1 & HS1 & _ & _ & Hend).
    rewrite HS in HS1. injection HS1 as <- <- <-.
    destruct (Hend eq_refl) as [E | E];
      [| exfalso; apply Hn; rewrite E; now left].
    rewrite E in Hp. cbn [app] in Hp.
    destruct (Scan_pending_run s2) as (s3 & HS3 & Hp3).
    rewrite Hp in HS3, Hp3. cbn in HS3, Hp3.
    eapply stream_tok; [exact HS3 | discriminate |].
    eapply stream_pending; [| exact Hy]. now rewrite Hp3.
  - destruct (Scan_pending_run s) as (s1 & HS1 & Hp1).
    rewrite HS in HS1. injection HS1 as Et El <-.
    destruct (Scan_spec s) as (tok' & lit' & s4 & HS4 & Hcons & _).
    rewrite HS in HS4. injection HS4 as <- <- <-.
    assert (Hne' : pending (Scanner_r s) <> []).
    { intros E. rewrite E in Et. cbn in Et. congruence. }
    destruct (Scan_pending_run s2) as (s3 & HS3 & Hp3).
    rewrite Hp, scan_pending_colon in HS3, Hp3 by assumption.
    cbn [fst snd] in HS3, Hp3. rewrite <- Et, <- El, <- Hp1 in *.
    cbn [app]. eapply stream_tok; [exact HS3 | exact Hne |].
    apply (IH s3 y toksy); [| exact Hp3 | exact Hy].
    intros H. apply Hn. destruct Hcons as [[E | E] _]; rewrite E;
      apply in_or_app; right; [assumption | now right].
Qed.

(** X17: a colon ends the token before it and is a token of its own.  For
    a text [x] without NUL, the tokens of [x], a colon and [y] are the
    tokens of [x], the colon token and the tokens of [y]. *)
Theorem tokens_colon (x y : gostring) tx ty :
  ~ In eof x ->
  tokens x = Some tx -> tokens y = Some ty ->
  tokens (x ++ chr ":" :: y) = Some (tx ++ (COLON, str ":") :: ty).
Proof.
  intros Hn Hx Hy. apply tokens_stream in Hx, Hy. apply tokens_stream.
  apply (stream_colon _ _ Hx _ y ty); [exact Hn | reflexivity | exact Hy].
Qed.

Lemma tokens_colon_witness :
  tokens (str "- meetings" ++ chr ":" :: str " none") =
    Some ([(MEETINGS, str "- meetings")] ++
          (COLON, str ":") :: [(WS, str " "); (IDENT, str "none")]).
Proof.
  apply (tokens_colon (str "- meetings") (str " none")).
  - intros H. repeat (destruct H as [H | H]; [discriminate H |]). exact H.
  - vm_compute. reflexivity.
  - vm_compute. reflexivity.
Defined.

(** ** The value of a group of running text *)

Lemma isWhitespace_IsSpace (c : rune) : isWhitespace c = unicode_IsSpace c.
Proof.
  unfold isWhitespace, isLineBreak.
  destruct (unicode_IsSpace c) eqn:E; [reflexivity |]. cbn [orb].
  destruct (c =? chr " ") eqn:E1;
    [apply Z.eqb_eq in E1; subst c; discriminate E |].
  destruct (c =? chr "009") eqn:E2;
    [apply Z.eqb_eq in E2; subst c; discriminate E |].
  destruct (c =? 8194) eqn:E3;
    [apply Z.eqb_eq in E3; subst c; discriminate E |].
  destruct (c =? chr "010") eqn:E4;
    [apply Z.eqb_eq in E4; subst c; discriminate E |].
  reflexivity.
Qed.

Lemma stream_WS_space (s : Scanner) toks (l : gostring) :
  stream s toks -> In (WS, l) toks -> forallb unicode_IsSpace l = true.
Proof.
  intros Hst Hin. destruct (stream_In_Scan _ _ Hst _ _ Hin) as (s1 & s2 & HS).
  destruct (Scan_pending_run s1) as (s3 & HS' & _).
  rewrite HS in HS'. injection HS' as E1 E2 _.
  pose proof (Scan_shape_pending (pending (Scanner_r s1))) as H.
  rewrite <- E1, <- E2 in H. destruct H as [_ H].
  erewrite forallb_same; [exact H |]. intros x. symmetry.
  apply isWhitespace_IsSpace.
Qed.

Lemma splitAndTrimSpace_by_trim (v1 v2 : list gostring) :
  strings_TrimSpace (concat v1) = strings_TrimSpace (concat v2) ->
  splitAndTrimSpace v1 = splitAndTrimSpace v2.
Proof.
  intros H. unfold splitAndTrimSpace. rewrite !strings_Join_empty_sep.
  now rewrite H.
Qed.

Lemma Parse_assign_by_value (K : Token) keyLit v1 v2 stmt :
  splitAndTrimSpace v1 = splitAndTrimSpace v2 ->
  Parse_assign K keyLit v1 stmt = Parse_assign K keyLit v2 stmt.
Proof. intros H. unfold Parse_assign. now rewrite H. Qed.

Lemma separated_tail (t : Token * gostring) toks :
  separated (t :: toks) = true -> separated toks = true.
Proof.
  destruct t as [t l]. cbn [separated]. destruct toks as [| [t' l'] r];
    [reflexivity |].
  intros H. apply andb_true_iff in H. tauto.
Qed.

(** The inner loop on running text: it reads to the end, and what it
    collects is the text, up to whitespace left at the end. *)
Lemma values_ahead_plain toks :
  forall values,
    forallb plain_token toks = true -> separated toks = true ->
    (forall l, In (WS, l) toks -> forallb unicode_IsSpace l = true) ->
    snd (values_ahead values toks) = [] /\
    exists trailing,
      forallb unicode_IsSpace trailing = true /\
      concat (fst (values_ahead values toks)) ++ trailing =
        concat values ++ literals toks.
Proof.
  induction toks as [toks IH] using (well_founded_induction
    (Wf_nat.well_founded_ltof _ (@length (Token * gostring)))).
  unfold Wf_nat.ltof in IH. intros values Hp Hs Hw.
  destruct toks as [| [t l] r].
  - cbn. split; [reflexivity |]. exists []. now rewrite !app_nil_r.
  - cbn [forallb] in Hp. apply andb_true_iff in Hp. destruct Hp as [Ht Hp].
    cbn [values_ahead]. destruct (Token_eqb t WS) eqn:Ew.
    + apply Token_eqb_eq in Ew. subst t.
      destruct r as [| [t' l'] r'].
      * cbn. split; [reflexivity |]. exists l. split; [| now rewrite app_nil_r].
        apply Hw. now left.
      * cbn [forallb] in Hp. apply andb_true_iff in Hp.
        destruct Hp as [Ht' Hp].
        pose proof (separated_tail _ _ Hs) as Hs1.
        pose proof (separated_tail _ _ Hs1) as Hr'.
        pose proof Hs as Hs'.
        cbn [separated may_follow] in Hs'. apply andb_true_iff in Hs'.
        destruct Hs' as [Hf _].
        destruct t'; try discriminate Ht'; try discriminate Hf;
          cbn [isKeyword Token_eqb orb];
          (destruct (IH r' ltac:(simpl; lia) (values ++ [l; l']) Hp Hr')
             as (Hsnd & trailing & Htr & Hc);
           [intros l0 H0; apply Hw; now do 2 right |];
           split; [exact Hsnd |]; exists trailing; split; [exact Htr |];
           rewrite Hc, concat_app, !literals_cons; cbn;
           now rewrite app_nil_r, <- !app_assoc).
    + assert (Hr : separated r = true) by (eapply separated_tail; eauto).
      destruct t; try discriminate Ht; try discriminate Ew;
        cbn [isKeyword Token_eqb orb];
        (destruct (IH r ltac:(simpl; lia) (values ++ [[]; l]) Hp Hr)
           as (Hsnd & trailing & Htr & Hc);
         [intros l0 H0; apply Hw; now right |];
         split; [exact Hsnd |]; exists trailing; split; [exact Htr |];
         rewrite Hc, concat_app, !literals_cons; cbn;
         now rewrite app_nil_r, <- !app_assoc).
Qed.

Lemma tokens_literals (text : gostring) toks :
  ~ In eof text -> tokens text = Some toks -> literals toks = text.
Proof.
  intros Hn Ht.
  destruct (tokens_from_spec (S (length text)) (NewScanner text))
    as (toks' & Ht' & _ & Hrt); [unfold remaining; simpl; lia |].
  unfold tokens in Ht. rewrite Ht in Ht'. injection Ht' as <-.
  now apply Hrt.
Qed.

Lemma plain_tokens_facts (text : gostring) toks :
  ~ In eof text -> tokens text = Some toks ->
  separated toks = true /\
  (forall l, In (WS, l) toks -> forallb unicode_IsSpace l = true) /\
  literals toks = text.
Proof.
  intros Hn Ht. split; [| split].
  - apply tokens_stream in Ht. eapply stream_separated; eauto.
  - intros l Hl. apply tokens_stream in Ht. eapply stream_WS_space; eauto.
  - now apply tokens_literals.
Qed.

Lemma groups_ahead_nil (fuel : nat) : groups_ahead fuel [] = [].
Proof. now destruct fuel. Qed.

Lemma keyword_not_EOF (K : Token) : isKeyword K = true -> Token_eqb K EOF = false.
Proof. now destruct K. Qed.

Lemma keyword_not_WS (K : Token) : isKeyword K = true -> Token_eqb K WS = false.
Proof. now destruct K. Qed.

(** The value that the inner loop collects from running text is the text,
    as far as [splitAndTrimSpace] can tell. *)
Lemma values_ahead_text (text : gostring) toks :
  ~ In eof text -> tokens text = Some toks ->
  forallb plain_token toks = true ->
  snd (values_ahead [] toks) = [] /\
  splitAndTrimSpace (fst (values_ahead [] toks)) = splitAndTrimSpace [text].
Proof.
  intros Hn Ht Hp.
  destruct (plain_tokens_facts _ _ Hn Ht) as (Hs & Hw & Hl).
  destruct (values_ahead_plain toks [] Hp Hs Hw) as (Hsnd & trailing & Htr & Hc).
  split; [exact Hsnd |]. apply splitAndTrimSpace_by_trim.
  cbn [concat app] in Hc. rewrite Hl in Hc.
  cbn [concat]. rewrite app_nil_r, <- Hc.
  unfold strings_TrimSpace.
  rewrite <- (TrimFunc_absorb unicode_IsSpace []
                (concat (fst (values_ahead [] toks))) trailing eq_refl Htr).
  reflexivity.
Qed.

(** X18: a keyword, a colon and running text.  When [kw] scans as one
    keyword token of kind [K] and [body] is text without NUL in which no
    keyword occurs, [Parse] on [kw : body] returns the statement in which
    the slot of [K] is filled from the whole of [body] under the label
    [kw], and nothing else is set. *)
Theorem Parse_keyword_colon_text (K : Token) (kw body : gostring) tb :
  tokens kw = Some [(K, kw)] -> isKeyword K = true ->
  ~ In eof body -> tokens body = Some tb ->
  forallb plain_token tb = true ->
  Parse (New (kw ++ chr ":" :: body)) =
    Some (Some (Parse_assign K kw [body] Statement.zero), None).
Proof.
  intros Hk HK Hn Hb Hp.
  assert (Hnk : ~ In eof kw).
  { apply tokens_stream in Hk.
    destruct (stream_In_Scan _ _ Hk K kw (or_introl eq_refl)) as (s1 & s2 & HS).
    destruct (Scan_spec s1) as (tok' & lit' & s4 & HS4 & Hcons & _).
    rewrite HS in HS4. injection HS4 as <- <- <-.
    destruct Hcons as [_ H]. exact H. }
  assert (Ht : tokens (kw ++ chr ":" :: body) =
               Some ([(K, kw)] ++ (COLON, str ":") :: tb)).
  { apply tokens_stream in Hk, Hb. apply tokens_stream.
    apply (stream_colon _ _ Hk _ body tb);
      [exact Hnk | reflexivity | exact Hb]. }
  destruct (Parse_groups_of_tokens _ _ Ht) as [_ ->].
  destruct (values_ahead_text _ _ Hn Hb Hp) as [Hsnd Hv].
  cbn [app length groups_ahead]. unfold group_ahead.
  cbn [next_token]. rewrite (keyword_not_WS _ HK), (keyword_not_EOF _ HK), HK.
  cbn [negb next_token Token_eqb].
  destruct (values_ahead [] tb) as [values rest] eqn:Ev.
  cbn [fst snd] in Hsnd, Hv. subst rest.
  cbn [groups_ahead group_ahead next_token Token_eqb fold_left assign_group].
  unfold group_ahead. cbn [next_token Token_eqb fold_left assign_group].
  do 3 f_equal. now apply Parse_assign_by_value.
Qed.

Lemma Parse_keyword_colon_text_witness :
  Parse (New (str "- Blockers" ++ chr ":" :: str " waiting: on review ")) =
    Some (Some (Parse_assign BLOCKERS (str "- Blockers")
                  [str " waiting: on review "] Statement.zero), None).
Proof.
  apply (Parse_keyword_colon_text BLOCKERS (str "- Blockers")
           (str " waiting: on review ")
           [(WS, str " "); (IDENT, str "waiting"); (COLON, str ":");
            (WS, str " "); (IDENT, str "on review ")]).
  - vm_compute. reflexivity.
  - reflexivity.
  - intros H. repeat (destruct H as [H | H]; [discriminate H |]). exact H.
  - vm_compute. reflexivity.
  - reflexivity.
Defined.

(** X19: running text without a keyword.  When no keyword occurs in a text
    without NUL, and its first token that is not whitespace is not a colon,
    [Parse] returns the statement in which the today slot is filled from
    the whole text under an empty label, and nothing else is set. *)
Theorem Parse_plain_text (body : gostring) tb :
  ~ In eof body -> tokens body = Some tb ->
  forallb plain_token tb = true -> candidate tb <> COLON ->
  Parse (New body) =
    Some (Some (Parse_assign TODAY [] [body] Statement.zero), None).
Proof.
  intros Hn Hb Hp Hc.
  destruct (Parse_groups_of_tokens _ _ Hb) as [_ ->].
  destruct (plain_tokens_facts _ _ Hn Hb) as (Hs & Hw & Hl).
  assert (Hblank : strings_TrimSpace body = [] ->
                   Statement.zero =
                   Parse_assign TODAY [] [body] Statement.zero).
  { intros E.
    rewrite (Parse_assign_by_value TODAY [] [body] [] Statement.zero);
      [reflexivity |].
    apply splitAndTrimSpace_by_trim. cbn [concat]. now rewrite app_nil_r. }
  assert (Htext : forall l l' r,
            tb = l ++ (IDENT, l') :: r ->
            forallb plain_token ((IDENT, l') :: r) = true ->
            separated ((IDENT, l') :: r) = true ->
            forallb unicode_IsSpace (literals l) = true ->
            fold_left assign_group
              (match values_ahead [] ((IDENT, l') :: r) with
               | (values, toks5) =>
                   (TODAY, [], values) :: groups_ahead (length tb) toks5
               end) Statement.zero =
            Parse_assign TODAY [] [body] Statement.zero).
  { intros l l' r E Hp' Hs' Hl'.
    destruct (values_ahead_plain ((IDENT, l') :: r) [] Hp' Hs')
      as (Hsnd & trailing & Htr & Hv).
    { intros l0 H0. apply Hw. rewrite E. apply in_or_app. now right. }
    destruct (values_ahead [] ((IDENT, l') :: r)) as [values rest].
    cbn [fst snd] in Hsnd, Hv. subst rest.
    rewrite groups_ahead_nil. cbn [fold_left assign_group].
    apply Parse_assign_by_value, splitAndTrimSpace_by_trim.
    cbn [concat app] in Hv. cbn [concat]. rewrite app_nil_r.
    rewrite <- Hl, E. unfold literals at 1. rewrite map_app, concat_app.
    fold (literals l). fold (literals ((IDENT, l') :: r)). rewrite <- Hv.
    unfold strings_TrimSpace. symmetry. now apply TrimFunc_absorb. }
  do 3 f_equal. cbn [groups_ahead]. unfold group_ahead.
  destruct tb as [| [t l] r].
  - cbn [next_token Token_eqb fold_left].
    apply Hblank. now rewrite <- Hl.
  - cbn [forallb] in Hp. apply andb_true_iff in Hp. destruct Hp as [Ht Hp].
    unfold candidate in Hc. cbn [next_token] in Hc |- *.
    destruct t; try discriminate Ht; cbn [Token_eqb] in Hc |- *.
    + destruct r as [| [t' l'] r'].
      * cbn [fold_left]. apply Hblank. rewrite <- Hl.
        unfold literals. cbn [map snd concat]. rewrite app_nil_r.
        apply TrimFunc_nil. apply Hw. now left.
      * pose proof (separated_tail _ _ Hs) as Hs1.
        pose proof Hs as Hs'.
        cbn [separated may_follow] in Hs'. apply andb_true_iff in Hs'.
        destruct Hs' as [Hf _].
        pose proof Hp as Hp'.
        cbn [forallb] in Hp. apply andb_true_iff in Hp.
        destruct Hp as [Ht' Hp].
        destruct t'; try discriminate Ht'; cbn in Hf; try discriminate Hf;
          [congruence |].
        cbn [isKeyword Token_eqb orb negb next_token].
        assert (HT := Htext [(WS, l)] l' r' eq_refl Hp' Hs1).
        destruct (values_ahead [] ((IDENT, l') :: r')). apply HT.
        unfold literals. cbn [map snd concat]. rewrite app_nil_r.
        apply Hw. now left.
    + congruence.
    + cbn [isKeyword Token_eqb orb negb next_token].
      assert (HT := Htext [] l r eq_refl).
      destruct (values_ahead [] ((IDENT, l) :: r)).
      apply HT; [| exact Hs | reflexivity].
      cbn [forallb]. now rewrite Hp.
Qed.

Lemma Parse_plain_text_witness :
  Parse (New (str " reviewing: the parser")) =
    Some (Some (Parse_assign TODAY [] [str " reviewing: the parser"]
                  Statement.zero), None).
Proof.
  apply (Parse_plain_text (str " reviewing: the parser")
           [(WS, str " "); (IDENT, str "reviewing"); (COLON, str ":");
            (WS, str " "); (IDENT, str "the parser")]).
  - intros H. repeat (destruct H as [H | H]; [discriminate H |]). exact H.
  - vm_compute. reflexivity.
  - reflexivity.
  - discriminate.
Defined.

(** ** A section after earlier text *)

Lemma group_ahead_skip_colon toks :
  group_ahead toks =
    let '(key, keyLit, _, after, back) := next_token toks in
    if Token_eqb key EOF then (None, back)
    else
      let toks4 := skip_colon (if negb (isKeyword key) then back else after) in
      (Some (if negb (isKeyword key) then (TODAY, []) else (key, keyLit),
             fst (values_ahead [] toks4)),
       snd (values_ahead [] toks4)).
Proof.
  unfold group_ahead, skip_colon.
  destruct (next_token toks) as [[[[key keyLit] ws] after] back].
  destruct (Token_eqb key EOF); [reflexivity |].
  destruct (negb (isKeyword key)).
  - destruct (next_token back) as [[[[col cl] cw] after3] back3].
    destruct (negb (Token_eqb col COLON));
      now destruct (values_ahead [] _).
  - destruct (next_token after) as [[[[col cl] cw] after3] back3].
    destruct (negb (Token_eqb col COLON));
      now destruct (values_ahead [] _).
Qed.

Section Keyword_ahead.

Variables (K : Token) (kw : gostring) (rest : list (Token * gostring)).
Hypothesis HK : isKeyword K = true.

(** The inner loop stops in front of a keyword as it stops at the end. *)
Lemma values_ahead_app toks :
  forall values,
    values_ahead values (toks ++ (K, kw) :: rest) =
      (fst (values_ahead values toks),
       snd (values_ahead values toks) ++ (K, kw) :: rest).
Proof.
  induction toks as [toks IH] using (well_founded_induction
    (Wf_nat.well_founded_ltof _ (@length (Token * gostring)))).
  unfold Wf_nat.ltof in IH. intros values.
  destruct toks as [| [t l] r].
  - cbn [app values_ahead fst snd].
    now rewrite (keyword_not_WS _ HK), HK.
  - cbn [app values_ahead]. destruct (Token_eqb t WS).
    + destruct r as [| [t' l'] r'].
      * cbn [app fst snd]. now rewrite HK.
      * cbn [app]. destruct (isKeyword t' || Token_eqb t' EOF);
          [reflexivity |].
        destruct (Token_eqb t' IDENT || Token_eqb t' COLON);
          apply IH; simpl; lia.
    + destruct (isKeyword t || Token_eqb t EOF); [reflexivity |].
      destruct (Token_eqb t IDENT || Token_eqb t COLON);
        apply IH; simpl; lia.
Qed.

Lemma skip_colon_app toks :
  skip_colon (toks ++ (K, kw) :: rest) = skip_colon toks ++ (K, kw) :: rest.
Proof.
  unfold skip_colon. destruct toks as [| [t l] r]; cbn [app next_token].
  - destruct K; try discriminate HK; reflexivity.
  - destruct (Token_eqb t WS).
    + destruct r as [| [t' l'] r']; cbn [app].
      * destruct K; try discriminate HK; reflexivity.
      * now destruct (Token_eqb t' COLON).
    + now destruct (Token_eqb t COLON).
Qed.

(** A pass of the outer loop in front of a keyword reads the group that it
    reads when the input ends there. *)
Lemma group_ahead_app toks :
  ~ In EOF (map fst toks) ->
  match toks with
  | [] => False
  | [(t, _)] => t <> WS
  | _ => True
  end ->
  exists g,
    group_ahead toks = (Some g, snd (group_ahead toks)) /\
    group_ahead (toks ++ (K, kw) :: rest) =
      (Some g, snd (group_ahead toks) ++ (K, kw) :: rest).
Proof.
  intros Hn Hsh. rewrite !group_ahead_skip_colon.
  destruct toks as [| [t l] r]; [contradiction |].
  cbn [app next_token]. destruct (Token_eqb t WS) eqn:Ew.
  - destruct r as [| [t' l'] r'];
      [apply Token_eqb_eq in Ew; contradiction |].
    cbn [app].
    assert (Ee : Token_eqb t' EOF = false).
    { apply Token_eqb_neq. intros ->. apply Hn. cbn. tauto. }
    rewrite Ee. eexists. split; [reflexivity |]. cbn [snd].
    destruct (negb (isKeyword t')).
    + change ((t', l') :: r' ++ (K, kw) :: rest)
        with (((t', l') :: r') ++ (K, kw) :: rest).
      now rewrite skip_colon_app, values_ahead_app.
    + now rewrite skip_colon_app, values_ahead_app.
  - assert (Ee : Token_eqb t EOF = false).
    { apply Token_eqb_neq. intros ->. apply Hn. cbn. tauto. }
    rewrite Ee. eexists. split; [reflexivity |]. cbn [snd].
    destruct (negb (isKeyword t)).
    + change ((t, l) :: r ++ (K, kw) :: rest)
        with (((t, l) :: r) ++ (K, kw) :: rest).
      now rewrite skip_colon_app, values_ahead_app.
    + now rewrite skip_colon_app, values_ahead_app.
Qed.

(** The groups read in front of a keyword, and then those from it on. *)
Lemma groups_ahead_app (fuel : nat) :
  forall toks,
    (length (toks ++ (K, kw) :: rest) < fuel)%nat ->
    ~ In EOF (map fst toks) ->
    groups_ahead fuel (toks ++ (K, kw) :: rest) =
      groups_ahead fuel toks ++ groups_ahead fuel ((K, kw) :: rest).
Proof.
  induction fuel as [| fuel IH]; intros toks Hf Hn; [inversion Hf |].
  assert (Hsh : toks = [] \/ (exists l, toks = [(WS, l)]) \/
                match toks with
                | [] => False
                | [(t, _)] => t <> WS
                | _ => True
                end).
  { destruct toks as [| [t l] [| t2 r]]; [tauto | | tauto].
    destruct (Token_eqb t WS) eqn:E.
    - apply Token_eqb_eq in E. subst t. right. left. now exists l.
    - apply Token_eqb_neq in E. tauto. }
  destruct Hsh as [-> | [[l ->] | Hsh]].
  - reflexivity.
  - cbn [app]. cbn [groups_ahead].
    rewrite group_ahead_skip_WS
      by (apply Token_eqb_neq, keyword_not_WS, HK).
    reflexivity.
  - destruct (group_ahead_app toks Hn Hsh) as (g & E1 & E2).
    remember (snd (group_ahead toks)) as toks' eqn:E'. clear E'.
    remember (groups_ahead (S fuel) ((K, kw) :: rest)) as gs eqn:Egs.
    cbn [groups_ahead]. rewrite E2, E1. cbn [app]. f_equal.
    destruct g as [[k kl] vs].
    destruct (group_ahead_spec _ _ _ _ _ E1) as (Hl & Hi & _).
    rewrite length_app in Hf. cbn [length] in Hf.
    rewrite IH.
    + f_equal. rewrite Egs. apply groups_ahead_fuel; cbn [length]; lia.
    + rewrite length_app. cbn [length]. lia.
    + intros H. apply Hn. apply in_map_iff in H.
      destruct H as (x & Ex & Hx). apply in_map_iff. exists x.
      split; [exact Ex | now apply Hi].
Qed.

End Keyword_ahead.

Lemma groups_ahead_section (K : Token) (kw colon body : gostring) tb
  (fuel : nat) :
  isKeyword K = true -> ~ In eof body -> tokens body = Some tb ->
  forallb plain_token tb = true ->
  exists values,
    groups_ahead (S (S fuel)) ((K, kw) :: (COLON, colon) :: tb) =
      [(K, kw, values)] /\
    splitAndTrimSpace values = splitAndTrimSpace [body].
Proof.
  intros HK Hn Hb Hp.
  destruct (values_ahead_text _ _ Hn Hb Hp) as [Hsnd Hv].
  exists (fst (values_ahead [] tb)). split; [| exact Hv].
  cbn [groups_ahead]. unfold group_ahead.
  cbn [next_token]. rewrite (keyword_not_WS _ HK), (keyword_not_EOF _ HK), HK.
  cbn [negb next_token Token_eqb].
  destruct (values_ahead [] tb) as [values r]. cbn [fst snd] in Hsnd |- *.
  subst r. now destruct fuel.
Qed.

(** X20: a section after earlier text.  Let [pre] be a text whose tokens
    stay as they are when the keyword [kw] follows it, the whole without
    NUL, and let [body] be text without NUL in which no keyword occurs.
    Then [Parse] on [pre kw : body] returns the statement of [pre] with
    the slot of the keyword filled from the whole of [body] under the label
    [kw]: what was read before stays, except in that slot. *)
Theorem Parse_append_section (K : Token) (pre kw body : gostring) tpre tb
  (stmt : Statement.t) :
  ~ In eof (pre ++ kw) ->
  tokens pre = Some tpre ->
  tokens (pre ++ kw) = Some (tpre ++ [(K, kw)]) ->
  isKeyword K = true ->
  ~ In eof body -> tokens body = Some tb ->
  forallb plain_token tb = true ->
  Parse (New pre) = Some (Some stmt, None) ->
  Parse (New ((pre ++ kw) ++ chr ":" :: body)) =
    Some (Some (Parse_assign K kw [body] stmt), None).
Proof.
  intros Hnk Hpre Hk HK Hn Hb Hp HP.
  assert (Ht : tokens ((pre ++ kw) ++ chr ":" :: body) =
               Some (tpre ++ (K, kw) :: (COLON, str ":") :: tb)).
  { apply tokens_stream in Hk, Hb. apply tokens_stream.
    change (tpre ++ (K, kw) :: (COLON, str ":") :: tb)
      with (tpre ++ [(K, kw)] ++ (COLON, str ":") :: tb).
    rewrite app_assoc.
    apply (stream_colon _ _ Hk _ body tb);
      [exact Hnk | reflexivity | exact Hb]. }
  destruct (Parse_groups_of_tokens _ _ Ht) as [_ ->].
  destruct (Parse_groups_of_tokens _ _ Hpre) as [_ HP'].
  rewrite HP in HP'. injection HP' as ->.
  assert (Hne : ~ In EOF (map fst tpre)).
  { apply tokens_stream in Hpre. eapply stream_no_EOF; eauto. }
  rewrite (groups_ahead_app K kw _ HK _ tpre) by (exact Hne || lia).
  rewrite fold_left_app.
  rewrite (groups_ahead_fuel _ tpre (S (length tpre)))
    by (rewrite ?length_app; cbn [length]; lia).
  rewrite length_app. cbn [length]. rewrite Nat.add_succ_r.
  destruct (groups_ahead_section K kw (str ":") body tb
              (length tpre + S (length tb)) HK Hn Hb Hp) as (values & -> & Hv).
  cbn [fold_left assign_group]. do 3 f_equal.
  now apply Parse_assign_by_value.
Qed.

Lemma Parse_append_section_witness :
  Parse (New ((str ("today: code review" ++ String "010" EmptyString) ++
               str "* Blockers") ++ chr ":" :: str " none")) =
    Some (Some (Parse_assign BLOCKERS (str "* Blockers") [str " none"]
                  (Parse_assign TODAY (str "today") [str " code review"]
                     Statement.zero)), None).
Proof.
  apply (Parse_append_section BLOCKERS
           (str ("today: code review" ++ String "010" EmptyString))
           (str "* Blockers") (str " none")
           [(TODAY, str "today"); (COLON, str ":"); (WS, str " ");
            (IDENT, str "code review");
            (WS, str (String "010" EmptyString))]
           [(WS, str " "); (IDENT, str "none")]).
  - intros H. repeat (destruct H as [H | H]; [discriminate H |]). exact H.
  - vm_compute. reflexivity.
  - vm_compute. reflexivity.
  - reflexivity.
  - intros H. repeat (destruct H as [H | H]; [discriminate H |]). exact H.
  - vm_compute. reflexivity.
  - reflexivity.
  - vm_compute. reflexivity.
Defined.
